(** * PhotoFilter: the local analysis engine, embedded and verified

    Shallow embedding of [src/services/geminiService.ts] (quality scoring,
    difference hash, classification ladder, duplicate clustering), of the
    per-item step of [startProcessing] and of the review handlers and
    derived state of [src/App.tsx] (selection, trash, duplicate groups,
    category changes, dashboard counters), and of the record types of the
    repository's [types] module.

    Conventions of the embedding.
    - A JavaScript [number] is an IEEE 754 binary64 value.  The finite ones
      are rationals ([Q]), and every arithmetic operation of the scoring and
      classification code rounds its exact result to the nearest double,
      ties to even ([round64], with gradual underflow); a decimal literal
      such as [0.48] denotes the double nearest to it ([double 0.48]).
      NaN and the infinities are outside the model: no operation of the
      code overflows or divides by zero on the dimensions of an image (Web
      IDL [unsigned long]).  [a < b] is the boolean test [Qltb a b].
      Numbers that the code only ever uses as integers (sizes, indices,
      pixel bytes, timestamps) are [Z] or [nat].  In [detectDuplicates] the
      difference of two quality totals is kept exact: the sort uses only
      its sign, which rounding does not change, and [scoreGap] records
      the difference before its rounding.
    - A JavaScript string is a [string]; [toLowerCase] folds the ASCII
      letters, [includes] is the substring test.
    - A [try]/[catch] block is a value of [Completion]; an [async] function
      returns a [Promise] that is either fulfilled or rejected.
    - The browser (image decoder, canvas) is a record [Browser] that the
      functions take as a parameter. *)

From Stdlib Require Import Ascii String QArith Qround Qabs Qpower Lqa.
From stdpp Require Import base decidable option list sorting gmap strings pretty.

Local Open Scope Q_scope.

(** ** Numbers *)

Definition Qltb (x y : Q) : bool := negb (Qle_bool y x).

(** *** Binary64 arithmetic *)

(** [floor (log2 x)] for a positive [x]. *)
Definition Qlog2 (x : Q) : Z :=
  let e := (Z.log2 (Qnum x) - Z.log2 (Z.pos (Qden x)))%Z in
  if Qle_bool (2 ^ e) x then e else (e - 1)%Z.

(** The nearest integer, a tie going to the even one. *)
Definition roundHalfEven (q : Q) : Z :=
  let f := Qfloor q in
  match Qcompare (q - inject_Z f) (1 # 2) with
  | Lt => f
  | Gt => (f + 1)%Z
  | Eq => if Z.even f then f else (f + 1)%Z
  end.

(** The exponent of the last place of the double nearest to a positive
    [x]: 53 significant bits, and no place below [2 ^ -1074]. *)
Definition ulpExponent (x : Q) : Z := Z.max (Qlog2 x - 52) (-1074).

Definition roundPositive (x : Q) : Q :=
  let e := ulpExponent x in
  inject_Z (roundHalfEven (x / 2 ^ e)) * 2 ^ e.

(** The double nearest to [x], as a reduced fraction. *)
Definition round64 (x : Q) : Q :=
  Qred match Qcompare x 0 with
       | Eq => 0
       | Gt => roundPositive x
       | Lt => - roundPositive (- x)
       end.

(** A decimal literal of the source. *)
Definition double (x : Q) : Q := round64 x.

(** [x + y], [x - y], [x * y], [x / y] on numbers. *)
Definition fadd (x y : Q) : Q := round64 (x + y).
Definition fsub (x y : Q) : Q := round64 (x - y).
Definition fmul (x y : Q) : Q := round64 (x * y).
Definition fdiv (x y : Q) : Q := round64 (x / y).

Infix "⊕" := fadd (at level 50, left associativity).
Infix "⊖" := fsub (at level 50, left associativity).
Infix "⊗" := fmul (at level 40, left associativity).
Infix "⊘" := fdiv (at level 40, left associativity).

(** [Math.min], [Math.max], [Math.abs], [Math.floor]. *)
Definition Math_max (x y : Q) : Q := if Qltb x y then y else x.
Definition Math_min (x y : Q) : Q := if Qltb y x then y else x.
Definition Math_abs (x : Q) : Q := Qabs x.
Definition Math_floor (x : Q) : Z := Qfloor x.

(** ** Strings *)

Definition lowerChar (c : ascii) : ascii :=
  let n := nat_of_ascii c in
  if ((65 <=? n) && (n <=? 90))%nat then ascii_of_nat (n + 32) else c.

Fixpoint toLowerCase (s : string) : string :=
  match s with
  | EmptyString => EmptyString
  | String c s' => String (lowerChar c) (toLowerCase s')
  end.

(** [s.includes(sub)]: [sub] occurs in [s] at some offset. *)
Fixpoint includes (s sub : string) : bool :=
  String.prefix sub s ||
  match s with
  | EmptyString => false
  | String _ s' => includes s' sub
  end.

(** ** Control: exceptions and promises *)

Inductive JsError : Type :=
  | ImageLoadError      (* img.onerror: the file does not decode *)
  | NoContextError      (* throw new Error("No context") / ("Context error") *)
  | IndexSizeError      (* getImageData with a zero width or height *)
  | EnforceRangeError   (* TypeError: an argument outside the range of [long] *)
  | NullContextError.   (* TypeError: property access on a null context *)

Inductive Completion (A : Type) : Type :=
  | Normal (a : A)
  | Throw (e : JsError).
Arguments Normal {A} a.
Arguments Throw {A} e.

#[global] Instance Completion_ret : MRet Completion := fun A a => Normal a.
#[global] Instance Completion_bind : MBind Completion := fun A B k c =>
  match c with
  | Normal a => k a
  | Throw e => Throw e
  end.

(** [try { body } catch (e) { handler }] *)
Definition try_catch {A} (body : Completion A) (handler : JsError -> Completion A)
  : Completion A :=
  match body with
  | Normal a => Normal a
  | Throw e => handler e
  end.

Inductive Promise (A : Type) : Type :=
  | Fulfilled (a : A)
  | Rejected (e : JsError).
Arguments Fulfilled {A} a.
Arguments Rejected {A} e.

(** The promise returned by an [async] function with the given body. *)
Definition async {A} (body : Completion A) : Promise A :=
  match body with
  | Normal a => Fulfilled a
  | Throw e => Rejected e
  end.

(** [await p] inside an [async] body. *)
Definition await {A} (p : Promise A) : Completion A :=
  match p with
  | Fulfilled a => Normal a
  | Rejected e => Throw e
  end.

(** ** Data model (the [types] module) *)

Inductive ClassificationCategory : Type := KEEP | DISCARD | UNSURE | PENDING.

Record AnalysisResult : Type := {
  category : ClassificationCategory;
  confidence : Z;
  reason : string;
  tags : list string
}.

Record QualityScore : Type := {
  sharpness : Q;
  exposure : Q;
  resolution : Q;
  total : Q;
  details : list string
}.

(** A [File]: the metadata the code reads, and a handle on its bytes. *)
Record File : Type := {
  file_name : string;
  file_size : Z;
  file_lastModified : Z;
  file_blob : N
}.

Inductive MediaType : Type := image | video.
Inductive Status : Type := queued | analyzing | done | error.

Record MediaItem : Type := {
  id : string;
  file : File;
  type : MediaType;
  size : Z;
  name : string;
  timestamp : Z;
  status : Status;
  analysis : option AnalysisResult;
  hash : option string;
  quality : option QualityScore
}.

Record DuplicateGroup : Type := {
  group_id : string;
  items : list MediaItem;
  bestItemId : string;
  scoreGap : Q
}.

(** ** The browser: image decoding and the 2D canvas *)

(** A decoded image.  A raster image that has loaded has at least one pixel
    in each direction. *)
Record HTMLImageElement : Type := {
  width : positive;
  height : positive;
  src : N
}.

(** The state of a canvas behind a 2D context: its size and its bitmap,
    addressed by column, row and channel (0..3 for r, g, b, a). *)
Record CanvasRenderingContext2D : Type := {
  canvas_width : nat;
  canvas_height : nat;
  bitmap : nat -> nat -> nat -> Z
}.

Record Browser : Type := {
  (** what [new Image()] makes of the file: [None] fires [onerror] *)
  decode : File -> option HTMLImageElement;
  (** whether [canvas.getContext('2d')] yields a context *)
  context2d : bool;
  (** the platform's resize filter: channel value at (x, y) of the image
      scaled to [dw] x [dh] *)
  resample : HTMLImageElement -> nat -> nat -> nat -> nat -> nat -> Z
}.

(** A channel value as a [Uint8ClampedArray] stores it. *)
Definition clamp8 (v : Z) : Z := Z.max 0 (Z.min 255 v).

(** A canvas as [document.createElement('canvas')] makes it: 300 x 150,
    transparent black. *)
Definition freshContext : CanvasRenderingContext2D :=
  {| canvas_width := 300; canvas_height := 150; bitmap := fun _ _ _ => 0%Z |}.

Section WithBrowser.

Context (B : Browser).

Definition loadImage (f : File) : Promise HTMLImageElement :=
  match decode B f with
  | Some img => Fulfilled img
  | None => Rejected ImageLoadError
  end.

(** [document.createElement('canvas').getContext('2d')]: the context of a
    fresh canvas, or [null]. *)
Definition getContext : option CanvasRenderingContext2D :=
  if context2d B then Some freshContext else None.

(** [canvas.width = w; canvas.height = h]: resizing clears the bitmap. *)
Definition setCanvasSize (ctx : CanvasRenderingContext2D) (w h : nat)
  : CanvasRenderingContext2D :=
  {| canvas_width := w; canvas_height := h; bitmap := fun _ _ _ => 0%Z |}.

(** [ctx.drawImage(img, 0, 0, dw, dh)] *)
Definition drawImage (ctx : CanvasRenderingContext2D) (img : HTMLImageElement)
    (dw dh : nat) : CanvasRenderingContext2D :=
  {| canvas_width := canvas_width ctx;
     canvas_height := canvas_height ctx;
     bitmap := fun x y c =>
       if ((x <? dw) && (y <? dh))%nat
       then clamp8 (resample B img dw dh x y c)
       else bitmap ctx x y c |}.

End WithBrowser.

(** [ctx.getImageData(0, 0, sw, sh).data]: row-major RGBA bytes, [4*sw*sh]
    of them; pixels outside the canvas are transparent black.  The
    arguments are [[EnforceRange] long] in Web IDL, so a width or height
    above [2^31 - 1] raises a [TypeError]; a zero width or height raises
    [IndexSizeError]. *)
Definition getImageData (ctx : CanvasRenderingContext2D) (sw sh : nat)
  : Completion (list Z) :=
  if ((2147483647 <? Z.of_nat sw) || (2147483647 <? Z.of_nat sh))%Z
  then Throw EnforceRangeError
  else if ((sw =? 0) || (sh =? 0))%nat then Throw IndexSizeError
  else Normal
    (flat_map (fun y =>
       flat_map (fun x =>
         map (fun c =>
           if ((x <? canvas_width ctx) && (y <? canvas_height ctx))%nat
           then bitmap ctx x y c else 0%Z)
           (seq 0 4))
         (seq 0 sw))
       (seq 0 sh)).

(** [data[i]] as a number. *)
Definition byteAt (data : list Z) (i : nat) : Q := inject_Z (nth i data 0%Z).

(** The values [0, step, 2*step, ...] below [stop]: the iterations of
    [for (let i = 0; i < stop; i += step)]. *)
Definition steps (stop step : nat) : list nat :=
  map (fun k => (k * step)%nat) (seq 0 ((stop + step - 1) / step)).

(** ** 1. Scoring heuristics *)

Definition calculateSharpness (ctx : CanvasRenderingContext2D) (width height : nat) : Q :=
  match getImageData ctx width height with
  | Normal data =>
      let '(sum, count) :=
        fold_left (fun '(sum, count) i =>
          if (i + 4 <? length data)%nat then
            let current := (byteAt data i ⊕ byteAt data (i+1) ⊕ byteAt data (i+2)) ⊘ 3 in
            let next := (byteAt data (i+4) ⊕ byteAt data (i+5) ⊕ byteAt data (i+6)) ⊘ 3 in
            (sum ⊕ Math_abs (current ⊖ next), (count + 1)%nat)
          else (sum, count))
          (steps (length data) 16) (0, 0%nat) in
      if (0 <? count)%nat then sum ⊘ inject_Z (Z.of_nat count) else 0
  | Throw _ => 0
  end.

Definition calculateExposureScore (ctx : CanvasRenderingContext2D) (width height : nat) : Q :=
  match getImageData ctx width height with
  | Normal data =>
      let totalLuma :=
        fold_left (fun totalLuma i =>
          totalLuma ⊕ (byteAt data i ⊗ double 0.299 ⊕ byteAt data (i+1) ⊗ double 0.587
                       ⊕ byteAt data (i+2) ⊗ double 0.114))
          (steps (length data) 4) 0 in
      let avgLuma :=
        totalLuma ⊘ (inject_Z (Z.of_nat width) ⊗ inject_Z (Z.of_nat height)) in
      let dist := Math_abs (128 ⊖ avgLuma) in
      Math_max 0 (1 ⊖ dist ⊘ 128)
  | Throw _ => 0.5
  end.

(** ** 2. Similarity algorithms *)

(** Difference hash: resize to 9 x 8, compare horizontally adjacent pixels. *)
Definition computeDHash (B : Browser) (ctx : CanvasRenderingContext2D)
    (img : HTMLImageElement) : Completion string :=
  let ctx := setCanvasSize ctx 9 8 in
  let ctx := drawImage B ctx img 9 8 in
  data ← getImageData ctx 9 8;
  mret
    (fold_left (fun hash y =>
       fold_left (fun hash x =>
         let iLeft := ((y * 9 + x) * 4)%nat in
         let iRight := ((y * 9 + x + 1) * 4)%nat in
         let leftVal := (byteAt data iLeft ⊕ byteAt data (iLeft+1) ⊕ byteAt data (iLeft+2)) ⊘ 3 in
         let rightVal := (byteAt data iRight ⊕ byteAt data (iRight+1) ⊕ byteAt data (iRight+2)) ⊘ 3 in
         (hash ++ (if Qltb rightVal leftVal then "1" else "0"))%string)
         (seq 0 8) hash)
       (seq 0 8) ""%string).

(** [hash1[i] !== hash2[i]]: an index past the end reads [undefined]. *)
Definition charNeq (c1 c2 : option ascii) : bool :=
  match c1, c2 with
  | Some a, Some b => negb (Ascii.eqb a b)
  | None, None => false
  | _, _ => true
  end.

Definition calculateHammingDistance (hash1 hash2 : string) : nat :=
  fold_left (fun dist i =>
    if charNeq (String.get i hash1) (String.get i hash2) then S dist else dist)
    (seq 0 (String.length hash1)) 0%nat.

(** ** Public API *)

Definition num (n : nat) : Q := inject_Z (Z.of_nat n).
Definition dim (p : positive) : Q := inject_Z (Z.pos p).

(** [x.toFixed(1)] for a double [0 <= x < 10^21]: the tenth nearest to
    the exact value of [x], a tie going upwards. *)
Definition toFixed1 (x : Q) : string :=
  let n := Qfloor (x * 10 + (1 # 2)) in
  (pretty (n / 10)%Z ++ "." ++ pretty (n mod 10)%Z)%string.

Definition zeroQuality : QualityScore :=
  {| sharpness := 0; exposure := 0; resolution := 0; total := 0; details := [] |}.

Definition calculateImageQuality (B : Browser) (file : File) : Promise QualityScore :=
  async (try_catch
    (img ← await (loadImage B file);
     ctx ← match getContext B with
           | Some ctx => Normal ctx
           | None => Throw NoContextError
           end;
     (* Analysis size *)
     let w := 320%nat in
     let h := Z.to_nat (Math_floor (dim (height img) ⊗ (num w ⊘ dim (width img)))) in
     let ctx := setCanvasSize ctx w h in
     let ctx := drawImage B ctx img w h in
     let sharpness := calculateSharpness ctx w h in
     let exposure := calculateExposureScore ctx w h in
     let resolution := (dim (width img) ⊗ dim (height img)) ⊘ 1000000 in
     let normSharpness := Math_min (Math_max ((sharpness ⊖ 2) ⊘ 6) 0) 1 in
     let normRes := Math_min (Math_max ((resolution ⊖ 2) ⊘ 10) 0) 1 in
     let total :=
       (normSharpness ⊗ double 0.6) ⊕ (exposure ⊗ double 0.2)
       ⊕ (normRes ⊗ double 0.2) in
     let details := [] in
     let details :=
       if Qltb (double 0.7) normSharpness then details ++ ["Very Sharp"%string]
       else if Qltb normSharpness (double 0.3) then details ++ ["Blurry"%string]
       else details in
     let details :=
       if Qltb (double 0.8) exposure then details ++ ["Good Exposure"%string]
       else if Qltb exposure (double 0.4) then details ++ ["Poor Exposure"%string]
       else details in
     let details := details ++ [(toFixed1 resolution ++ "MP")%string] in
     mret {| sharpness := normSharpness;
             exposure := exposure;
             resolution := normRes;
             total := total;
             details := details |})
    (fun e => mret zeroQuality)).

Definition analyzeImage (B : Browser) (file : File) : Promise AnalysisResult :=
  async (try_catch
    (let name := toLowerCase (file_name file) in
     let sizeKB := inject_Z (file_size file) ⊘ 1024 in
     (* Metadata heuristics *)
     if includes name "screenshot" || includes name "screen_recording" then
       mret {| category := DISCARD; confidence := 98;
               reason := "Filename indicates a screenshot";
               tags := ["Screenshot"%string] |}
     else if Qltb sizeKB 150 then
       mret {| category := DISCARD; confidence := 85;
               reason := "Low resolution (small file size)";
               tags := ["Small"%string] |}
     else
       (* Visual analysis *)
       img ← await (loadImage B file);
       ctx ← match getContext B with
             | Some ctx => Normal ctx
             | None => Throw NoContextError
             end;
       let w := 320%nat in
       let h := Z.to_nat (Math_floor (dim (height img) ⊗ (num w ⊘ dim (width img)))) in
       let ctx := setCanvasSize ctx w h in
       let ctx := drawImage B ctx img w h in
       let ratio := dim (width img) ⊘ dim (height img) in
       let sharpness := calculateSharpness ctx w h in
       (* Discard logic *)
       if Qltb ratio (double 0.48) || Qltb (double 2.2) ratio then
         mret {| category := DISCARD; confidence := 80;
                 reason := "Unusual aspect ratio"; tags := ["Aspect"%string] |}
       else if Qltb sharpness 2.5 then
         mret {| category := DISCARD; confidence := 75;
                 reason := "Image appears blurry"; tags := ["Blurry"%string] |}
       else
         mret {| category := KEEP; confidence := 65;
                 reason := "Standard image resolution"; tags := ["Image"%string] |})
    (fun e =>
       mret {| category := UNSURE; confidence := 0;
               reason := "Analysis failed"; tags := ["Error"%string] |})).

(** ** Duplicate detection *)

(** [Array.prototype.sort(cmp)]: a stable sort; [a] stays before [b] unless
    [cmp(a, b) > 0]. *)
Fixpoint insertBy {A} (cmp : A -> A -> Q) (x : A) (sorted : list A) : list A :=
  match sorted with
  | [] => [x]
  | y :: rest => if Qltb 0 (cmp x y) then y :: insertBy cmp x rest else x :: sorted
  end.

Definition Array_sort {A} (cmp : A -> A -> Q) (l : list A) : list A :=
  foldr (insertBy cmp) [] l.

(** Truthiness of an optional string: present and not empty. *)
Definition truthy (s : option string) : bool :=
  match s with
  | Some s => negb (String.eqb s "")
  | None => false
  end.

Definition hashOf (item : MediaItem) : string := default ""%string (hash item).

(** [x || 0] on numbers. *)
Definition orZero (x : Q) : Q := if Qeq_bool x 0 then 0 else x.

(** [item.quality?.total || 0] *)
Definition totalOf (item : MediaItem) : Q :=
  match quality item with
  | Some q => orZero (total q)
  | None => 0
  end.

(** [item.hash = hash; item.quality = quality] *)
Definition setHashQuality (item : MediaItem) (h : string) (q : QualityScore) : MediaItem :=
  {| id := id item; file := file item; type := type item; size := size item;
     name := name item; timestamp := timestamp item; status := status item;
     analysis := analysis item; hash := Some h; quality := Some q |}.

(** The first loop: skip videos, compute and cache what is missing.  The
    code caches by assigning to the record it was handed; here the enriched
    record is the one pushed, and it is the one that ends up in the groups. *)
Fixpoint preprocess (B : Browser) (sortedItems processedItems : list MediaItem)
  : Completion (list MediaItem) :=
  match sortedItems with
  | [] => mret processedItems
  | item :: rest =>
      match type item with
      | video => preprocess B rest processedItems
      | image =>
          if negb (truthy (hash item)) || negb (bool_decide (is_Some (quality item))) then
            img ← await (loadImage B (file item));
            h ← match getContext B with
                | Some ctx => computeDHash B ctx img
                | None => Throw NullContextError
                end;
            q ← await (calculateImageQuality B (file item));
            preprocess B rest (processedItems ++ [setHashQuality item h q])
          else preprocess B rest (processedItems ++ [item])
      end
  end.

(** The inner loop, [for (let j = i + 1; j < lookAhead; j++)]. *)
Definition scanWindow (processedItems : list MediaItem) (current : MediaItem)
    (i lookAhead : nat) (st : list MediaItem * gset string)
  : list MediaItem * gset string :=
  fold_left (fun '(currentGroupItems, visited) j =>
    match processedItems !! j with
    | None => (currentGroupItems, visited)
    | Some candidate =>
        if bool_decide (id candidate ∈ visited) then (currentGroupItems, visited)
        else if truthy (hash current) && truthy (hash candidate) then
          let dist := calculateHammingDistance (hashOf current) (hashOf candidate) in
          if (dist <=? 5)%nat
          then (currentGroupItems ++ [candidate], visited ∪ {[ id candidate ]})
          else (currentGroupItems, visited)
        else (currentGroupItems, visited)
    end)
    (seq (i + 1) (lookAhead - (i + 1))) st.

(** One iteration of the outer loop, at index [i]. *)
Definition groupFrom (processedItems : list MediaItem)
    (st : list DuplicateGroup * gset string) (i : nat)
  : list DuplicateGroup * gset string :=
  let '(groups, visited) := st in
  match processedItems !! i with
  | None => (groups, visited)
  | Some current =>
      if bool_decide (id current ∈ visited) then (groups, visited)
      else
        let currentGroupItems := [current] in
        let visited := visited ∪ {[ id current ]} in
        let lookAhead := Nat.min (length processedItems) (i + 50) in
        let '(currentGroupItems, visited) :=
          scanWindow processedItems current i lookAhead (currentGroupItems, visited) in
        if (1 <? length currentGroupItems)%nat then
          (* Sort by quality total, descending *)
          let currentGroupItems :=
            Array_sort (fun a b => totalOf b - totalOf a) currentGroupItems in
          let best := nth 0 currentGroupItems current in
          let runnerUp := nth 1 currentGroupItems current in
          let gap := totalOf best - totalOf runnerUp in
          (groups ++ [{| group_id := ("group-" ++ id current)%string;
                         items := currentGroupItems;
                         bestItemId := id best;
                         scoreGap := gap |}], visited)
        else (groups, visited)
  end.

Definition detectDuplicates (B : Browser) (items : list MediaItem)
  : Promise (list DuplicateGroup) :=
  async (
    (* Sort by timestamp *)
    let sortedItems :=
      Array_sort (fun a b => inject_Z (timestamp a - timestamp b)) items in
    processedItems ← preprocess B sortedItems [];
    let '(groups, visited) :=
      fold_left (groupFrom processedItems) (seq 0 (length processedItems)) ([], ∅) in
    mret groups).

(** ** The caller: [startProcessing] and [startDuplicateScan] of the App *)

(** What the body of the per-item [try] block computes for [item]. *)
Definition analyzeItem (B : Browser) (item : MediaItem) : Completion AnalysisResult :=
  match type item with
  | video =>
      let isScreenRec := includes (toLowerCase (name item)) "screen" in
      mret {| category := if isScreenRec then DISCARD else KEEP;
              confidence := 85;
              reason := if isScreenRec then "Screen Recording Detected" else "Video content";
              tags := ["Video"%string] |}
  | image => await (analyzeImage B (file item))
  end.

Definition setStatus (it : MediaItem) (s : Status) (a : option AnalysisResult) : MediaItem :=
  {| id := id it; file := file it; type := type it; size := size it;
     name := name it; timestamp := timestamp it; status := s;
     analysis := a; hash := hash it; quality := quality it |}.

(** [setItems(prev => prev.map(it => it.id === item.id ? {...} : it))] *)
Definition updateById (item_id : string) (f : MediaItem -> MediaItem)
    (prev : list MediaItem) : list MediaItem :=
  map (fun it => if String.eqb (id it) item_id then f it else it) prev.

(** The state updates of one item's callback.  The callbacks of a batch run
    under [Promise.all]; each only rewrites the entries carrying its own id,
    so they are taken in array order here. *)
Definition processItem (B : Browser) (prev : list MediaItem) (item : MediaItem)
  : list MediaItem :=
  let prev := updateById (id item) (fun it => setStatus it analyzing (analysis it)) prev in
  match analyzeItem B item with
  | Normal a => updateById (id item) (fun it => setStatus it done (Some a)) prev
  | Throw _ => updateById (id item) (fun it => setStatus it error (analysis it)) prev
  end.

Definition startProcessing (B : Browser) (filesToProcess : list MediaItem)
  : list MediaItem :=
  fold_left (processItem B) filesToProcess filesToProcess.

Definition isDiscard (it : MediaItem) : bool :=
  match analysis it with
  | Some {| category := DISCARD |} => true
  | _ => false
  end.

Definition startDuplicateScan (B : Browser) (items : list MediaItem)
  : Promise (list DuplicateGroup) :=
  let candidates := List.filter (fun i => negb (isDiscard i)) items in
  detectDuplicates B candidates.

(** ** Reference definitions used to state the properties *)

(** The canvas that [calculateImageQuality] and [analyzeImage] analyse:
    320 pixels wide, height scaled to keep the aspect ratio. *)
Definition analysisHeight (img : HTMLImageElement) : nat :=
  Z.to_nat (Math_floor (dim (height img) ⊗ (num 320 ⊘ dim (width img)))).

Definition analysisCanvas (B : Browser) (ctx : CanvasRenderingContext2D)
    (img : HTMLImageElement) : CanvasRenderingContext2D :=
  drawImage B (setCanvasSize ctx 320 (analysisHeight img)) img 320 (analysisHeight img).

(** Raw sharpness and aspect ratio as the visual stage sees them. *)
Definition rawSharpness (B : Browser) (img : HTMLImageElement) : Q :=
  calculateSharpness (analysisCanvas B freshContext img) 320 (analysisHeight img).

Definition aspectRatio (img : HTMLImageElement) : Q :=
  dim (width img) ⊘ dim (height img).

(** The part of an [AnalysisResult] the classification rules fix. *)
Definition verdict (r : AnalysisResult) : ClassificationCategory * Z * string :=
  (category r, confidence r, reason r).

(** A case-insensitive substring test in the specification's words: two
    characters match when they are equal or are the upper- and lower-case
    forms of one letter, and [sub] occurs in [s] when it matches at some
    offset. *)
Definition letterPairs : list (ascii * ascii) :=
  combine (list_ascii_of_string "ABCDEFGHIJKLMNOPQRSTUVWXYZ")
          (list_ascii_of_string "abcdefghijklmnopqrstuvwxyz").

Definition sameLetter (a b : ascii) : bool :=
  Ascii.eqb a b
  || existsb (fun '(upper, lower) =>
       (Ascii.eqb a upper && Ascii.eqb b lower)
       || (Ascii.eqb a lower && Ascii.eqb b upper)) letterPairs.

Fixpoint prefixIgnoringCase (sub s : string) : bool :=
  match sub, s with
  | EmptyString, _ => true
  | String a sub', String b s' => sameLetter a b && prefixIgnoringCase sub' s'
  | String _ _, EmptyString => false
  end.

Fixpoint includesIgnoringCase (s sub : string) : bool :=
  prefixIgnoringCase sub s ||
  match s with
  | EmptyString => false
  | String _ s' => includesIgnoringCase s' sub
  end.

(** The decision ladder in the specification's words: rules 1 to 5 in
    order, first match wins; the file name is searched without regard to
    letter case; sizes in bytes, 1 KB = 1024 bytes; the thresholds 0.48 and
    2.2 are the doubles of these literals. *)
Definition ladder (name : string) (sizeBytes : Z) (ratio sharp : Q)
  : ClassificationCategory * Z * string :=
  if includesIgnoringCase name "screenshot"
     || includesIgnoringCase name "screen_recording"
  then (DISCARD, 98%Z, "Filename indicates a screenshot"%string)
  else if (sizeBytes <? 150 * 1024)%Z
  then (DISCARD, 85%Z, "Low resolution (small file size)"%string)
  else if Qltb ratio (double 0.48) || Qltb (double 2.2) ratio
  then (DISCARD, 80%Z, "Unusual aspect ratio"%string)
  else if Qltb sharp 2.5
  then (DISCARD, 75%Z, "Image appears blurry"%string)
  else (KEEP, 65%Z, "Standard image resolution"%string).

Definition analysisFailed : AnalysisResult :=
  {| category := UNSURE; confidence := 0; reason := "Analysis failed";
     tags := ["Error"%string] |}.

(** Sorting on a numeric key, largest first: the comparator
    [(a, b) => key(b) - key(a)] and the order it produces. *)
Definition byKeyDesc {A} (key : A -> Q) (a b : A) : Q := key b - key a.
Definition notBelow {A} (key : A -> Q) (a b : A) : Prop := key b <= key a.

(** The record ids that a list of groups holds, in order of appearance. *)
Definition claimedIds (groups : list DuplicateGroup) : list string :=
  concat (map (fun g => map id (items g)) groups).

(** A group led by its best member: the first member has the largest
    quality total, the second the largest among the rest, [bestItemId] names
    the first and [scoreGap] is the difference of the two totals. *)
Definition ranked (g : DuplicateGroup) : Prop :=
  exists best second rest,
    items g = best :: second :: rest
    /\ bestItemId g = id best
    /\ scoreGap g = totalOf best - totalOf second
    /\ Forall (fun m => totalOf m <= totalOf best) (items g)
    /\ Forall (fun m => totalOf m <= totalOf second) (second :: rest).

(** What the inner loop maintains, for a scan that started with the
    visited set [visited0]: *)
Definition windowInv (pool : list MediaItem) (visited0 : gset string)
    (st : list MediaItem * gset string) : Prop :=
  NoDup (map id st.1)
  /\ (forall m, m ∈ st.1 -> id m ∈ st.2)
  /\ (forall m, m ∈ st.1 -> id m ∉ visited0)
  /\ visited0 ⊆ st.2
  /\ (forall m, m ∈ st.1 -> m ∈ pool).

(** What the outer loop maintains. *)
Definition outerInv (pool : list MediaItem)
    (st : list DuplicateGroup * gset string) : Prop :=
  NoDup (claimedIds st.1)
  /\ (forall x, x ∈ claimedIds st.1 -> x ∈ st.2)
  /\ Forall ranked st.1
  /\ Forall (fun g => forall m, m ∈ items g -> m ∈ pool) st.1.

(** ** Concrete inputs *)

Definition hashA : string :=
  "0000000011111111000000001111111100000000111111110000000011111111".
Definition hashB : string :=
  "0000000011111111000000001111111100000000111111110000000011100111".

(** A browser without a usable decoder or canvas. *)
Definition noBrowser : Browser :=
  {| decode := fun _ => None; context2d := false;
     resample := fun _ _ _ _ _ _ => 0%Z |}.

(** A 640 x 1 strip of mid-grey pixels: it decodes, but its analysis canvas
    is 320 x 0, so [getImageData] raises. *)
Definition stripImage : HTMLImageElement := {| width := 640; height := 1; src := 0 |}.

Definition stripBrowser : Browser :=
  {| decode := fun _ => Some stripImage; context2d := true;
     resample := fun _ _ _ _ _ _ => 128%Z |}.

(** Two more images whose analysis canvas has no rows: 7500 x 20, of 0.15
    megapixels, and 15680 x 49, where [49 * (320 / 15680)] is 1 exactly and
    the double just below 1 in binary64. *)
Definition bannerImage : HTMLImageElement := {| width := 7500; height := 20; src := 0 |}.

Definition bannerBrowser : Browser :=
  {| decode := fun _ => Some bannerImage; context2d := true;
     resample := fun _ _ _ _ _ _ => 128%Z |}.

Definition panoramaImage : HTMLImageElement :=
  {| width := 15680; height := 49; src := 0 |}.

Definition panoramaBrowser : Browser :=
  {| decode := fun _ => Some panoramaImage; context2d := true;
     resample := fun _ _ _ _ _ _ => 128%Z |}.

(** A square image, 308 x 308: [308 * (320 / 308)] is 320 exactly and the
    double just below 320 in binary64. *)
Definition squareImage : HTMLImageElement :=
  {| width := 308; height := 308; src := 0 |}.

Definition stripFile : File :=
  {| file_name := "strip.png"; file_size := 200000; file_lastModified := 0;
     file_blob := 0 |}.

Definition screenshotFile : File :=
  {| file_name := "IMG_screenshot_01.png"; file_size := 500000;
     file_lastModified := 0; file_blob := 1 |}.

(** The same rule in other letter cases. *)
Definition shoutingFile : File :=
  {| file_name := "IMG_SCREENSHOT_01.PNG"; file_size := 500000;
     file_lastModified := 0; file_blob := 1 |}.

Definition recordingFile : File :=
  {| file_name := "Screen_Recording_2024-05-01.JPG"; file_size := 500000;
     file_lastModified := 0; file_blob := 1 |}.

Definition smallFile : File :=
  {| file_name := "photo.jpg"; file_size := 80000;
     file_lastModified := 0; file_blob := 2 |}.

Definition corruptFile : File :=
  {| file_name := "IMG_0042.jpg"; file_size := 2500000;
     file_lastModified := 1700000000000; file_blob := 3 |}.

Definition mkItem (i : string) (f : File) (t : MediaType) : MediaItem :=
  {| id := i; file := f; type := t; size := file_size f; name := file_name f;
     timestamp := file_lastModified f; status := queued; analysis := None;
     hash := None; quality := None |}.

Definition screenVideo : MediaItem :=
  mkItem "v1" {| file_name := "Screen_capture.mov"; file_size := 9000000;
                 file_lastModified := 5; file_blob := 4 |} video.

Definition holidayVideo : MediaItem :=
  mkItem "v2" {| file_name := "holiday.mp4"; file_size := 9000000;
                 file_lastModified := 6; file_blob := 5 |} video.

Definition zeros64 : string :=
  "0000000000000000000000000000000000000000000000000000000000000000".
Definition ones64 : string :=
  "1111111111111111111111111111111111111111111111111111111111111111".

(** An image record whose hash and quality an earlier scan has cached. *)
Definition cached (i : string) (ts : Z) (h : string) (t : Q) : MediaItem :=
  {| id := i;
     file := {| file_name := (i ++ ".jpg")%string; file_size := 2000000;
                file_lastModified := ts; file_blob := 0 |};
     type := image; size := 2000000; name := (i ++ ".jpg")%string;
     timestamp := ts; status := done; analysis := None;
     hash := Some h;
     quality := Some {| sharpness := t; exposure := t; resolution := t;
                        total := t; details := [] |} |}.

(** Three near-duplicates with totals 0.5, 0.9 and 0.7, in time order. *)
Definition trio : list MediaItem :=
  [cached "a" 1 zeros64 0.5; cached "b" 2 zeros64 0.9; cached "c" 3 zeros64 0.7].

Definition trioGroup : DuplicateGroup :=
  {| group_id := "group-a";
     items := [cached "b" 2 zeros64 0.9; cached "c" 3 zeros64 0.7;
               cached "a" 1 zeros64 0.5];
     bestItemId := "b";
     scoreGap := 0.9 - 0.7 |}.

(** Two interleaved pairs of near-duplicates. *)
Definition quad : list MediaItem :=
  [cached "a" 1 zeros64 0.8; cached "b" 2 ones64 0.6;
   cached "c" 3 zeros64 0.4; cached "d" 4 ones64 0.9].

Definition quadGroups : list DuplicateGroup :=
  [ {| group_id := "group-a";
       items := [cached "a" 1 zeros64 0.8; cached "c" 3 zeros64 0.4];
       bestItemId := "a"; scoreGap := 0.8 - 0.4 |};
    {| group_id := "group-b";
       items := [cached "d" 4 ones64 0.9; cached "b" 2 ones64 0.6];
       bestItemId := "d"; scoreGap := 0.9 - 0.6 |} ].

(** A burst in time order: [p0] with the all-zero hash, then [n - 1] shots
    with the all-one hash, then [pn] with the all-zero hash again, so that
    the two identical shots [p0] and [pn] are [n] places apart. *)
Definition shot (k : nat) (h : string) : MediaItem :=
  cached ("p" ++ pretty k) (Z.of_nat k) h 0.5.

Definition burst (n : nat) : list MediaItem :=
  shot 0 zeros64 :: map (fun k => shot k ones64) (seq 1 (n - 1)) ++ [shot n zeros64].

(** A browser that decodes every file but the one with blob 3. *)
Definition pickyBrowser : Browser :=
  {| decode := fun f =>
       if (file_blob f =? 3)%N then None
       else Some {| width := 4000; height := 3000; src := file_blob f |};
     context2d := true;
     resample := fun _ _ _ x y _ => Z.of_nat (x + y) |}.

Definition screenshotItem : MediaItem := mkItem "s1" screenshotFile image.
Definition corruptItem : MediaItem := mkItem "c1" corruptFile image.

(** A 640 x 480 picture, once as alternating black and white columns and
    once as a flat mid-grey. *)
Definition photoImage : HTMLImageElement := {| width := 640; height := 480; src := 7 |}.

Definition stripesBrowser : Browser :=
  {| decode := fun _ => Some photoImage; context2d := true;
     resample := fun _ _ _ x _ _ => if Nat.even x then 0%Z else 255%Z |}.

Definition flatBrowser : Browser :=
  {| decode := fun _ => Some photoImage; context2d := true;
     resample := fun _ _ _ _ _ _ => 128%Z |}.

(** A 1700 x 1500 picture: 2.55 megapixels, of which the double lies just
    below 2.55. *)
Definition posterImage : HTMLImageElement :=
  {| width := 1700; height := 1500; src := 8 |}.

Definition posterBrowser : Browser :=
  {| decode := fun _ => Some posterImage; context2d := true;
     resample := fun _ _ _ _ _ _ => 128%Z |}.

(** The same picture taken in the dark: black, opaque. *)
Definition nightBrowser : Browser :=
  {| decode := fun _ => Some photoImage; context2d := true;
     resample := fun _ _ _ _ _ c => if (c <? 3)%nat then 0%Z else 255%Z |}.

Definition photoFile : File :=
  {| file_name := "IMG_0001.JPG"; file_size := 2000000; file_lastModified := 0;
     file_blob := 7 |}.

(** An 8 x 1 canvas whose two sampled pairs are (12, 0, 2) next to
    (8, 4, 3) and (5, 5, 11) next to (2, 1, 4). *)
Definition roundingCanvas : CanvasRenderingContext2D :=
  {| canvas_width := 8; canvas_height := 1;
     bitmap := fun x _ c =>
       nth c (nth x [[12; 0; 2; 255]; [8; 4; 3; 255]; []; [];
                     [5; 5; 11; 255]; [2; 1; 4; 255]]%Z []) 0%Z |}.

(** A 4 x 2 canvas of one colour. *)
Definition plainCanvas (v : Z) : CanvasRenderingContext2D :=
  {| canvas_width := 4; canvas_height := 2; bitmap := fun _ _ _ => v |}.

(** ** Further reference definitions *)

(** The grey value [(r + g + b) / 3] of a pixel, and what
    [calculateSharpness] adds for the sampled pair at byte [i]: the distance
    between the grey values of the pixel at [i] and of its right
    neighbour. *)
Definition grey (r g b : Q) : Q := (r ⊕ g ⊕ b) ⊘ 3.

Definition pairDifference (data : list Z) (i : nat) : Q :=
  Math_abs (grey (byteAt data i) (byteAt data (i+1)) (byteAt data (i+2))
            ⊖ grey (byteAt data (i+4)) (byteAt data (i+5)) (byteAt data (i+6))).

(** The body of the loop of [calculateSharpness]. *)
Definition sharpnessStep (data : list Z) : Q * nat -> nat -> Q * nat :=
  fun '(sum, count) i =>
    if (i + 4 <? length data)%nat
    then (sum ⊕ pairDifference data i, (count + 1)%nat)
    else (sum, count).

(** Every character of the string is ['0'] or ['1']. *)
Fixpoint allBits (s : string) : bool :=
  match s with
  | EmptyString => true
  | String c s' => (Ascii.eqb c "0" || Ascii.eqb c "1") && allBits s'
  end.

(** The 9 x 8 grid that [computeDHash] reads. *)
Definition hashCanvas (B : Browser) (ctx : CanvasRenderingContext2D)
    (img : HTMLImageElement) : CanvasRenderingContext2D :=
  drawImage B (setCanvasSize ctx 9 8) img 9 8.


(** The five results of the decision ladder, as [analyzeImage] builds them. *)
Definition resultScreenshot : AnalysisResult :=
  {| category := DISCARD; confidence := 98;
     reason := "Filename indicates a screenshot"; tags := ["Screenshot"%string] |}.
Definition resultSmall : AnalysisResult :=
  {| category := DISCARD; confidence := 85;
     reason := "Low resolution (small file size)"; tags := ["Small"%string] |}.
Definition resultAspect : AnalysisResult :=
  {| category := DISCARD; confidence := 80;
     reason := "Unusual aspect ratio"; tags := ["Aspect"%string] |}.
Definition resultBlurry : AnalysisResult :=
  {| category := DISCARD; confidence := 75;
     reason := "Image appears blurry"; tags := ["Blurry"%string] |}.
Definition resultKeep : AnalysisResult :=
  {| category := KEEP; confidence := 65;
     reason := "Standard image resolution"; tags := ["Image"%string] |}.

(** The file name matches the first rule. *)
Definition screenshotName (f : File) : bool :=
  includes (toLowerCase (file_name f)) "screenshot"
  || includes (toLowerCase (file_name f)) "screen_recording".

(** The exposure that [calculateImageQuality] measures. *)
Definition rawExposure (B : Browser) (img : HTMLImageElement) : Q :=
  calculateExposureScore (analysisCanvas B freshContext img) 320 (analysisHeight img).

(** Megapixels of the original image. *)
Definition megapixels (img : HTMLImageElement) : Q :=
  (dim (width img) ⊗ dim (height img)) ⊘ 1000000.


(** The records [detectDuplicates] looks at: images only. *)
Definition isImage (item : MediaItem) : bool :=
  match type item with
  | image => true
  | video => false
  end.

(** A record already carries what the scan needs. *)
Definition isCached (item : MediaItem) : bool :=
  truthy (hash item) && bool_decide (is_Some (quality item)).

(** The comparator of the timestamp sort. *)
Definition byTimestamp (a b : MediaItem) : Q := inject_Z (timestamp a - timestamp b).

(** The seed of a group and what ties the members to it: the group is
    named after the seed, which sits at index [i] of the candidate list;
    every member is within 5 bits of the seed and is the seed itself or sits
    at most 49 places after it. *)
Definition seeded (pool : list MediaItem) (g : DuplicateGroup) : Prop :=
  exists i seed,
    pool !! i = Some seed
    /\ group_id g = ("group-" ++ id seed)%string
    /\ seed ∈ items g
    /\ (length (items g) <= 50)%nat
    /\ forall m, m ∈ items g ->
         (calculateHammingDistance (hashOf seed) (hashOf m) <= 5)%nat
         /\ (m = seed \/ exists j, (i < j <= i + 49)%nat /\ pool !! j = Some m).

(** ** The review state of the App *)

(** The state hooks of the [App] component that its handlers read and
    write.  A handler is run on the state of the latest render, so the
    values it closes over are the current ones; the state after the handler
    is the one its [set...] calls leave. *)
Inductive AppMode : Type := LANDING | SCANNING | REVIEW | DUPLICATES | TRASH.

(** [ClassificationCategory | 'ALL'] *)
Inductive ActiveFilter : Type := ALL | Only (c : ClassificationCategory).

Record AppState : Type := {
  app_mode : AppMode;
  app_items : list MediaItem;
  app_selectedIds : gset string;
  app_activeFilter : ActiveFilter;
  app_trashBin : list MediaItem;
  app_duplicateGroups : list DuplicateGroup
}.

Definition setItems (s : AppState) (l : list MediaItem) : AppState :=
  {| app_mode := app_mode s; app_items := l; app_selectedIds := app_selectedIds s;
     app_activeFilter := app_activeFilter s; app_trashBin := app_trashBin s;
     app_duplicateGroups := app_duplicateGroups s |}.

Definition setSelectedIds (s : AppState) (sel : gset string) : AppState :=
  {| app_mode := app_mode s; app_items := app_items s; app_selectedIds := sel;
     app_activeFilter := app_activeFilter s; app_trashBin := app_trashBin s;
     app_duplicateGroups := app_duplicateGroups s |}.

Definition setActiveFilter (s : AppState) (f : ActiveFilter) : AppState :=
  {| app_mode := app_mode s; app_items := app_items s;
     app_selectedIds := app_selectedIds s;
     app_activeFilter := f; app_trashBin := app_trashBin s;
     app_duplicateGroups := app_duplicateGroups s |}.

Definition category_eqb (a b : ClassificationCategory) : bool :=
  match a, b with
  | KEEP, KEEP | DISCARD, DISCARD | UNSURE, UNSURE | PENDING, PENDING => true
  | _, _ => false
  end.

(** [item.analysis?.category === c] *)
Definition categoryIs (c : ClassificationCategory) (item : MediaItem) : bool :=
  match analysis item with
  | Some a => category_eqb (category a) c
  | None => false
  end.

Definition filteredItems (s : AppState) : list MediaItem :=
  match app_activeFilter s with
  | ALL => app_items s
  | Only c => List.filter (categoryIs c) (app_items s)
  end.

Definition toggleSelection (i : string) (s : AppState) : AppState :=
  let newSet := app_selectedIds s in
  setSelectedIds s
    (if bool_decide (i ∈ newSet) then newSet ∖ {[ i ]} else newSet ∪ {[ i ]}).

Definition selectAllInView (s : AppState) : AppState :=
  let visibleIds := map id (filteredItems s) in
  let allSelected :=
    forallb (fun i => bool_decide (i ∈ app_selectedIds s)) visibleIds in
  let newSet := app_selectedIds s in
  setSelectedIds s
    (if allSelected
     then fold_left (fun acc i => acc ∖ {[ i ]}) visibleIds newSet
     else fold_left (fun acc i => acc ∪ {[ i ]}) visibleIds newSet).

(** [{ ...g, items: ... }] *)
Definition setGroupItems (g : DuplicateGroup) (l : list MediaItem) : DuplicateGroup :=
  {| group_id := group_id g; items := l; bestItemId := bestItemId g;
     scoreGap := scoreGap g |}.

Definition moveToTrash (s : AppState) : AppState :=
  let selected := fun i => bool_decide (id i ∈ app_selectedIds s) in
  let itemsToTrash := List.filter selected (app_items s) in
  let remainingItems := List.filter (fun i => negb (selected i)) (app_items s) in
  {| app_mode := app_mode s;
     app_items := remainingItems;
     app_selectedIds := ∅;
     app_activeFilter := app_activeFilter s;
     app_trashBin := app_trashBin s ++ itemsToTrash;
     app_duplicateGroups :=
       if (0 <? length (app_duplicateGroups s))%nat then
         let trashedIds : gset string := list_to_set (map id itemsToTrash) in
         List.filter (fun g => (1 <? length (items g))%nat)
           (map (fun g =>
                   setGroupItems g
                     (List.filter (fun i => negb (bool_decide (id i ∈ trashedIds)))
                        (items g)))
              (app_duplicateGroups s))
       else app_duplicateGroups s |}.

Definition resolveDuplicateGroup (group : DuplicateGroup) (s : AppState) : AppState :=
  (* Keep best, trash rest *)
  let toTrash :=
    List.filter (fun i => negb (String.eqb (id i) (bestItemId group))) (items group) in
  let toTrashIds : gset string := list_to_set (map id toTrash) in
  {| app_mode := app_mode s;
     app_items :=
       List.filter (fun i => negb (bool_decide (id i ∈ toTrashIds))) (app_items s);
     app_selectedIds := app_selectedIds s;
     app_activeFilter := app_activeFilter s;
     app_trashBin := app_trashBin s ++ toTrash;
     app_duplicateGroups :=
       List.filter (fun g => negb (String.eqb (group_id g) (group_id group)))
         (app_duplicateGroups s) |}.

(** [{ ...item.analysis, category: newCategory }] *)
Definition setCategory (a : AnalysisResult) (c : ClassificationCategory)
  : AnalysisResult :=
  {| category := c; confidence := confidence a; reason := reason a; tags := tags a |}.

(** The callback of the [prev.map] in [changeCategory]. *)
Definition recategorise (i : string) (newCategory : ClassificationCategory)
    (item : MediaItem) : MediaItem :=
  match analysis item with
  | Some a =>
      if String.eqb (id item) i
      then setStatus item (status item) (Some (setCategory a newCategory))
      else item
  | None => item
  end.

Definition changeCategory (i : string) (newCategory : ClassificationCategory)
    (s : AppState) : AppState :=
  setItems s (map (recategorise i newCategory) (app_items s)).

(** The two buttons of the trash view. *)
Definition restoreAll (s : AppState) : AppState :=
  {| app_mode := REVIEW;
     app_items := app_items s ++ app_trashBin s;
     app_selectedIds := app_selectedIds s;
     app_activeFilter := app_activeFilter s;
     app_trashBin := [];
     app_duplicateGroups := app_duplicateGroups s |}.

Definition emptyTrash (confirmed : bool) (s : AppState) : AppState :=
  if confirmed then
    {| app_mode := app_mode s; app_items := app_items s;
       app_selectedIds := app_selectedIds s;
       app_activeFilter := app_activeFilter s;
       app_trashBin := [];
       app_duplicateGroups := app_duplicateGroups s |}
  else s.

(** The counters of the dashboard.  The object starts with the keys KEEP,
    DISCARD and UNSURE; [s[category]++] on the category PENDING finds no
    such key and stores NaN under it, which [statPendingNaN] records. *)
Record Stats : Type := {
  statKeep : nat;
  statDiscard : nat;
  statUnsure : nat;
  statPendingNaN : bool;
  totalSize : Z;
  keepSize : Z;
  discardSize : Z
}.

Definition zeroStats : Stats :=
  {| statKeep := 0; statDiscard := 0; statUnsure := 0; statPendingNaN := false;
     totalSize := 0; keepSize := 0; discardSize := 0 |}.

Definition statsStep (s : Stats) (item : MediaItem) : Stats :=
  let has := fun c => categoryIs c item in
  {| statKeep := if has KEEP then S (statKeep s) else statKeep s;
     statDiscard := if has DISCARD then S (statDiscard s) else statDiscard s;
     statUnsure := if has UNSURE then S (statUnsure s) else statUnsure s;
     statPendingNaN := if has PENDING then true else statPendingNaN s;
     totalSize := totalSize s + size item;
     keepSize := if has KEEP then keepSize s + size item else keepSize s;
     discardSize := if has DISCARD then discardSize s + size item else discardSize s
  |}%Z.

Definition stats (s : AppState) : Stats :=
  fold_left statsStep (app_items s) zeroStats.

(** The bytes of a list of records. *)
Definition sumSizes (l : list MediaItem) : Z :=
  foldr (fun item acc => size item + acc)%Z 0%Z l.

(** What [startProcessing] leaves in the place of one record. *)
Definition analysed (B : Browser) (item : MediaItem) : MediaItem :=
  match analyzeItem B item with
  | Normal a => setStatus item done (Some a)
  | Throw _ => setStatus item error (analysis item)
  end.

(** Every member of every group is a record of the list, by id. *)
Definition groupsWithin (l : list MediaItem) (groups : list DuplicateGroup) : Prop :=
  forall g m, g ∈ groups -> m ∈ items g -> id m ∈ map id l.

(** The state after a scan of [trio], with the best shot "b" selected. *)
Definition trioState : AppState :=
  {| app_mode := DUPLICATES;
     app_items := trio;
     app_selectedIds := {[ "b"%string ]};
     app_activeFilter := ALL;
     app_trashBin := [];
     app_duplicateGroups := [trioGroup] |}.

(** * Verification *)

(** ** Arithmetic helpers *)

(** *** Rounding to the nearest double *)

Lemma roundHalfEven_bounds (q : Q) :
  (Qfloor q <= roundHalfEven q <= Qfloor q + 1)%Z.
Proof.
  unfold roundHalfEven. destruct (Qcompare _ _); [destruct (Z.even _)|..]; lia.
Qed.

Lemma roundHalfEven_le (q q' : Q) : q <= q' -> (roundHalfEven q <= roundHalfEven q')%Z.
Proof.
  intros Hle.
  pose proof (Qfloor_resp_le _ _ Hle) as Hf.
  destruct (Z.eq_dec (Qfloor q) (Qfloor q')) as [Heq|Hne].
  - unfold roundHalfEven. rewrite <- Heq.
    destruct (Qcompare_spec (q - inject_Z (Qfloor q)) (1 # 2)) as [C|C|C],
             (Qcompare_spec (q' - inject_Z (Qfloor q)) (1 # 2)) as [C'|C'|C'];
      try (destruct (Z.even (Qfloor q))); try lia; exfalso; lra.
  - pose proof (roundHalfEven_bounds q). pose proof (roundHalfEven_bounds q'). lia.
Qed.

Lemma roundHalfEven_inject_Z (n : Z) : roundHalfEven (inject_Z n) = n.
Proof.
  unfold roundHalfEven. rewrite Qfloor_Z.
  destruct (Qcompare_spec (inject_Z n - inject_Z n) (1 # 2)) as [C|C|C];
    [exfalso; lra|reflexivity|exfalso; lra].
Qed.

Lemma pow2_pos (e : Z) : 0 < 2 ^ e.
Proof. apply Qpower_0_lt. reflexivity. Qed.

Lemma pow2_add (a b : Z) : 2 ^ (a + b) == 2 ^ a * 2 ^ b.
Proof. apply Qpower_plus. discriminate. Qed.

Lemma pow2_succ (a : Z) : 2 ^ (a + 1) == 2 * 2 ^ a.
Proof. rewrite pow2_add. change (2 ^ 1) with 2. ring. Qed.

Lemma pow2_le (a b : Z) : (a <= b)%Z -> 2 ^ a <= 2 ^ b.
Proof. intros H. apply Qpower_le_compat_l; [exact H|discriminate]. Qed.

Lemma pow2_lt_inv (a b : Z) : 2 ^ a < 2 ^ b -> (a < b)%Z.
Proof. intros H. apply (Qpower_lt_compat_l_inv 2); [exact H|reflexivity]. Qed.

Lemma pow2_inject_Z (a : Z) : (0 <= a)%Z -> inject_Z (2 ^ a) == 2 ^ a.
Proof. intros H. rewrite Zpower_Qpower by exact H. reflexivity. Qed.

(** [Qlog2 x] is the exponent of the binade of a positive [x]. *)
Lemma Qlog2_spec (x : Q) : 0 < x -> 2 ^ Qlog2 x <= x /\ x < 2 ^ (Qlog2 x + 1).
Proof.
  intros Hx. destruct x as [n d].
  assert (0 < n)%Z as Hn by (unfold Qlt in Hx; simpl in Hx; lia).
  unfold Qlog2. cbn [Qnum Qden].
  set (a := Z.log2 n). set (b := Z.log2 (Z.pos d)).
  destruct (Z.log2_spec n Hn) as [Ha1 Ha2]. fold a in Ha1, Ha2.
  destruct (Z.log2_spec (Z.pos d) ltac:(lia)) as [Hb1 Hb2]. fold b in Hb1, Hb2.
  assert (0 <= a)%Z as Ha0 by apply Z.log2_nonneg.
  assert (0 <= b)%Z as Hb0 by apply Z.log2_nonneg.
  rewrite <- Z.add_1_r in Ha2, Hb2.
  assert (n # d == inject_Z n / inject_Z (Z.pos d)) as Hq by apply Qmake_Qdiv.
  assert (0 < inject_Z (Z.pos d)) as Hd by (unfold Qlt; simpl; lia).
  rewrite Zle_Qle, pow2_inject_Z in Ha1, Hb1 by assumption.
  rewrite Zlt_Qlt, pow2_inject_Z, pow2_succ in Ha2, Hb2 by lia.
  pose proof (pow2_pos a) as Pa. pose proof (pow2_pos b) as Pb.
  assert (2 ^ (a - b) == 2 ^ a / 2 ^ b) as Hab
    by (apply Qpower_minus; discriminate).
  destruct (Qle_bool (2 ^ (a - b)) (n # d)) eqn:E.
  - apply Qle_bool_iff in E. split; [exact E|].
    rewrite pow2_succ, Hab, Hq.
    apply Qlt_shift_div_r; [exact Hd|].
    assert (2 * (2 ^ a / 2 ^ b) * inject_Z (Z.pos d)
            == 2 * 2 ^ a * (inject_Z (Z.pos d) / 2 ^ b)) as -> by (field; lra).
    assert (1 <= inject_Z (Z.pos d) / 2 ^ b) as H1
      by (apply Qle_shift_div_l; [exact Pb|lra]).
    nra.
  - assert (n # d < 2 ^ (a - b)) as E'.
    { apply Qnot_le_lt. intros H. apply Qle_bool_iff in H. congruence. }
    replace (a - b - 1 + 1)%Z with (a - b)%Z by lia.
    split; [|exact E'].
    assert (2 ^ (a - b) == 2 * 2 ^ (a - b - 1)) as Hs
      by (rewrite <- pow2_succ; replace (a - b - 1 + 1)%Z with (a - b)%Z by lia;
          reflexivity).
    assert (2 ^ (a - b - 1) == 2 ^ a / (2 * 2 ^ b)) as ->.
    { assert (2 ^ (a - b - 1) == 2 ^ (a - b) / 2) as -> by (rewrite Hs; field).
      rewrite Hab. field. lra. }
    rewrite Hq. apply Qle_shift_div_r; [lra|].
    assert (inject_Z n / inject_Z (Z.pos d) * (2 * 2 ^ b)
            == inject_Z n * ((2 * 2 ^ b) / inject_Z (Z.pos d))) as -> by (field; lra).
    assert (1 <= 2 * 2 ^ b / inject_Z (Z.pos d)) as H1
      by (apply Qle_shift_div_l; [exact Hd|lra]).
    nra.
Qed.

Lemma Qlog2_le (x y : Q) : 0 < x -> x <= y -> (Qlog2 x <= Qlog2 y)%Z.
Proof.
  intros Hx Hxy.
  destruct (Qlog2_spec x Hx) as [Hx1 _].
  destruct (Qlog2_spec y ltac:(lra)) as [_ Hy2].
  assert (2 ^ Qlog2 x < 2 ^ (Qlog2 y + 1)) as H by lra.
  apply pow2_lt_inv in H. lia.
Qed.

Lemma Qlog2_inject_Z (n : Z) : (0 < n)%Z -> Qlog2 (inject_Z n) = Z.log2 n.
Proof.
  intros Hn.
  destruct (Z.log2_spec n Hn) as [H _].
  rewrite Zle_Qle, pow2_inject_Z in H by apply Z.log2_nonneg.
  apply Qle_bool_iff in H. unfold Qlog2. cbn [Qnum Qden inject_Z] in *.
  change (Z.log2 1) with 0%Z. rewrite Z.sub_0_r. rewrite H. reflexivity.
Qed.

(** Rounding to a multiple of [2 ^ e] is monotone and fixes the multiples. *)
Lemma roundAt_le (e : Z) (x y : Q) :
  x <= y ->
  inject_Z (roundHalfEven (x / 2 ^ e)) * 2 ^ e
  <= inject_Z (roundHalfEven (y / 2 ^ e)) * 2 ^ e.
Proof.
  intros H. pose proof (pow2_pos e) as P.
  apply Qmult_le_compat_r; [|lra].
  rewrite <- Zle_Qle. apply roundHalfEven_le.
  apply Qmult_le_compat_r; [exact H|].
  apply Qlt_le_weak, Qinv_lt_0_compat, P.
Qed.

Lemma roundAt_multiple (e : Z) (m : Z) :
  inject_Z (roundHalfEven (inject_Z m * 2 ^ e / 2 ^ e)) * 2 ^ e == inject_Z m * 2 ^ e.
Proof.
  pose proof (pow2_pos e) as P.
  assert (inject_Z m * 2 ^ e / 2 ^ e == inject_Z m) as H by (field; lra).
  assert (roundHalfEven (inject_Z m * 2 ^ e / 2 ^ e) = m) as ->; [|reflexivity].
  rewrite <- (roundHalfEven_inject_Z m) at 2.
  apply Z.le_antisymm; apply roundHalfEven_le; rewrite H; apply Qle_refl.
Qed.

Lemma roundAt_pow2 (e k : Z) :
  (e <= k)%Z ->
  inject_Z (roundHalfEven (2 ^ k / 2 ^ e)) * 2 ^ e == 2 ^ k.
Proof.
  intros H.
  assert (2 ^ k == inject_Z (2 ^ (k - e)) * 2 ^ e) as Hk.
  { rewrite pow2_inject_Z by lia. rewrite <- pow2_add.
    replace (k - e + e)%Z with k by lia. reflexivity. }
  pose proof (pow2_pos e) as P.
  assert (roundHalfEven (2 ^ k / 2 ^ e)
          = roundHalfEven (inject_Z (2 ^ (k - e)) * 2 ^ e / 2 ^ e)) as ->
    by (apply Z.le_antisymm; apply roundHalfEven_le; rewrite Hk; apply Qle_refl).
  apply Qeq_trans with (inject_Z (2 ^ (k - e)) * 2 ^ e);
    [apply roundAt_multiple|symmetry; exact Hk].
Qed.

Lemma ulpExponent_binade (x : Q) :
  0 < x -> x < 2 ^ (ulpExponent x + 53)
  /\ ((-1074 < ulpExponent x)%Z -> 2 ^ (ulpExponent x + 52) <= x).
Proof.
  intros Hx. destruct (Qlog2_spec x Hx) as [H1 H2]. unfold ulpExponent. split.
  - apply Qlt_le_trans with (1 := H2). apply pow2_le. lia.
  - intros H. replace (Z.max (Qlog2 x - 52) (-1074) + 52)%Z with (Qlog2 x) by lia.
    exact H1.
Qed.

Lemma roundPositive_nonneg (x : Q) : 0 < x -> 0 <= roundPositive x.
Proof.
  intros Hx. unfold roundPositive. pose proof (pow2_pos (ulpExponent x)) as P.
  apply Qmult_le_0_compat; [|lra].
  change 0 with (inject_Z 0). rewrite <- Zle_Qle.
  rewrite <- (roundHalfEven_inject_Z 0) at 1. apply roundHalfEven_le.
  apply Qle_shift_div_l; [exact P|]. change (inject_Z 0) with 0. lra.
Qed.

Lemma roundPositive_le (x y : Q) :
  0 < x -> x <= y -> roundPositive x <= roundPositive y.
Proof.
  intros Hx Hxy. assert (0 < y) as Hy by lra.
  assert (ulpExponent x <= ulpExponent y)%Z as He
    by (pose proof (Qlog2_le x y Hx Hxy); unfold ulpExponent; lia).
  unfold roundPositive.
  destruct (Z.eq_dec (ulpExponent x) (ulpExponent y)) as [Heq|Hne].
  - rewrite Heq. apply roundAt_le, Hxy.
  - destruct (ulpExponent_binade x Hx) as [Hxu _].
    destruct (ulpExponent_binade y Hy) as [_ Hyl].
    assert (-1074 <= ulpExponent x)%Z by (unfold ulpExponent; lia).
    specialize (Hyl ltac:(lia)).
    apply Qle_trans with (2 ^ (ulpExponent x + 53)).
    + rewrite <- (roundAt_pow2 (ulpExponent x) (ulpExponent x + 53)) by lia.
      apply roundAt_le. lra.
    + apply Qle_trans with (2 ^ (ulpExponent y + 52)); [apply pow2_le; lia|].
      rewrite <- (roundAt_pow2 (ulpExponent y) (ulpExponent y + 52)) at 1 by lia.
      apply roundAt_le, Hyl.
Qed.

Lemma round64_eq (x : Q) :
  round64 x == match Qcompare x 0 with
               | Eq => 0
               | Gt => roundPositive x
               | Lt => - roundPositive (- x)
               end.
Proof. unfold round64. apply Qred_correct. Qed.

(** Rounding is monotone. *)
Lemma round64_le (x y : Q) : x <= y -> round64 x <= round64 y.
Proof.
  intros Hxy. rewrite !round64_eq.
  destruct (Qcompare_spec x 0) as [Hx|Hx|Hx], (Qcompare_spec y 0) as [Hy|Hy|Hy];
    try (exfalso; lra); try apply Qle_refl.
  - apply roundPositive_nonneg, Hy.
  - pose proof (roundPositive_nonneg (- x) ltac:(lra)). lra.
  - pose proof (roundPositive_le (- y) (- x) ltac:(lra) ltac:(lra)). lra.
  - pose proof (roundPositive_nonneg (- x) ltac:(lra)).
    pose proof (roundPositive_nonneg y Hy). lra.
  - apply roundPositive_le; assumption.
Qed.

(** Equal rationals round to the same fraction. *)
Lemma round64_wd (x y : Q) : x == y -> round64 x = round64 y.
Proof.
  intros H.
  assert (round64 x == round64 y) as Heq
    by (apply Qle_antisym; apply round64_le; rewrite H; apply Qle_refl).
  unfold round64 in *. apply Qred_complete.
  rewrite !Qred_correct in Heq. exact Heq.
Qed.

Lemma round64_0 : round64 0 = 0.
Proof. reflexivity. Qed.

Lemma round64_nonneg (x : Q) : 0 <= x -> 0 <= round64 x.
Proof. intros H. rewrite <- round64_0. apply round64_le, H. Qed.

Lemma round64_nonpos (x : Q) : x <= 0 -> round64 x <= 0.
Proof. intros H. rewrite <- round64_0. apply round64_le, H. Qed.

(** Integers of at most 53 bits are doubles. *)
Lemma roundPositive_inject_Z (n : Z) :
  (0 < n <= 2 ^ 53)%Z -> roundPositive (inject_Z n) == inject_Z n.
Proof.
  intros [Hn Hmax]. unfold roundPositive, ulpExponent.
  rewrite Qlog2_inject_Z by exact Hn.
  assert (0 <= Z.log2 n <= 53)%Z as Hlog.
  { split; [apply Z.log2_nonneg|].
    change 53%Z with (Z.log2 (2 ^ 53)). apply Z.log2_le_mono, Hmax. }
  replace (Z.max (Z.log2 n - 52) (-1074)) with (Z.log2 n - 52)%Z by lia.
  set (e := (Z.log2 n - 52)%Z).
  destruct (Z.le_gt_cases e 0) as [He|He].
  - assert (inject_Z n == inject_Z (n * 2 ^ (- e)) * 2 ^ e) as Hm.
    { rewrite inject_Z_mult, pow2_inject_Z by lia.
      rewrite <- Qmult_assoc, <- pow2_add.
      replace (- e + e)%Z with 0%Z by lia. change (2 ^ 0) with 1. ring. }
    assert (roundHalfEven (inject_Z n / 2 ^ e)
            = roundHalfEven (inject_Z (n * 2 ^ (- e)) * 2 ^ e / 2 ^ e)) as ->
      by (apply Z.le_antisymm; apply roundHalfEven_le; rewrite <- Hm; apply Qle_refl).
    apply Qeq_trans with (inject_Z (n * 2 ^ (- e)) * 2 ^ e);
      [apply roundAt_multiple|symmetry; exact Hm].
  - subst e. assert (Z.log2 n = 53)%Z as Hl by lia.
    assert (n = 2 ^ 53)%Z as ->.
    { destruct (Z.log2_spec n Hn) as [H _]. rewrite Hl in H. lia. }
    vm_compute. reflexivity.
Qed.

Lemma round64_inject_Z (n : Z) :
  (- 2 ^ 53 <= n <= 2 ^ 53)%Z -> round64 (inject_Z n) == inject_Z n.
Proof.
  intros Hn. rewrite round64_eq.
  destruct (Qcompare_spec (inject_Z n) 0) as [H|H|H].
  - symmetry. exact H.
  - assert (n < 0)%Z as Hneg by (rewrite Zlt_Qlt; exact H).
    rewrite <- inject_Z_opp, roundPositive_inject_Z by lia.
    rewrite inject_Z_opp. ring.
  - assert (0 < n)%Z as Hpos by (rewrite Zlt_Qlt; exact H).
    apply roundPositive_inject_Z. lia.
Qed.

(** A value between two doubles rounds to a value between them. *)
Lemma round64_between (a b x : Q) :
  round64 a == a -> round64 b == b -> a <= x <= b -> a <= round64 x <= b.
Proof.
  intros Ha Hb [H1 H2]. split.
  - rewrite <- Ha. apply round64_le, H1.
  - rewrite <- Hb. apply round64_le, H2.
Qed.

Lemma Qlog2_unique (x : Q) (k : Z) :
  2 ^ k <= x -> x < 2 ^ (k + 1) -> Qlog2 x = k.
Proof.
  intros H1 H2. pose proof (pow2_pos k) as P.
  destruct (Qlog2_spec x ltac:(lra)) as [L1 L2].
  assert (2 ^ k < 2 ^ (Qlog2 x + 1)) as A by lra.
  assert (2 ^ Qlog2 x < 2 ^ (k + 1)) as B by lra.
  apply pow2_lt_inv in A, B. lia.
Qed.

(** A multiple of [2 ^ e] with at most 53 bits is a double. *)
Lemma roundPositive_representable (m e : Z) :
  (0 < m <= 2 ^ 53)%Z -> (-1074 <= e)%Z ->
  roundPositive (inject_Z m * 2 ^ e) == inject_Z m * 2 ^ e.
Proof.
  intros [Hm Hmax] He. pose proof (pow2_pos e) as P.
  assert (0 <= Z.log2 m <= 53)%Z as Hlog.
  { split; [apply Z.log2_nonneg|].
    change 53%Z with (Z.log2 (2 ^ 53)). apply Z.log2_le_mono, Hmax. }
  destruct (Z.log2_spec m Hm) as [L1 L2]. rewrite <- Z.add_1_r in L2.
  rewrite Zle_Qle, pow2_inject_Z in L1 by lia.
  rewrite Zlt_Qlt, pow2_inject_Z in L2 by lia.
  assert (Qlog2 (inject_Z m * 2 ^ e) = Z.log2 m + e)%Z as Hk.
  { apply Qlog2_unique.
    - rewrite pow2_add. apply Qmult_le_compat_r; [exact L1|lra].
    - replace (Z.log2 m + e + 1)%Z with (Z.log2 m + 1 + e)%Z by lia.
      rewrite pow2_add. apply Qmult_lt_compat_r; assumption. }
  unfold roundPositive, ulpExponent. rewrite Hk.
  destruct (Z.eq_dec (Z.log2 m) 53%Z) as [H53|H53].
  - assert (m = 2 ^ 53)%Z as -> by (rewrite H53 in L1; rewrite <- pow2_inject_Z, <- Zle_Qle in L1 by lia; lia).
    replace (Z.max (Z.log2 (2 ^ 53) + e - 52) (-1074)) with (e + 1)%Z
      by (change (Z.log2 (2 ^ 53)) with 53%Z; lia).
    assert (inject_Z (2 ^ 53) * 2 ^ e == 2 ^ (53 + e)) as Hp
      by (rewrite pow2_add, pow2_inject_Z by lia; reflexivity).
    assert (roundHalfEven (inject_Z (2 ^ 53) * 2 ^ e / 2 ^ (e + 1))
            = roundHalfEven (2 ^ (53 + e) / 2 ^ (e + 1))) as ->
      by (apply Z.le_antisymm; apply roundHalfEven_le; rewrite Hp; apply Qle_refl).
    rewrite roundAt_pow2 by lia. symmetry. exact Hp.
  - set (ey := Z.max (Z.log2 m + e - 52) (-1074)).
    assert (ey <= e)%Z as Hey by (unfold ey; lia).
    assert (inject_Z m * 2 ^ e == inject_Z (m * 2 ^ (e - ey)) * 2 ^ ey) as Hm'.
    { rewrite inject_Z_mult, pow2_inject_Z by lia.
      rewrite <- Qmult_assoc, <- pow2_add.
      replace (e - ey + ey)%Z with e by lia. reflexivity. }
    assert (roundHalfEven (inject_Z m * 2 ^ e / 2 ^ ey)
            = roundHalfEven (inject_Z (m * 2 ^ (e - ey)) * 2 ^ ey / 2 ^ ey)) as ->
      by (apply Z.le_antisymm; apply roundHalfEven_le; rewrite <- Hm'; apply Qle_refl).
    rewrite roundAt_multiple. symmetry. exact Hm'.
Qed.

(** What [roundPositive] returns is such a multiple. *)
Lemma roundPositive_shape (x : Q) :
  0 < x ->
  exists m e, (0 <= m <= 2 ^ 53)%Z /\ (-1074 <= e)%Z
    /\ roundPositive x = inject_Z m * 2 ^ e.
Proof.
  intros Hx. exists (roundHalfEven (x / 2 ^ ulpExponent x)), (ulpExponent x).
  pose proof (pow2_pos (ulpExponent x)) as P.
  destruct (ulpExponent_binade x Hx) as [Hu _].
  split; [|split; [unfold ulpExponent; lia|reflexivity]]. split.
  - rewrite <- (roundHalfEven_inject_Z 0) at 1. apply roundHalfEven_le.
    apply Qle_shift_div_l; [exact P|]. change (inject_Z 0) with 0. lra.
  - rewrite <- (roundHalfEven_inject_Z (2 ^ 53)). apply roundHalfEven_le.
    apply Qle_shift_div_r; [exact P|].
    rewrite pow2_inject_Z, <- pow2_add by lia.
    replace (53 + ulpExponent x)%Z with (ulpExponent x + 53)%Z by lia. lra.
Qed.

(** A double rounds to itself. *)
Lemma round64_idempotent (x : Q) : round64 (round64 x) = round64 x.
Proof.
  assert (forall y, 0 < y -> round64 (roundPositive y) == roundPositive y) as Hpos.
  { intros y Hy. destruct (roundPositive_shape y Hy) as (m & e & [Hm0 Hm] & He & ->).
    pose proof (pow2_pos e) as P.
    destruct (Z.eq_dec m 0%Z) as [->|Hne].
    - rewrite (round64_wd _ 0) by ring. rewrite round64_0. ring.
    - assert (0 < inject_Z m * 2 ^ e) as Hgt.
      { apply Qmult_lt_0_compat; [|exact P].
        change 0 with (inject_Z 0). rewrite <- Zlt_Qlt. lia. }
      rewrite round64_eq.
      destruct (Qcompare_spec (inject_Z m * 2 ^ e) 0) as [H|H|H]; try (exfalso; lra).
      apply roundPositive_representable; [lia|exact He]. }
  assert (forall y, 0 < y -> round64 (- roundPositive y) == - roundPositive y) as Hneg.
  { intros y Hy. pose proof (roundPositive_nonneg y Hy) as Hn.
    destruct (Qeq_dec (roundPositive y) 0) as [H0|H0].
    - rewrite (round64_wd _ 0) by (rewrite H0; ring). rewrite round64_0, H0. ring.
    - rewrite round64_eq.
      destruct (Qcompare_spec (- roundPositive y) 0) as [H|H|H]; try (exfalso; lra).
      assert (- - roundPositive y = roundPositive y) as ->
        by (destruct (roundPositive y) as [n d]; unfold Qopp; cbn [Qnum Qden];
            rewrite Z.opp_involutive; reflexivity).
      pose proof (Hpos y Hy) as Hp. rewrite round64_eq in Hp.
      destruct (Qcompare_spec (roundPositive y) 0) as [H'|H'|H'];
        try (exfalso; lra).
      rewrite Hp. reflexivity. }
  assert (round64 (round64 x) == round64 x) as Heq.
  { rewrite (round64_eq x) at 2.
    rewrite (round64_wd (round64 x) _ (round64_eq x)).
    destruct (Qcompare_spec x 0) as [H|H|H].
    - reflexivity.
    - apply Hneg. lra.
    - apply Hpos, H. }
  unfold round64 at 1 3. apply Qred_complete.
  unfold round64 at 1 in Heq. rewrite Qred_correct in Heq.
  rewrite Heq. unfold round64. rewrite Qred_correct. reflexivity.
Qed.

Lemma fadd_0_l (x : Q) : 0 ⊕ round64 x = round64 x.
Proof.
  unfold fadd. rewrite (round64_wd _ (round64 x)) by ring.
  apply round64_idempotent.
Qed.

(** *** Comparisons and clamps *)

Lemma Qltb_lt (x y : Q) : Qltb x y = true <-> x < y.
Proof.
  unfold Qltb. rewrite negb_true_iff. split.
  - intros H. apply Qnot_le_lt. intros Hle.
    apply Qle_bool_iff in Hle. congruence.
  - intros H. destruct (Qle_bool y x) eqn:E; [|reflexivity].
    apply Qle_bool_iff in E. exfalso. exact (Qlt_not_le _ _ H E).
Qed.

Lemma Qltb_ge (x y : Q) : Qltb x y = false <-> y <= x.
Proof.
  unfold Qltb. rewrite negb_false_iff. apply Qle_bool_iff.
Qed.

Lemma Math_max_lb_r (x y : Q) : y <= Math_max x y.
Proof.
  unfold Math_max. destruct (Qltb x y) eqn:E.
  - apply Qle_refl.
  - apply Qltb_ge in E. exact E.
Qed.

Lemma Math_max_ub (x y z : Q) : x <= z -> y <= z -> Math_max x y <= z.
Proof. unfold Math_max. destruct (Qltb x y); auto. Qed.

Lemma Math_min_ub_r (x y : Q) : Math_min x y <= y.
Proof.
  unfold Math_min. destruct (Qltb y x) eqn:E.
  - apply Qle_refl.
  - apply Qltb_ge in E. exact E.
Qed.

Lemma Math_min_lb (x y z : Q) : z <= x -> z <= y -> z <= Math_min x y.
Proof. unfold Math_min. destruct (Qltb y x); auto. Qed.

(** [clamp(v, 0, 1)] as the code writes it. *)
Lemma clamp01_bounds (v : Q) :
  0 <= Math_min (Math_max v 0) 1 /\ Math_min (Math_max v 0) 1 <= 1.
Proof.
  split.
  - apply Math_min_lb; [apply Math_max_lb_r | discriminate].
  - apply Math_min_ub_r.
Qed.


(** ** Loops *)

Lemma fold_left_map {A B C} (f : A -> B -> A) (g : C -> B) (l : list C) (a : A) :
  fold_left f (map g l) a = fold_left (fun a x => f a (g x)) l a.
Proof. revert a. induction l as [|x l IH]; intros a; simpl; [reflexivity|apply IH]. Qed.

(** A property that every iteration preserves holds when the loop ends. *)
Lemma fold_left_invariant {S X} (P : S -> Prop) (f : S -> X -> S) (l : list X) (s : S) :
  P s -> (forall s x, In x l -> P s -> P (f s x)) -> P (fold_left f l s).
Proof.
  revert s. induction l as [|x l IH]; intros s Hs Hstep; simpl; [exact Hs|].
  apply IH.
  - apply Hstep; [left; reflexivity|exact Hs].
  - intros s' x' Hin. apply Hstep. right. exact Hin.
Qed.

(** A counting loop adds its count to whatever the counter started at. *)
Lemma fold_left_count_acc {B} (p : B -> bool) (l : list B) (acc : nat) :
  fold_left (fun d i => if p i then S d else d) l acc
  = (acc + fold_left (fun d i => if p i then S d else d) l 0)%nat.
Proof.
  revert acc. induction l as [|x l IH]; intros acc; simpl.
  - lia.
  - rewrite (IH (if p x then S acc else acc)), (IH (if p x then 1%nat else 0%nat)).
    destruct (p x); lia.
Qed.

(** ** Strings *)

Lemma append_cons (c : ascii) (a b : string) :
  (String c a ++ b)%string = String c (a ++ b)%string.
Proof. reflexivity. Qed.

Lemma prefix_app (sub s : string) :
  String.prefix sub s = true <-> exists post, s = (sub ++ post)%string.
Proof.
  revert s. induction sub as [|c sub IH]; intros s.
  - split; [intros _; exists s; reflexivity|intros _; destruct s; reflexivity].
  - destruct s as [|c' s].
    + split; [discriminate|intros [post H]; discriminate].
    + change (String.prefix (String c sub) (String c' s))
        with (if ascii_dec c c' then String.prefix sub s else false).
      destruct (ascii_dec c c') as [->|Hne].
      * rewrite IH. split; intros [post H]; exists post.
        -- rewrite append_cons. congruence.
        -- rewrite append_cons in H. congruence.
      * split; [discriminate|].
        intros [post H]. rewrite append_cons in H. congruence.
Qed.

(** [includes] is the substring test. *)
Lemma includes_spec (s sub : string) :
  includes s sub = true <-> exists pre post, s = (pre ++ sub ++ post)%string.
Proof.
  induction s as [|c s IH]; cbn [includes].
  - rewrite orb_false_r, prefix_app. split.
    + intros [post H]. exists ""%string, post. exact H.
    + intros (pre & post & H). destruct pre as [|c' pre].
      * exists post. exact H.
      * rewrite append_cons in H. discriminate.
  - rewrite orb_true_iff, prefix_app, IH. split.
    + intros [[post H]|(pre & post & H)].
      * exists ""%string, post. exact H.
      * exists (String c pre), post. rewrite append_cons. congruence.
    + intros (pre & post & H). destruct pre as [|c' pre].
      * left. exists post. exact H.
      * right. exists pre, post. rewrite append_cons in H. congruence.
Qed.

(** [toLowerCase] identifies exactly the characters that differ at most in
    letter case (checked on all pairs of characters). *)
Lemma sameLetter_table :
  forallb (fun m =>
    forallb (fun n =>
      Bool.eqb (sameLetter (ascii_of_nat m) (ascii_of_nat n))
               (Ascii.eqb (lowerChar (ascii_of_nat m)) (lowerChar (ascii_of_nat n))))
      (seq 0 256))
    (seq 0 256) = true.
Proof. vm_compute. reflexivity. Qed.

Lemma sameLetter_lowerChar (a b : ascii) :
  sameLetter a b = Ascii.eqb (lowerChar a) (lowerChar b).
Proof.
  pose proof sameLetter_table as T.
  rewrite forallb_forall in T.
  specialize (T (nat_of_ascii a)). rewrite forallb_forall in T.
  specialize (T ltac:(apply in_seq; pose proof (nat_ascii_bounded a); lia)
                (nat_of_ascii b)
                ltac:(apply in_seq; pose proof (nat_ascii_bounded b); lia)).
  rewrite !ascii_nat_embedding in T.
  apply Bool.eqb_prop, T.
Qed.

Lemma prefixIgnoringCase_lower (sub s : string) :
  prefixIgnoringCase sub s = String.prefix (toLowerCase sub) (toLowerCase s).
Proof.
  revert s. induction sub as [|a sub IH]; intros s.
  - destruct s; reflexivity.
  - destruct s as [|b s]; [reflexivity|].
    cbn [prefixIgnoringCase toLowerCase].
    change (String.prefix (String (lowerChar a) (toLowerCase sub))
                          (String (lowerChar b) (toLowerCase s)))
      with (if ascii_dec (lowerChar a) (lowerChar b)
            then String.prefix (toLowerCase sub) (toLowerCase s) else false).
    rewrite sameLetter_lowerChar, IH.
    destruct (Ascii.eqb_spec (lowerChar a) (lowerChar b)) as [E|E];
      destruct (ascii_dec (lowerChar a) (lowerChar b)) as [E'|E'];
      try reflexivity; contradiction.
Qed.

Lemma includesIgnoringCase_lower (s sub : string) :
  includesIgnoringCase s sub = includes (toLowerCase s) (toLowerCase sub).
Proof.
  induction s as [|c s IH]; cbn [includesIgnoringCase toLowerCase includes].
  - rewrite prefixIgnoringCase_lower. reflexivity.
  - rewrite prefixIgnoringCase_lower, IH. reflexivity.
Qed.

(** The screenshot rule on the lower-cased name, as the code has it, is the
    case-insensitive search of the name itself. *)
Lemma screenshot_rule_case_insensitive (name : string) :
  includes (toLowerCase name) "screenshot"
    || includes (toLowerCase name) "screen_recording"
  = includesIgnoringCase name "screenshot"
    || includesIgnoringCase name "screen_recording".
Proof. rewrite !includesIgnoringCase_lower. reflexivity. Qed.

(** ** Reads stay inside the pixel buffer *)

Lemma length_flat_map_block {A} (f : nat -> list A) (k n a : nat) :
  (forall y, length (f y) = k) -> length (flat_map f (seq a n)) = (n * k)%nat.
Proof.
  intros Hk. revert a. induction n as [|n IH]; intros a; simpl; [reflexivity|].
  rewrite length_app, Hk, IH. lia.
Qed.

Lemma nth_flat_map_block {A} (f : nat -> list A) (k n m a j : nat) (d : A) :
  (forall y, length (f y) = k) -> (m < n)%nat -> (j < k)%nat ->
  nth (m * k + j) (flat_map f (seq a n)) d = nth j (f (a + m)%nat) d.
Proof.
  intros Hk. revert a m. induction n as [|n IH]; intros a m Hm Hj; [lia|].
  simpl. destruct m as [|m].
  - rewrite Nat.add_0_r. simpl. apply app_nth1. rewrite Hk. exact Hj.
  - rewrite app_nth2 by (rewrite Hk; simpl; lia).
    rewrite Hk. replace (S m * k + j - k)%nat with (m * k + j)%nat by (simpl; lia).
    rewrite IH by lia. f_equal. f_equal. lia.
Qed.

Lemma getImageData_in_range (ctx : CanvasRenderingContext2D) (sw sh : nat)
    (data : list Z) :
  getImageData ctx sw sh = Normal data ->
  (1 <= Z.of_nat sw <= 2147483647)%Z /\ (1 <= Z.of_nat sh <= 2147483647)%Z.
Proof.
  unfold getImageData.
  destruct ((2147483647 <? Z.of_nat sw) || (2147483647 <? Z.of_nat sh))%Z eqn:E;
    [discriminate|].
  destruct ((sw =? 0) || (sh =? 0))%nat eqn:E0; [discriminate|]. intros _.
  apply orb_false_iff in E, E0. destruct E as [E1 E2], E0 as [E3 E4].
  apply Z.ltb_ge in E1, E2. apply Nat.eqb_neq in E3, E4. lia.
Qed.

Lemma getImageData_length (ctx : CanvasRenderingContext2D) (sw sh : nat) (data : list Z) :
  getImageData ctx sw sh = Normal data -> length data = (4 * sw * sh)%nat.
Proof.
  unfold getImageData. destruct (_ || _)%Z; [discriminate|].
  destruct (_ || _); [discriminate|].
  intros H. injection H as <-.
  rewrite (length_flat_map_block _ (sw * 4)%nat); [lia|].
  intros y. apply length_flat_map_block. intros x. reflexivity.
Qed.

(** The buffer is row-major RGBA: channel [c] of the pixel at column [x],
    row [y] sits at index [(y * sw + x) * 4 + c]. *)
Lemma getImageData_nth (ctx : CanvasRenderingContext2D) (sw sh : nat) (data : list Z)
    (x y c : nat) :
  getImageData ctx sw sh = Normal data ->
  (x < sw)%nat -> (y < sh)%nat -> (c < 4)%nat ->
  nth ((y * sw + x) * 4 + c) data 0%Z
  = if ((x <? canvas_width ctx) && (y <? canvas_height ctx))%nat
    then bitmap ctx x y c else 0%Z.
Proof.
  unfold getImageData. destruct (_ || _)%Z; [discriminate|].
  destruct (_ || _); [discriminate|].
  intros H Hx Hy Hc. injection H as <-.
  replace ((y * sw + x) * 4 + c)%nat with (y * (sw * 4) + (x * 4 + c))%nat by lia.
  rewrite (nth_flat_map_block _ (sw * 4)%nat);
    [|intros y'; apply length_flat_map_block; intros x'; reflexivity|exact Hy|lia].
  rewrite (nth_flat_map_block _ 4%nat); [|intros; reflexivity|exact Hx|exact Hc].
  simpl.
  destruct c as [|[|[|[|c]]]]; try reflexivity. lia.
Qed.

Lemma steps_spec (stop step i : nat) :
  (0 < step)%nat ->
  In i (steps stop step) -> (i < stop)%nat /\ exists k, i = (k * step)%nat.
Proof.
  intros Hstep Hin. unfold steps in Hin.
  apply in_map_iff in Hin. destruct Hin as (k & <- & Hk).
  apply in_seq in Hk. split; [|exists k; reflexivity].
  destruct Hk as [_ Hk]. simpl in Hk.
  assert ((stop + step - 1) / step * step <= stop + step - 1)%nat
    by (rewrite Nat.mul_comm; apply Nat.Div0.mul_div_le).
  nia.
Qed.

(** In [calculateSharpness], a sampled pair that passes the guard
    [i + 4 < data.length] reads indices up to [i + 6], all in range. *)
Lemma calculateSharpness_reads_in_range (data : list Z) (n i : nat) :
  length data = (4 * n)%nat ->
  In i (steps (length data) 16) -> (i + 4 < length data)%nat ->
  (i + 6 < length data)%nat.
Proof.
  intros Hlen Hin Hguard.
  destruct (steps_spec _ 16 i ltac:(lia) Hin) as [_ [k ->]]. lia.
Qed.

(** In [calculateExposureScore] every pixel read is in range. *)
Lemma calculateExposureScore_reads_in_range (data : list Z) (n i : nat) :
  length data = (4 * n)%nat ->
  In i (steps (length data) 4) -> (i + 2 < length data)%nat.
Proof.
  intros Hlen Hin.
  destruct (steps_spec _ 4 i ltac:(lia) Hin) as [Hi [k ->]]. lia.
Qed.

(** In [computeDHash] the right-hand pixel of the last comparison is the
    last pixel of the 9 x 8 grid. *)
Lemma computeDHash_reads_in_range (x y : nat) :
  (x < 8)%nat -> (y < 8)%nat -> ((y * 9 + x + 1) * 4 + 2 < 4 * 9 * 8)%nat.
Proof. lia. Qed.

(** ** Sharpness of simple pictures *)

Lemma fadd_inject_Z (a b : Z) :
  (- 2 ^ 53 <= a + b <= 2 ^ 53)%Z -> inject_Z a ⊕ inject_Z b == inject_Z (a + b).
Proof.
  intros H. unfold fadd. rewrite <- inject_Z_plus. apply round64_inject_Z, H.
Qed.

Lemma round64_255 : round64 255 == 255.
Proof. vm_compute. reflexivity. Qed.

(** The grey value of three bytes lies between 0 and 255. *)
Lemma grey_bounds (a b c : Z) :
  (0 <= a <= 255)%Z -> (0 <= b <= 255)%Z -> (0 <= c <= 255)%Z ->
  0 <= grey (inject_Z a) (inject_Z b) (inject_Z c) <= 255.
Proof.
  intros Ha Hb Hc. unfold grey, fdiv.
  assert (inject_Z a ⊕ inject_Z b ⊕ inject_Z c == inject_Z (a + b + c)) as Hsum.
  { unfold fadd at 1. rewrite (round64_wd _ (inject_Z (a + b) + inject_Z c)).
    - rewrite <- inject_Z_plus. apply round64_inject_Z. lia.
    - rewrite fadd_inject_Z by lia. reflexivity. }
  rewrite (round64_wd _ (inject_Z (a + b + c) / 3)) by (rewrite Hsum; reflexivity).
  apply (round64_between 0 255); [reflexivity|apply round64_255|].
  assert (0 <= inject_Z (a + b + c) <= 765) as [H0 H1].
  { change 0 with (inject_Z 0). change 765 with (inject_Z 765).
    rewrite <- !Zle_Qle. lia. }
  split.
  - apply Qle_shift_div_l; [reflexivity|]. lra.
  - apply Qle_shift_div_r; [reflexivity|]. lra.
Qed.

(** So the difference of two grey values lies between 0 and 255. *)
Lemma grey_difference_bounds (g g' : Q) :
  0 <= g <= 255 -> 0 <= g' <= 255 -> 0 <= Math_abs (g ⊖ g') <= 255.
Proof.
  intros [? ?] [? ?]. unfold Math_abs. split; [apply Qabs_nonneg|].
  apply Qabs_Qle_condition. unfold fsub.
  apply (round64_between (-255) 255); [vm_compute; reflexivity|apply round64_255|].
  split; lra.
Qed.

Lemma grey_difference_same (g g' : Q) : g == g' -> Math_abs (g ⊖ g') == 0.
Proof.
  intros H. unfold fsub.
  rewrite (round64_wd _ 0) by (rewrite H; ring). reflexivity.
Qed.

(** The loop of [calculateSharpness], with integer bounds [lo] and [hi] on
    what each sampled pair adds: as long as [hi] times the number of pairs
    is below [2 ^ 53] the bounds of the running sum are doubles, so rounding
    keeps the sum between them. *)
Lemma sharpness_loop_bounds (data : list Z) (lo hi : Z) (l : list nat)
    (sum : Q) (count : nat) :
  (0 <= lo <= hi)%Z ->
  (hi * (Z.of_nat count + Z.of_nat (length l)) <= 2 ^ 53)%Z ->
  (forall i, In i l -> (i + 4 < length data)%nat ->
     inject_Z lo <= pairDifference data i <= inject_Z hi) ->
  inject_Z (lo * Z.of_nat count) <= sum <= inject_Z (hi * Z.of_nat count) ->
  let s := fold_left (sharpnessStep data) l (sum, count) in
  (inject_Z (lo * Z.of_nat s.2) <= s.1 <= inject_Z (hi * Z.of_nat s.2))
  /\ (count <= s.2 <= count + length l)%nat.
Proof.
  intros Hlh. revert sum count.
  induction l as [|i l IH]; intros sum count Hmax Hpair Hsum; cbn [fold_left].
  - cbn [fst snd length]. split; [exact Hsum|lia].
  - cbn [length] in Hmax.
    assert (forall j, In j l -> (j + 4 < length data)%nat ->
              inject_Z lo <= pairDifference data j <= inject_Z hi) as Hrest
      by (intros j Hj; apply Hpair; right; exact Hj).
    assert (sharpnessStep data (sum, count) i
            = if (i + 4 <? length data)%nat
              then (sum ⊕ pairDifference data i, (count + 1)%nat)
              else (sum, count)) as -> by reflexivity.
    destruct (i + 4 <? length data)%nat eqn:Hg.
    + apply Nat.ltb_lt in Hg.
      destruct (Hpair i (or_introl eq_refl) Hg) as [Hp1 Hp2].
      destruct Hsum as [Hs1 Hs2].
      destruct (IH (sum ⊕ pairDifference data i) (count + 1)%nat) as [Hb Hc].
      * lia.
      * exact Hrest.
      * rewrite Nat2Z.inj_add. change (Z.of_nat 1) with 1%Z.
        apply round64_between; try (apply round64_inject_Z; nia).
        rewrite !Z.mul_add_distr_l, !Z.mul_1_r, !inject_Z_plus. split; lra.
      * split; [exact Hb|]. cbn [length]. lia.
    + destruct (IH sum count) as [Hb Hc]; [lia|exact Hrest|exact Hsum|].
      split; [exact Hb|]. cbn [length]. lia.
Qed.

Lemma steps_length (stop step : nat) :
  (0 < step)%nat -> (length (steps stop step) <= stop)%nat.
Proof.
  intros Hstep. unfold steps. rewrite length_map, length_seq.
  destruct stop as [|n]; [rewrite Nat.div_small by lia; lia|].
  apply Nat.Div0.div_le_upper_bound. nia.
Qed.

Lemma calculateSharpness_fold (ctx : CanvasRenderingContext2D) (w h : nat)
    (data : list Z) :
  getImageData ctx w h = Normal data ->
  calculateSharpness ctx w h
  = let s := fold_left (sharpnessStep data) (steps (length data) 16) (0, 0%nat) in
    if (0 <? s.2)%nat then s.1 ⊘ inject_Z (Z.of_nat s.2) else 0.
Proof.
  intros Hdata. unfold calculateSharpness, sharpnessStep, pairDifference, grey.
  rewrite Hdata. cbv zeta.
  destruct (fold_left _ _ _) as [sum count]. reflexivity.
Qed.

(** When every sampled pair adds between [lo] and [hi], the raw sharpness
    lies between [lo] and [hi]. *)
Lemma calculateSharpness_between (ctx : CanvasRenderingContext2D) (w h : nat)
    (data : list Z) (lo hi : Z) :
  getImageData ctx w h = Normal data -> (16 <= length data)%nat ->
  (0 <= lo <= hi)%Z -> (hi * Z.of_nat (length data) <= 2 ^ 53)%Z ->
  (forall i, In i (steps (length data) 16) -> (i + 4 < length data)%nat ->
     inject_Z lo <= pairDifference data i <= inject_Z hi) ->
  inject_Z lo <= calculateSharpness ctx w h <= inject_Z hi.
Proof.
  intros Hdata Hlen Hlh Hmax Hpair.
  rewrite (calculateSharpness_fold _ _ _ _ Hdata).
  pose proof (steps_length (length data) 16 ltac:(lia)) as Hn.
  assert (exists tail, steps (length data) 16 = 0%nat :: tail) as [tail Hsteps].
  { unfold steps. destruct ((length data + 16 - 1) / 16)%nat as [|n] eqn:Hn'.
    - assert (1 <= (length data + 16 - 1) / 16)%nat
        by (apply Nat.div_le_lower_bound; lia).
      lia.
    - simpl. eauto. }
  rewrite Hsteps in *. cbn [fold_left length] in *.
  assert ((0 + 4 <? length data)%nat = true) as Hg by (apply Nat.ltb_lt; lia).
  assert (sharpnessStep data (0, 0%nat) 0
          = (0 ⊕ pairDifference data 0, 1%nat)) as ->
    by (unfold sharpnessStep; rewrite Hg; reflexivity).
  destruct (Hpair 0%nat (or_introl eq_refl) ltac:(lia)) as [Hp1 Hp2].
  destruct (sharpness_loop_bounds data lo hi tail (0 ⊕ pairDifference data 0) 1)
    as [[Hs1 Hs2] Hc].
  - exact Hlh.
  - nia.
  - intros i Hi. apply Hpair. right. exact Hi.
  - rewrite !Z.mul_1_r. apply round64_between; try (apply round64_inject_Z; nia).
    split; lra.
  - cbv zeta. destruct (fold_left _ tail _) as [sum count]. cbn [fst snd] in *.
    destruct (0 <? count)%nat eqn:Hpos; [|apply Nat.ltb_ge in Hpos; lia].
    assert (0 < inject_Z (Z.of_nat count)) as Hcount
      by (change 0 with (inject_Z 0); rewrite <- Zlt_Qlt; lia).
    rewrite !inject_Z_mult in Hs1, Hs2.
    unfold fdiv. apply round64_between; try (apply round64_inject_Z; nia). split.
    + apply Qle_shift_div_l; assumption.
    + apply Qle_shift_div_r; assumption.
Qed.

(** On the analysis canvas a sampled pair is an even column [x] of some
    row [y] and its right neighbour. *)
Lemma analysisCanvas_pair (B : Browser) (img : HTMLImageElement) (data : list Z) (i : nat) :
  getImageData (analysisCanvas B freshContext img) 320 (analysisHeight img) = Normal data ->
  In i (steps (length data) 16) ->
  exists x y,
    Nat.even x = true /\ (x + 1 < 320)%nat /\ (y < analysisHeight img)%nat
    /\ forall c, (c < 3)%nat ->
         nth (i + c) data 0%Z
         = clamp8 (resample B img 320 (analysisHeight img) x y c)
         /\ nth (i + 4 + c) data 0%Z
            = clamp8 (resample B img 320 (analysisHeight img) (x + 1) y c).
Proof.
  intros Hdata Hi.
  pose proof (getImageData_length _ _ _ _ Hdata) as Hlen.
  destruct (steps_spec _ 16 i ltac:(lia) Hi) as [Hlt [k ->]].
  pose proof (Nat.div_mod_eq k 80) as Hk.
  pose proof (Nat.mod_upper_bound k 80 ltac:(lia)) as Hmod.
  exists (4 * (k mod 80))%nat, (k / 80)%nat.
  assert (k / 80 < analysisHeight img)%nat as Hy
    by (apply Nat.Div0.div_lt_upper_bound; lia).
  split; [rewrite Nat.even_mul; reflexivity|].
  split; [lia|]. split; [exact Hy|].
  intros c Hc.
  assert (forall x, (x < 320)%nat ->
            nth ((k / 80 * 320 + x) * 4 + c) data 0%Z
            = clamp8 (resample B img 320 (analysisHeight img) x (k / 80) c)) as Hpx.
  { intros x Hx.
    rewrite (getImageData_nth _ _ _ _ x (k / 80)%nat c Hdata Hx Hy ltac:(lia)).
    unfold analysisCanvas, drawImage, setCanvasSize.
    cbn [canvas_width canvas_height bitmap].
    apply Nat.ltb_lt in Hx, Hy. rewrite Hx, Hy. reflexivity. }
  split.
  - rewrite <- (Hpx (4 * (k mod 80))%nat) by lia. f_equal. lia.
  - rewrite <- (Hpx (4 * (k mod 80) + 1)%nat) by lia. f_equal. lia.
Qed.

Lemma getImageData_normal (ctx : CanvasRenderingContext2D) (sw sh : nat) :
  (1 <= Z.of_nat sw <= 2147483647)%Z -> (1 <= Z.of_nat sh <= 2147483647)%Z ->
  exists data, getImageData ctx sw sh = Normal data.
Proof.
  intros Hw Hh. unfold getImageData.
  assert (((2147483647 <? Z.of_nat sw) || (2147483647 <? Z.of_nat sh))%Z = false) as ->
    by (apply orb_false_iff; split; apply Z.ltb_ge; lia).
  assert (((sw =? 0) || (sh =? 0))%nat = false) as ->
    by (apply orb_false_iff; split; apply Nat.eqb_neq; lia).
  eauto.
Qed.

(** So when all such pairs add between [lo] and [hi], the raw sharpness
    lies between [lo] and [hi]. *)
Lemma rawSharpness_between (B : Browser) (img : HTMLImageElement) (lo hi : Z) :
  (0 <= lo <= hi)%Z -> (hi <= 255)%Z ->
  (1 <= Z.of_nat (analysisHeight img) <= 2147483647)%Z ->
  (forall x y, Nat.even x = true -> (x + 1 < 320)%nat -> (y < analysisHeight img)%nat ->
     let px x c := inject_Z (clamp8 (resample B img 320 (analysisHeight img) x y c)) in
     inject_Z lo
     <= Math_abs (grey (px x 0%nat) (px x 1%nat) (px x 2%nat)
                  ⊖ grey (px (x + 1)%nat 0%nat) (px (x + 1)%nat 1%nat)
                      (px (x + 1)%nat 2%nat))
     <= inject_Z hi) ->
  inject_Z lo <= rawSharpness B img <= inject_Z hi.
Proof.
  intros Hlh Hhi Hh Hpairs. unfold rawSharpness.
  destruct (getImageData_normal (analysisCanvas B freshContext img) 320
              (analysisHeight img) ltac:(lia) Hh) as [data Hdata].
  pose proof (getImageData_length _ _ _ _ Hdata) as Hlen.
  apply (calculateSharpness_between _ _ _ data lo hi Hdata); [lia|exact Hlh|nia|].
  intros i Hi _.
  destruct (analysisCanvas_pair B img data i Hdata Hi) as (x & y & Hx & Hx1 & Hy & Hpx).
  destruct (Hpx 0%nat ltac:(lia)) as [L0 R0].
  destruct (Hpx 1%nat ltac:(lia)) as [L1 R1].
  destruct (Hpx 2%nat ltac:(lia)) as [L2 R2].
  rewrite Nat.add_0_r in L0, R0. unfold pairDifference.
  replace (i + 5)%nat with (i + 4 + 1)%nat by lia.
  replace (i + 6)%nat with (i + 4 + 2)%nat by lia.
  unfold byteAt. rewrite L0, L1, L2, R0, R1, R2.
  apply (Hpairs x y Hx Hx1 Hy).
Qed.

Lemma analysisHeight_photo : analysisHeight photoImage = 240%nat.
Proof. vm_compute. reflexivity. Qed.

(** The height is the floor of a binary64 product: 319 rows for a 308 x 308
    image and none for 15680 x 49, where exact arithmetic would give 320
    and 1. *)
Example analysisHeight_rounds :
  analysisHeight squareImage = 319%nat
  /\ analysisHeight panoramaImage = 0%nat
  /\ analysisHeight bannerImage = 0%nat.
Proof. vm_compute. repeat split; reflexivity. Qed.

Lemma rawSharpness_stripes : rawSharpness stripesBrowser photoImage == 255.
Proof.
  assert (inject_Z 255 <= rawSharpness stripesBrowser photoImage <= inject_Z 255) as H.
  { apply rawSharpness_between; [lia|lia|rewrite analysisHeight_photo; lia|].
    intros x y Hx _ _. cbv zeta. cbn [resample stripesBrowser].
    rewrite Nat.even_add, Hx. vm_compute. split; discriminate. }
  change (inject_Z 255) with 255 in H. destruct H as [H1 H2].
  apply Qle_antisym; assumption.
Qed.

Lemma rawSharpness_flat : rawSharpness flatBrowser photoImage == 0.
Proof.
  assert (inject_Z 0 <= rawSharpness flatBrowser photoImage <= inject_Z 0) as H.
  { apply rawSharpness_between; [lia|lia|rewrite analysisHeight_photo; lia|].
    intros x y _ _ _. cbv zeta. cbn [resample flatBrowser].
    vm_compute. split; discriminate. }
  change (inject_Z 0) with 0 in H. destruct H as [H1 H2].
  apply Qle_antisym; assumption.
Qed.

(** ** The hash has 64 characters *)

Lemma length_append (a b : string) :
  String.length (a ++ b) = (String.length a + String.length b)%nat.
Proof.
  induction a as [|c a IH]; [reflexivity|].
  rewrite append_cons. simpl. rewrite IH. reflexivity.
Qed.

Lemma fold_left_append_bit {X} (bit : X -> bool) (l : list X) (acc : string) :
  String.length
    (fold_left (fun hash x => (hash ++ (if bit x then "1" else "0"))%string) l acc)
  = (String.length acc + length l)%nat.
Proof.
  revert acc. induction l as [|x l IH]; intros acc; simpl; [lia|].
  rewrite IH, length_append. destruct (bit x); simpl; lia.
Qed.

Lemma Normal_inj {A} (a b : A) : Normal a = Normal b -> a = b.
Proof. intros H. congruence. Qed.

Lemma computeDHash_length (B : Browser) (ctx : CanvasRenderingContext2D)
    (img : HTMLImageElement) (h : string) :
  computeDHash B ctx img = Normal h -> String.length h = 64%nat.
Proof.
  unfold computeDHash. cbv zeta.
  destruct (getImageData _ 9 8) as [data|e]; [|discriminate].
  cbn [mbind Completion_bind mret Completion_ret].
  intros H. apply Normal_inj in H. subst h.
  assert (forall (rows : list nat) (acc : string),
    String.length
      (fold_left (fun hash y =>
         fold_left (fun hash x =>
           let iLeft := ((y * 9 + x) * 4)%nat in
           let iRight := ((y * 9 + x + 1) * 4)%nat in
           let leftVal :=
             (byteAt data iLeft ⊕ byteAt data (iLeft+1) ⊕ byteAt data (iLeft+2)) ⊘ 3 in
           let rightVal :=
             (byteAt data iRight ⊕ byteAt data (iRight+1) ⊕ byteAt data (iRight+2)) ⊘ 3 in
           (hash ++ (if Qltb rightVal leftVal then "1" else "0"))%string)
           (seq 0 8) hash) rows acc)
    = (String.length acc + 8 * length rows)%nat) as Hrows.
  { intros rows. induction rows as [|y rows IH]; intros acc; cbn [fold_left]; [simpl; lia|].
    rewrite IH. cbv zeta.
    rewrite (fold_left_append_bit
               (fun x => Qltb
                  ((byteAt data ((y * 9 + x + 1) * 4) ⊕ byteAt data ((y * 9 + x + 1) * 4 + 1)
                    ⊕ byteAt data ((y * 9 + x + 1) * 4 + 2)) ⊘ 3)
                  ((byteAt data ((y * 9 + x) * 4) ⊕ byteAt data ((y * 9 + x) * 4 + 1)
                    ⊕ byteAt data ((y * 9 + x) * 4 + 2)) ⊘ 3))).
    simpl length. lia. }
  exact (Hrows (seq 0 8) ""%string).
Qed.

(** ** The helpers on small pictures *)

(** The three weighted channels of mid-grey add up to just under 128 in
    binary64, so the score is the double just under 1. *)
Example calculateExposureScore_mid_grey :
  calculateExposureScore (plainCanvas 128) 4 2
  == 9007199254740991 # 9007199254740992.
Proof. vm_compute. reflexivity. Qed.

Example calculateExposureScore_black :
  calculateExposureScore (plainCanvas 0) 4 2 == 0.
Proof. vm_compute. reflexivity. Qed.

Example calculateExposureScore_white :
  calculateExposureScore (plainCanvas 255) 4 2 == 1 # 128.
Proof. vm_compute. reflexivity. Qed.

Example calculateSharpness_plain :
  calculateSharpness (plainCanvas 200) 4 2 == 0.
Proof. vm_compute. reflexivity. Qed.

(** Two sampled pairs with grey differences 7/3 and 8/3: the exact mean is
    5/2, the binary64 mean is the double just below it, on the blurry side
    of the threshold 2.5. *)
Example calculateSharpness_rounds :
  calculateSharpness roundingCanvas 8 1
  == 5629499534213119 # 2251799813685248
  /\ Qltb (calculateSharpness roundingCanvas 8 1) 2.5 = true.
Proof. vm_compute. split; reflexivity. Qed.

Example computeDHash_flat :
  computeDHash flatBrowser freshContext photoImage = Normal zeros64.
Proof. vm_compute. reflexivity. Qed.

Example computeDHash_stripes :
  computeDHash stripesBrowser freshContext photoImage
  = Normal "0101010101010101010101010101010101010101010101010101010101010101"%string.
Proof. vm_compute. reflexivity. Qed.

(** ** Hamming distance *)

Lemma calculateHammingDistance_nil_l (b : string) :
  calculateHammingDistance "" b = 0%nat.
Proof. reflexivity. Qed.

Lemma calculateHammingDistance_cons (c1 c2 : ascii) (a b : string) :
  calculateHammingDistance (String c1 a) (String c2 b)
  = ((if Ascii.eqb c1 c2 then 0 else 1) + calculateHammingDistance a b)%nat.
Proof.
  unfold calculateHammingDistance. simpl String.length.
  rewrite <- cons_seq, <- fmap_S_seq. simpl fold_left.
  change (S <$> seq 0 (String.length a)) with (map S (seq 0 (String.length a))).
  rewrite fold_left_map. simpl.
  rewrite (fold_left_count_acc
             (fun i => charNeq (String.get i a) (String.get i b))).
  destruct (Ascii.eqb c1 c2); reflexivity.
Qed.

Lemma calculateHammingDistance_refl (h : string) : calculateHammingDistance h h = 0%nat.
Proof.
  induction h as [|c h IH]; [reflexivity|].
  rewrite calculateHammingDistance_cons, Ascii.eqb_refl. exact IH.
Qed.

Lemma calculateHammingDistance_sym (a b : string) :
  String.length a = String.length b ->
  calculateHammingDistance a b = calculateHammingDistance b a.
Proof.
  revert b. induction a as [|c a IH]; intros [|c' b] Hlen; simpl in Hlen;
    try discriminate; [reflexivity|].
  rewrite !calculateHammingDistance_cons, (Ascii.eqb_sym c' c).
  f_equal. apply IH. congruence.
Qed.

Lemma calculateHammingDistance_zero_eq (a b : string) :
  String.length a = String.length b ->
  calculateHammingDistance a b = 0%nat -> a = b.
Proof.
  revert b. induction a as [|c a IH]; intros [|c' b] Hlen; simpl in Hlen;
    try discriminate; [reflexivity|].
  rewrite calculateHammingDistance_cons.
  destruct (Ascii.eqb c c') eqn:E; [|discriminate].
  apply Ascii.eqb_eq in E. subst c'. simpl. intros H0.
  f_equal. apply IH; [congruence|exact H0].
Qed.

(** C9. For hashes [a] and [b] of equal length (the 64-character hashes in
    particular), [calculateHammingDistance] is symmetric, it is zero exactly
    when the two hashes are identical, and the distance of a hash to itself
    is zero. *)
Theorem calculateHammingDistance_symmetric_zero_iff_equal (a b : string) :
  String.length a = String.length b ->
  calculateHammingDistance a b = calculateHammingDistance b a
  /\ (calculateHammingDistance a b = 0%nat <-> a = b)
  /\ calculateHammingDistance a a = 0%nat.
Proof.
  intros Hlen. split; [|split].
  - apply calculateHammingDistance_sym, Hlen.
  - split.
    + apply calculateHammingDistance_zero_eq, Hlen.
    + intros ->. apply calculateHammingDistance_refl.
  - apply calculateHammingDistance_refl.
Qed.

Lemma calculateHammingDistance_symmetric_zero_iff_equal_witness :
  String.length hashA = 64%nat
  /\ String.length hashA = String.length hashB
  /\ calculateHammingDistance hashA hashB = 2%nat
  /\ calculateHammingDistance hashA hashB = calculateHammingDistance hashB hashA
  /\ (calculateHammingDistance hashA hashB = 0%nat <-> hashA = hashB)
  /\ calculateHammingDistance hashA hashA = 0%nat.
Proof.
  split; [reflexivity|]. split; [reflexivity|]. split; [reflexivity|].
  apply (calculateHammingDistance_symmetric_zero_iff_equal hashA hashB).
  reflexivity.
Defined.

(** Steps through the binds, awaits and [try]/[catch] of a body whose
    effectful calls have been resolved. *)
Ltac run_completion :=
  cbv [async try_catch await mbind mret Completion_bind Completion_ret];
  cbv beta iota zeta.

(** ** Quality scoring *)

Lemma round64_1 : round64 1 == 1.
Proof. vm_compute. reflexivity. Qed.

Lemma fadd_le (a a' b b' : Q) : a <= a' -> b <= b' -> a ⊕ b <= a' ⊕ b'.
Proof. intros Ha Hb. unfold fadd. apply round64_le. lra. Qed.

Lemma fadd_nonneg (a b : Q) : 0 <= a -> 0 <= b -> 0 <= a ⊕ b.
Proof. intros Ha Hb. unfold fadd. apply round64_nonneg. lra. Qed.

Lemma fmul_nonneg (a b : Q) : 0 <= a -> 0 <= b -> 0 <= a ⊗ b.
Proof.
  intros Ha Hb. unfold fmul. apply round64_nonneg.
  apply Qmult_le_0_compat; assumption.
Qed.

(** A weight times a score of at most 1 is at most the weight. *)
Lemma fmul_weight_le (s c : Q) :
  0 <= s <= 1 -> 0 <= c -> round64 c == c -> s ⊗ c <= c.
Proof.
  intros [Hs0 Hs1] Hc Hd. unfold fmul.
  apply Qle_trans with (round64 c); [|rewrite Hd; apply Qle_refl].
  apply round64_le.
  assert (s * c <= 1 * c) by (apply Qmult_le_compat_r; assumption). lra.
Qed.

Lemma calculateExposureScore_bounds (ctx : CanvasRenderingContext2D) (w h : nat) :
  0 <= calculateExposureScore ctx w h /\ calculateExposureScore ctx w h <= 1.
Proof.
  unfold calculateExposureScore.
  destruct (getImageData ctx w h) as [data|e].
  - cbv zeta. split.
    + unfold Math_max. destruct (Qltb 0 _) eqn:E.
      * apply Qltb_lt in E. apply Qlt_le_weak, E.
      * apply Qle_refl.
    + apply Math_max_ub; [discriminate|].
      match goal with |- 1 ⊖ ?d ⊘ 128 <= 1 =>
        assert (0 <= d ⊘ 128) as Hd
      end.
      { unfold fdiv. apply round64_nonneg.
        apply Qle_shift_div_l; [reflexivity|].
        rewrite Qmult_0_l. apply Qabs_nonneg. }
      unfold fsub at 1. apply Qle_trans with (round64 1);
        [apply round64_le; lra|rewrite round64_1; apply Qle_refl].
  - split; discriminate.
Qed.

(** The weights add up to exactly 1 in binary64. *)
Lemma weights_total : double 0.6 ⊕ double 0.2 ⊕ double 0.2 == 1.
Proof. vm_compute. reflexivity. Qed.

Lemma weighted_total_bounds (s e r : Q) :
  0 <= s <= 1 -> 0 <= e <= 1 -> 0 <= r <= 1 ->
  0 <= s ⊗ double 0.6 ⊕ e ⊗ double 0.2 ⊕ r ⊗ double 0.2
  /\ s ⊗ double 0.6 ⊕ e ⊗ double 0.2 ⊕ r ⊗ double 0.2 <= 1.
Proof.
  intros Hs He Hr.
  assert (0 <= double 0.6) as H6 by (vm_compute; discriminate).
  assert (0 <= double 0.2) as H2 by (vm_compute; discriminate).
  assert (round64 (double 0.6) == double 0.6) as D6 by (vm_compute; reflexivity).
  assert (round64 (double 0.2) == double 0.2) as D2 by (vm_compute; reflexivity).
  split.
  - repeat apply fadd_nonneg; apply fmul_nonneg; tauto.
  - rewrite <- weights_total.
    repeat apply fadd_le; apply fmul_weight_le; assumption.
Qed.

(** How [calculateImageQuality] goes, by the outcome of loading. *)
Lemma calculateImageQuality_decoded (B : Browser) (f : File) (img : HTMLImageElement) :
  decode B f = Some img -> context2d B = true ->
  exists q, calculateImageQuality B f = Fulfilled q
    /\ sharpness q = Math_min (Math_max ((rawSharpness B img ⊖ 2) ⊘ 6) 0) 1
    /\ exposure q = rawExposure B img
    /\ resolution q = Math_min (Math_max ((megapixels img ⊖ 2) ⊘ 10) 0) 1
    /\ total q
       = sharpness q ⊗ double 0.6 ⊕ exposure q ⊗ double 0.2
         ⊕ resolution q ⊗ double 0.2
    /\ details q =
         (if Qltb (double 0.7) (sharpness q) then ["Very Sharp"%string]
          else if Qltb (sharpness q) (double 0.3) then ["Blurry"%string] else [])
         ++ (if Qltb (double 0.8) (exposure q) then ["Good Exposure"%string]
             else if Qltb (exposure q) (double 0.4) then ["Poor Exposure"%string]
             else [])
         ++ [(toFixed1 (megapixels img) ++ "MP")%string].
Proof.
  intros Hdec Hctx.
  unfold calculateImageQuality, loadImage, getContext.
  rewrite Hdec, Hctx. run_completion.
  unfold rawSharpness, rawExposure, analysisCanvas, analysisHeight, megapixels.
  set (sharp := calculateSharpness _ _ _).
  set (expo := calculateExposureScore _ _ _).
  set (mp := (dim (width img) ⊗ dim (height img)) ⊘ 1000000).
  set (ns := Math_min (Math_max ((sharp ⊖ 2) ⊘ 6) 0) 1).
  set (nr := Math_min (Math_max ((mp ⊖ 2) ⊘ 10) 0) 1).
  eexists. split; [reflexivity|].
  cbn [sharpness exposure resolution total details].
  repeat (split; [reflexivity|]).
  destruct (Qltb (double 0.7) ns); [|destruct (Qltb ns (double 0.3))];
    (destruct (Qltb (double 0.8) expo); [|destruct (Qltb expo (double 0.4))]);
    reflexivity.
Qed.

Lemma calculateImageQuality_undecoded (B : Browser) (f : File) :
  decode B f = None \/ context2d B = false ->
  calculateImageQuality B f = Fulfilled zeroQuality.
Proof.
  intros H. unfold calculateImageQuality, loadImage, getContext.
  destruct (decode B f) as [img|]; [|reflexivity].
  destruct H as [H|H]; [discriminate|]. rewrite H. reflexivity.
Qed.

(** C4. For every file, decodable or not, [calculateImageQuality] fulfils
    with a score whose sharpness, exposure, resolution and total all lie in
    the closed interval from 0 to 1. *)
Theorem calculateImageQuality_fields_in_unit_interval (B : Browser) (f : File) :
  exists q, calculateImageQuality B f = Fulfilled q
    /\ (0 <= sharpness q /\ sharpness q <= 1)
    /\ (0 <= exposure q /\ exposure q <= 1)
    /\ (0 <= resolution q /\ resolution q <= 1)
    /\ (0 <= total q /\ total q <= 1).
Proof.
  destruct (decode B f) as [img|] eqn:Hdec; [destruct (context2d B) eqn:Hctx|].
  - destruct (calculateImageQuality_decoded B f img Hdec Hctx)
      as (q & Hq & Hs & He & Hr & Ht & _).
    exists q. split; [exact Hq|].
    assert (0 <= sharpness q /\ sharpness q <= 1) as Bs
      by (rewrite Hs; apply clamp01_bounds).
    assert (0 <= exposure q /\ exposure q <= 1) as Be
      by (rewrite He; apply calculateExposureScore_bounds).
    assert (0 <= resolution q /\ resolution q <= 1) as Br
      by (rewrite Hr; apply clamp01_bounds).
    repeat split; try tauto; rewrite Ht;
      apply weighted_total_bounds; assumption.
  - exists zeroQuality. split.
    + apply calculateImageQuality_undecoded. right. exact Hctx.
    + simpl. repeat split; discriminate.
  - exists zeroQuality. split.
    + apply calculateImageQuality_undecoded. left. exact Hdec.
    + simpl. repeat split; discriminate.
Qed.

Lemma calculateSharpness_throw (ctx : CanvasRenderingContext2D) (w h : nat) (e : JsError) :
  getImageData ctx w h = Throw e -> calculateSharpness ctx w h = 0.
Proof. intros H. unfold calculateSharpness. rewrite H. reflexivity. Qed.

Lemma calculateExposureScore_throw (ctx : CanvasRenderingContext2D) (w h : nat) (e : JsError) :
  getImageData ctx w h = Throw e -> calculateExposureScore ctx w h = 0.5.
Proof. intros H. unfold calculateExposureScore. rewrite H. reflexivity. Qed.

Lemma calculateImageQuality_fulfils (B : Browser) (f : File) :
  exists q, calculateImageQuality B f = Fulfilled q.
Proof.
  unfold calculateImageQuality.
  destruct (_ ≫= _) as [q|e]; simpl; eauto.
Qed.

(** C6, as stated, fails: for a 640 x 1 image the buffer read raises
    [IndexSizeError] in both helpers, and the score that comes back has
    exposure 0.5, total 0.1 and two tags. *)
Lemma calculateImageQuality_buffer_failure_not_zero :
  decode stripBrowser stripFile = Some stripImage
  /\ getImageData (analysisCanvas stripBrowser freshContext stripImage)
       320 (analysisHeight stripImage) = Throw IndexSizeError
  /\ (exists q, calculateImageQuality stripBrowser stripFile = Fulfilled q
        /\ sharpness q == 0 /\ exposure q == 0.5 /\ resolution q == 0
        /\ total q == double 0.1 /\ details q = ["Blurry"; "0.0MP"]%string)
  /\ calculateImageQuality stripBrowser stripFile <> Fulfilled zeroQuality.
Proof.
  split; [reflexivity|]. split; [vm_compute; reflexivity|]. split.
  - eexists. split; [vm_compute; reflexivity|].
    cbn [sharpness exposure resolution total details].
    repeat split; vm_compute; reflexivity.
  - vm_compute. discriminate.
Qed.

(** C6, amended. [calculateImageQuality] always fulfils.  When the image
    does not load or no 2D context is available it fulfils with the
    zero-valued score (all four numbers 0, no tags).  When the image loads
    but reading the pixel buffer raises, the helpers absorb the error (raw
    sharpness 0, exposure 0.5) and the score is computed as usual:
    sharpness 0, exposure 0.5, total 0.1 + 0.2 * resolution (in binary64),
    tags "Blurry" and the megapixel tag. *)
Theorem calculateImageQuality_failure_modes (B : Browser) (f : File) :
  (exists q, calculateImageQuality B f = Fulfilled q)
  /\ (decode B f = None \/ context2d B = false ->
      calculateImageQuality B f = Fulfilled zeroQuality)
  /\ (forall img e,
        decode B f = Some img -> context2d B = true ->
        getImageData (analysisCanvas B freshContext img) 320 (analysisHeight img)
          = Throw e ->
        exists q, calculateImageQuality B f = Fulfilled q
          /\ sharpness q == 0 /\ exposure q == 0.5
          /\ total q == double 0.1 ⊕ resolution q ⊗ double 0.2
          /\ details q = ["Blurry"; toFixed1 (megapixels img) ++ "MP"]%string).
Proof.
  split; [|split].
  - apply calculateImageQuality_fulfils.
  - apply calculateImageQuality_undecoded.
  - intros img e Hdec Hctx Hthrow.
    assert (rawSharpness B img = 0) as Hs
      by (unfold rawSharpness; apply (calculateSharpness_throw _ _ _ _ Hthrow)).
    assert (rawExposure B img = 0.5) as He
      by (unfold rawExposure; apply (calculateExposureScore_throw _ _ _ _ Hthrow)).
    destruct (calculateImageQuality_decoded B f img Hdec Hctx)
      as (q & Hq & Hsq & Heq & _ & Ht & Hd).
    rewrite Hs in Hsq. rewrite He in Heq.
    replace (Math_min (Math_max ((0 ⊖ 2) ⊘ 6) 0) 1) with 0 in Hsq
      by (vm_compute; reflexivity).
    exists q. split; [exact Hq|].
    rewrite Ht, Hd, Hsq, Heq.
    replace (Qltb (double 0.7) 0) with false by (vm_compute; reflexivity).
    replace (Qltb 0 (double 0.3)) with true by (vm_compute; reflexivity).
    replace (Qltb (double 0.8) 0.5) with false by (vm_compute; reflexivity).
    replace (Qltb 0.5 (double 0.4)) with false by (vm_compute; reflexivity).
    replace (0 ⊗ double 0.6 ⊕ 0.5 ⊗ double 0.2) with (double 0.1)
      by (vm_compute; reflexivity).
    repeat split; reflexivity.
Qed.

Lemma calculateImageQuality_failure_modes_witness :
  calculateImageQuality noBrowser stripFile = Fulfilled zeroQuality
  /\ (exists q, calculateImageQuality stripBrowser stripFile = Fulfilled q
        /\ sharpness q == 0 /\ exposure q == 0.5
        /\ total q == double 0.1 ⊕ resolution q ⊗ double 0.2
        /\ details q = ["Blurry"; "0.0MP"]%string)
  /\ (exists q, calculateImageQuality bannerBrowser stripFile = Fulfilled q
        /\ sharpness q == 0 /\ exposure q == 0.5
        /\ total q == double 0.1 ⊕ resolution q ⊗ double 0.2
        /\ details q = ["Blurry"; "0.1MP"]%string)
  /\ (exists q, calculateImageQuality panoramaBrowser stripFile = Fulfilled q
        /\ sharpness q == 0 /\ exposure q == 0.5
        /\ total q == double 0.1 ⊕ resolution q ⊗ double 0.2
        /\ details q = ["Blurry"; "0.8MP"]%string).
Proof.
  split; [|split; [|split]].
  - apply (proj1 (proj2 (calculateImageQuality_failure_modes noBrowser stripFile))).
    left. reflexivity.
  - apply (proj2 (proj2 (calculateImageQuality_failure_modes stripBrowser stripFile))
             stripImage IndexSizeError); [reflexivity|reflexivity|].
    vm_compute. reflexivity.
  - apply (proj2 (proj2 (calculateImageQuality_failure_modes bannerBrowser stripFile))
             bannerImage IndexSizeError); [reflexivity|reflexivity|].
    vm_compute. reflexivity.
  - apply (proj2 (proj2 (calculateImageQuality_failure_modes panoramaBrowser stripFile))
             panoramaImage IndexSizeError); [reflexivity|reflexivity|].
    vm_compute. reflexivity.
Defined.

(** ** Classification *)

Lemma sizeKB_below_150 (s : Z) :
  Qltb (inject_Z s ⊘ 1024) 150 = (s <? 150 * 1024)%Z.
Proof.
  destruct (s <? 150 * 1024)%Z eqn:E.
  - apply Z.ltb_lt in E. apply Qltb_lt. unfold fdiv.
    apply Qle_lt_trans with (round64 (153599 # 1024)); [|vm_compute; reflexivity].
    apply round64_le. apply Qle_shift_div_r; [reflexivity|].
    unfold Qle. simpl. lia.
  - apply Z.ltb_ge in E. apply Qltb_ge. unfold fdiv.
    apply Qle_trans with (round64 150); [vm_compute; discriminate|].
    apply round64_le. apply Qle_shift_div_l; [reflexivity|].
    unfold Qle. simpl. lia.
Qed.

Lemma analyzeImage_fulfils (B : Browser) (f : File) :
  exists r, analyzeImage B f = Fulfilled r.
Proof.
  unfold analyzeImage.
  match goal with |- context [try_catch ?b ?h] => destruct b as [r|e] end;
    simpl; eauto.
Qed.

(** The metadata rules decide without looking at the pixels. *)
Lemma analyzeImage_metadata (B : Browser) (f : File) (ratio sharp : Q) :
  includesIgnoringCase (file_name f) "screenshot"
    || includesIgnoringCase (file_name f) "screen_recording" = true
  \/ (file_size f < 150 * 1024)%Z ->
  exists r, analyzeImage B f = Fulfilled r
    /\ verdict r = ladder (file_name f) (file_size f) ratio sharp.
Proof.
  intros H. unfold analyzeImage, ladder. cbv zeta.
  rewrite <- screenshot_rule_case_insensitive in *.
  rewrite sizeKB_below_150.
  destruct (includes _ "screenshot" || includes _ "screen_recording") eqn:En.
  - eexists. split; reflexivity.
  - destruct H as [H|H]; [discriminate|].
    apply Z.ltb_lt in H. rewrite H.
    eexists. split; reflexivity.
Qed.

Lemma analyzeImage_decoded (B : Browser) (f : File) (img : HTMLImageElement) :
  decode B f = Some img -> context2d B = true ->
  exists r, analyzeImage B f = Fulfilled r
    /\ verdict r = ladder (file_name f) (file_size f)
                     (aspectRatio img) (rawSharpness B img).
Proof.
  intros Hdec Hctx. unfold analyzeImage, ladder, loadImage, getContext. cbv zeta.
  rewrite <- screenshot_rule_case_insensitive.
  rewrite sizeKB_below_150, Hdec, Hctx.
  destruct (includes _ "screenshot" || includes _ "screen_recording");
    [eexists; split; reflexivity|].
  destruct (file_size f <? 150 * 1024)%Z; [eexists; split; reflexivity|].
  run_completion.
  unfold rawSharpness, aspectRatio, analysisCanvas, analysisHeight.
  set (sharp := calculateSharpness _ _ _).
  set (ratio := dim (width img) ⊘ dim (height img)).
  destruct (Qltb ratio (double 0.48) || Qltb (double 2.2) ratio);
    [eexists; split; reflexivity|].
  destruct (Qltb sharp 2.5); eexists; split; reflexivity.
Qed.

(** C1. [analyzeImage] follows the decision ladder, first match wins.  The
    two metadata rules (file name containing "screenshot" or
    "screen_recording" in any letter case: Discard 98; under 150 KB:
    Discard 85) decide for every image record, whatever the pixels; and
    once the image is decoded the verdict is the ladder's on the aspect
    ratio and the raw sharpness as the code computes them in binary64
    (ratio below 0.48 or above 2.2: Discard 80; sharpness below 2.5:
    Discard 75; otherwise Keep 65), with the stated reasons. *)
Theorem analyzeImage_follows_ladder (B : Browser) (f : File) :
  (forall ratio sharp,
     includesIgnoringCase (file_name f) "screenshot"
       || includesIgnoringCase (file_name f) "screen_recording" = true
     \/ (file_size f < 150 * 1024)%Z ->
     exists r, analyzeImage B f = Fulfilled r
       /\ verdict r = ladder (file_name f) (file_size f) ratio sharp)
  /\ (forall img,
        decode B f = Some img -> context2d B = true ->
        exists r, analyzeImage B f = Fulfilled r
          /\ verdict r = ladder (file_name f) (file_size f)
                           (aspectRatio img) (rawSharpness B img)).
Proof.
  split.
  - intros ratio sharp. apply analyzeImage_metadata.
  - apply analyzeImage_decoded.
Qed.

Lemma analyzeImage_follows_ladder_witness :
  (exists r, analyzeImage noBrowser shoutingFile = Fulfilled r
     /\ verdict r = (DISCARD, 98%Z, "Filename indicates a screenshot"%string))
  /\ (exists r, analyzeImage noBrowser recordingFile = Fulfilled r
        /\ verdict r = (DISCARD, 98%Z, "Filename indicates a screenshot"%string))
  /\ (exists r, analyzeImage noBrowser smallFile = Fulfilled r
        /\ verdict r = (DISCARD, 85%Z, "Low resolution (small file size)"%string))
  /\ (exists r, analyzeImage stripBrowser stripFile = Fulfilled r
        /\ verdict r = (DISCARD, 80%Z, "Unusual aspect ratio"%string))
  /\ (exists r, analyzeImage flatBrowser photoFile = Fulfilled r
        /\ verdict r = (DISCARD, 75%Z, "Image appears blurry"%string))
  /\ (exists r, analyzeImage stripesBrowser photoFile = Fulfilled r
        /\ verdict r = (KEEP, 65%Z, "Standard image resolution"%string)).
Proof.
  split; [|split; [|split; [|split; [|split]]]].
  - apply (proj1 (analyzeImage_follows_ladder noBrowser shoutingFile) 0 0).
    left. reflexivity.
  - apply (proj1 (analyzeImage_follows_ladder noBrowser recordingFile) 0 0).
    left. reflexivity.
  - apply (proj1 (analyzeImage_follows_ladder noBrowser smallFile) 0 0).
    right. reflexivity.
  - destruct (proj2 (analyzeImage_follows_ladder stripBrowser stripFile) stripImage
                eq_refl eq_refl) as (r & Hr & Hv).
    exists r. split; [exact Hr|]. rewrite Hv. unfold ladder.
    replace (Qltb (aspectRatio stripImage) (double 0.48)
             || Qltb (double 2.2) (aspectRatio stripImage)) with true
      by (vm_compute; reflexivity).
    reflexivity.
  - destruct (proj2 (analyzeImage_follows_ladder flatBrowser photoFile) photoImage
                eq_refl eq_refl) as (r & Hr & Hv).
    exists r. split; [exact Hr|]. rewrite Hv. unfold ladder.
    replace (Qltb (aspectRatio photoImage) (double 0.48)
             || Qltb (double 2.2) (aspectRatio photoImage)) with false
      by (vm_compute; reflexivity).
    assert (Qltb (rawSharpness flatBrowser photoImage) 2.5 = true) as E
      by (apply Qltb_lt; rewrite rawSharpness_flat; reflexivity).
    rewrite E. reflexivity.
  - destruct (proj2 (analyzeImage_follows_ladder stripesBrowser photoFile) photoImage
                eq_refl eq_refl) as (r & Hr & Hv).
    exists r. split; [exact Hr|]. rewrite Hv. unfold ladder.
    replace (Qltb (aspectRatio photoImage) (double 0.48)
             || Qltb (double 2.2) (aspectRatio photoImage)) with false
      by (vm_compute; reflexivity).
    assert (Qltb (rawSharpness stripesBrowser photoImage) 2.5 = false) as E
      by (apply Qltb_ge; rewrite rawSharpness_stripes; discriminate).
    rewrite E. reflexivity.
Defined.

Lemma analyzeImage_undecoded (B : Browser) (f : File) :
  includes (toLowerCase (file_name f)) "screenshot"
    || includes (toLowerCase (file_name f)) "screen_recording" = false ->
  (150 * 1024 <= file_size f)%Z ->
  decode B f = None \/ context2d B = false ->
  analyzeImage B f = Fulfilled analysisFailed.
Proof.
  intros Hname Hsize Hfail.
  unfold analyzeImage, loadImage, getContext. cbv zeta.
  rewrite sizeKB_below_150, Hname.
  apply Z.ltb_ge in Hsize. rewrite Hsize.
  destruct (decode B f) as [img|]; [|reflexivity].
  destruct Hfail as [Hfail|Hfail]; [discriminate|].
  rewrite Hfail. reflexivity.
Qed.

(** ** The batch *)

Lemma analyzeItem_normal (B : Browser) (item : MediaItem) :
  exists a, analyzeItem B item = Normal a.
Proof.
  unfold analyzeItem. destruct (type item).
  - destruct (analyzeImage_fulfils B (file item)) as [r Hr].
    rewrite Hr. simpl. eauto.
  - simpl. eauto.
Qed.

Lemma processItem_entries (B : Browser) (prev : list MediaItem) (item e' : MediaItem) :
  In e' (processItem B prev item) ->
  exists e, In e prev /\ id e' = id e
    /\ (id e = id item /\ status e' = done \/ id e <> id item /\ e' = e).
Proof.
  unfold processItem.
  destruct (analyzeItem_normal B item) as [a ->].
  unfold updateById. rewrite map_map. intros Hin.
  apply in_map_iff in Hin. destruct Hin as (e & <- & Hin).
  exists e. split; [exact Hin|].
  destruct (String.eqb (id e) (id item)) eqn:E.
  - cbn [id setStatus]. rewrite E. cbn [id status setStatus].
    apply String.eqb_eq in E.
    split; [reflexivity|]. left. split; [exact E|reflexivity].
  - rewrite E. apply String.eqb_neq in E. split; [reflexivity|].
    right. split; [exact E|reflexivity].
Qed.

Lemma fold_processItem_done (B : Browser) (l st : list MediaItem) :
  (forall e, In e st -> status e = done \/ In (id e) (map id l)) ->
  Forall (fun e => status e = done) (fold_left (processItem B) l st).
Proof.
  revert st. induction l as [|x l IH]; intros st H; simpl.
  - apply List.Forall_forall. intros e He.
    destruct (H e He) as [Hd|[]]. exact Hd.
  - apply IH. intros e' He'.
    destruct (processItem_entries B st x e' He') as (e & Hin & Hid & Hcase).
    destruct Hcase as [[_ Hd]|[Hne ->]]; [left; exact Hd|].
    destruct (H e Hin) as [Hd|Hl]; [left; exact Hd|].
    right. simpl in Hl. destruct Hl as [Hl|Hl]; [congruence|exact Hl].
Qed.

Lemma startProcessing_all_done (B : Browser) (items : list MediaItem) :
  Forall (fun e => status e = done) (startProcessing B items).
Proof.
  unfold startProcessing.
  apply fold_processItem_done. intros e He. right.
  exact (in_map id items e He).
Qed.

(** C3. [analyzeImage] never rejects.  When the visual stage is reached
    (no metadata rule fired) and decoding fails there, because the image does
    not load or no 2D context is available, the result is exactly Unsure,
    confidence 0, reason "Analysis failed", tags ["Error"].  And a batch goes
    on: after [startProcessing] every record of the batch is done, none is
    left in the error state. *)
Theorem analyzeImage_decode_failure_is_unsure (B : Browser) :
  (forall f, exists r, analyzeImage B f = Fulfilled r)
  /\ (forall f,
        includes (toLowerCase (file_name f)) "screenshot"
          || includes (toLowerCase (file_name f)) "screen_recording" = false ->
        (150 * 1024 <= file_size f)%Z ->
        decode B f = None \/ context2d B = false ->
        analyzeImage B f = Fulfilled analysisFailed)
  /\ (forall items, Forall (fun e => status e = done) (startProcessing B items)).
Proof.
  split; [|split].
  - apply analyzeImage_fulfils.
  - apply analyzeImage_undecoded.
  - apply startProcessing_all_done.
Qed.

Lemma analyzeImage_decode_failure_is_unsure_witness :
  analyzeImage noBrowser corruptFile
  = Fulfilled {| category := UNSURE; confidence := 0; reason := "Analysis failed";
                 tags := ["Error"%string] |}.
Proof.
  apply (proj1 (proj2 (analyzeImage_decode_failure_is_unsure noBrowser)) corruptFile).
  - reflexivity.
  - vm_compute. discriminate.
  - left. reflexivity.
Defined.

(** C8. A video record is classified from its name alone: Discard 85
    "Screen Recording Detected" when the lower-cased name contains "screen",
    Keep 85 "Video content" otherwise.  No decoding takes part: the result
    is the same under every browser, also one that decodes nothing. *)
Theorem analyzeItem_video (B : Browser) (item : MediaItem) :
  type item = video ->
  (exists r, analyzeItem B item = Normal r
     /\ verdict r =
          if includes (toLowerCase (name item)) "screen"
          then (DISCARD, 85%Z, "Screen Recording Detected"%string)
          else (KEEP, 85%Z, "Video content"%string))
  /\ (forall B', analyzeItem B' item = analyzeItem B item).
Proof.
  intros Hvideo. unfold analyzeItem. rewrite Hvideo. split.
  - eexists. split; [reflexivity|].
    unfold verdict. cbn [category confidence reason].
    destruct (includes (toLowerCase (name item)) "screen"); reflexivity.
  - intros B'. reflexivity.
Qed.

Lemma analyzeItem_video_witness :
  (exists r, analyzeItem noBrowser screenVideo = Normal r
     /\ verdict r = (DISCARD, 85%Z, "Screen Recording Detected"%string))
  /\ (exists r, analyzeItem noBrowser holidayVideo = Normal r
        /\ verdict r = (KEEP, 85%Z, "Video content"%string)).
Proof.
  split.
  - exact (proj1 (analyzeItem_video noBrowser screenVideo eq_refl)).
  - exact (proj1 (analyzeItem_video noBrowser holidayVideo eq_refl)).
Defined.

(** ** Sorting *)

Section ArraySort.
Context {A : Type} (cmp : A -> A -> Q).

Lemma insertBy_Permutation (x : A) (l : list A) : insertBy cmp x l ≡ₚ x :: l.
Proof.
  induction l as [|y l IH]; simpl; [reflexivity|].
  destruct (Qltb 0 (cmp x y)); [|reflexivity].
  rewrite IH. apply Permutation_swap.
Qed.

Lemma Array_sort_Permutation (l : list A) : Array_sort cmp l ≡ₚ l.
Proof.
  induction l as [|x l IH]; simpl; [reflexivity|].
  unfold Array_sort in *. simpl. rewrite insertBy_Permutation, IH. reflexivity.
Qed.

Lemma Array_sort_length (l : list A) : length (Array_sort cmp l) = length l.
Proof. apply Permutation_length, Array_sort_Permutation. Qed.

Lemma Array_sort_elem_of (x : A) (l : list A) : x ∈ Array_sort cmp l <-> x ∈ l.
Proof. rewrite Array_sort_Permutation. reflexivity. Qed.
End ArraySort.

Section SortDescending.
Context {A : Type} (key : A -> Q).

Lemma insertBy_desc_sorted (x : A) (l : list A) :
  StronglySorted (notBelow key) l ->
  StronglySorted (notBelow key) (insertBy (byKeyDesc key) x l).
Proof.
  induction l as [|y l IH]; intros Hs; simpl.
  - constructor; constructor.
  - inversion Hs as [|? ? Hs' Hall]; subst.
    destruct (Qltb 0 (byKeyDesc key x y)) eqn:E.
    + apply Qltb_lt in E. unfold byKeyDesc in E.
      constructor; [apply IH, Hs'|].
      rewrite insertBy_Permutation. constructor; [|exact Hall].
      unfold notBelow. lra.
    + apply Qltb_ge in E. unfold byKeyDesc in E.
      constructor; [exact Hs|].
      assert (key y <= key x) as Hyx by lra.
      constructor; [exact Hyx|].
      eapply List.Forall_impl; [|exact Hall].
      intros z Hz. unfold notBelow in *. lra.
Qed.

Lemma Array_sort_desc_sorted (l : list A) :
  StronglySorted (notBelow key) (Array_sort (byKeyDesc key) l).
Proof.
  induction l as [|x l IH]; unfold Array_sort in *; simpl.
  - constructor.
  - apply insertBy_desc_sorted, IH.
Qed.
End SortDescending.

(** ** Duplicate clustering *)

Lemma scanWindow_inv (pool : list MediaItem) (current : MediaItem)
    (i lookAhead : nat) (visited0 : gset string) (st : list MediaItem * gset string) :
  windowInv pool visited0 st ->
  windowInv pool visited0 (scanWindow pool current i lookAhead st).
Proof.
  intros Hst. unfold scanWindow.
  apply fold_left_invariant; [exact Hst|].
  clear st Hst. intros [grp vis] j _ (Hnd & Hin & Hfresh & Hsub & Hpool).
  simpl in Hnd, Hin, Hfresh, Hsub, Hpool.
  destruct (pool !! j) as [candidate|] eqn:Hj; [|repeat split; assumption].
  destruct (bool_decide (id candidate ∈ vis)) eqn:Hvis; [repeat split; assumption|].
  apply bool_decide_eq_false in Hvis.
  destruct (truthy (hash current) && truthy (hash candidate));
    [|repeat split; assumption].
  destruct (calculateHammingDistance _ _ <=? 5)%nat; [|repeat split; assumption].
  unfold windowInv. simpl. repeat split.
  - rewrite map_app. apply NoDup_app. split; [exact Hnd|]. split.
    + intros x Hx Hx'. simpl in Hx'. apply list_elem_of_singleton in Hx'. subst x.
      apply list_elem_of_In, in_map_iff in Hx. destruct Hx as (m & Hm & Hmin).
      apply Hvis. rewrite <- Hm. apply Hin. apply list_elem_of_In. exact Hmin.
    + simpl. apply NoDup_singleton.
  - intros m Hm. apply elem_of_app in Hm. destruct Hm as [Hm|Hm].
    + apply elem_of_union. left. apply Hin, Hm.
    + apply list_elem_of_singleton in Hm. subst m. set_solver.
  - intros m Hm. apply elem_of_app in Hm. destruct Hm as [Hm|Hm].
    + apply Hfresh, Hm.
    + apply list_elem_of_singleton in Hm. subst m. set_solver.
  - set_solver.
  - intros m Hm. apply elem_of_app in Hm. destruct Hm as [Hm|Hm].
    + apply Hpool, Hm.
    + apply list_elem_of_singleton in Hm. subst m.
      eapply list_elem_of_lookup_2, Hj.
Qed.

(** The inner loop only ever appends to the group. *)
Lemma scanWindow_length (pool : list MediaItem) (current : MediaItem)
    (i lookAhead : nat) (st : list MediaItem * gset string) :
  (length st.1 <= length (scanWindow pool current i lookAhead st).1)%nat.
Proof.
  unfold scanWindow.
  apply (fold_left_invariant (fun s => (length st.1 <= length s.1)%nat));
    [reflexivity|].
  intros [grp vis] j _ H. simpl in *.
  destruct (pool !! j) as [candidate|]; [|exact H].
  destruct (bool_decide _); [exact H|].
  destruct (_ && _); [|exact H].
  destruct (_ <=? _)%nat; [|exact H].
  simpl. rewrite length_app. simpl. lia.
Qed.

(** A sorted group of two or more is ranked. *)
Lemma sorted_group_ranked (current : MediaItem) (grp : list MediaItem) (gid : string) :
  (1 < length grp)%nat ->
  let sorted := Array_sort (fun a b => totalOf b - totalOf a) grp in
  ranked {| group_id := gid;
            items := sorted;
            bestItemId := id (nth 0 sorted current);
            scoreGap := totalOf (nth 0 sorted current) - totalOf (nth 1 sorted current) |}.
Proof.
  intros Hlen sorted.
  pose proof (Array_sort_desc_sorted totalOf grp) as Hsorted.
  change (Array_sort (byKeyDesc totalOf) grp) with sorted in Hsorted.
  pose proof (Array_sort_length (fun a b => totalOf b - totalOf a) grp) as Hl.
  fold sorted in Hl.
  destruct sorted as [|best [|second rest]]; simpl in Hl; try lia.
  exists best, second, rest. simpl.
  inversion Hsorted as [|? ? Hs1 Hall1]; subst.
  inversion Hs1 as [|? ? Hs2 Hall2]; subst.
  repeat split; try reflexivity.
  - constructor; [apply Qle_refl|exact Hall1].
  - constructor; [apply Qle_refl|exact Hall2].
Qed.

Lemma claimedIds_snoc (groups : list DuplicateGroup) (g : DuplicateGroup) :
  claimedIds (groups ++ [g]) = claimedIds groups ++ map id (items g).
Proof.
  unfold claimedIds. rewrite map_app, concat_app. simpl.
  rewrite app_nil_r. reflexivity.
Qed.

Lemma groupFrom_inv (pool : list MediaItem) (st : list DuplicateGroup * gset string)
    (i : nat) :
  outerInv pool st -> outerInv pool (groupFrom pool st i).
Proof.
  destruct st as [groups visited]. intros (Hnd & Hvis & Hrank & Hpool).
  simpl in Hnd, Hvis, Hrank, Hpool. unfold groupFrom.
  destruct (pool !! i) as [current|] eqn:Hi; [|repeat split; assumption].
  destruct (bool_decide (id current ∈ visited)) eqn:Hc; [repeat split; assumption|].
  apply bool_decide_eq_false in Hc. cbv zeta.
  pose proof (scanWindow_inv pool current i (Nat.min (length pool) (i + 50)) visited
                ([current], visited ∪ {[ id current ]})) as Hw.
  pose proof (scanWindow_length pool current i (Nat.min (length pool) (i + 50))
                ([current], visited ∪ {[ id current ]})) as Hlen.
  destruct (scanWindow pool current i _ _) as [grp vis2].
  assert (windowInv pool visited (grp, vis2)) as (Wnd & Win & Wfresh & Wsub & Wpool).
  { apply Hw. unfold windowInv. simpl. repeat split.
    - apply NoDup_singleton.
    - intros m Hm. apply list_elem_of_singleton in Hm. subst m. set_solver.
    - intros m Hm. apply list_elem_of_singleton in Hm. subst m. exact Hc.
    - set_solver.
    - intros m Hm. apply list_elem_of_singleton in Hm. subst m.
      eapply list_elem_of_lookup_2, Hi. }
  simpl in Wnd, Win, Wfresh, Wsub, Wpool, Hlen. clear Hw.
  destruct (1 <? length grp)%nat eqn:Hbig.
  - apply Nat.ltb_lt in Hbig.
    set (sorted := Array_sort (fun a b => totalOf b - totalOf a) grp).
    assert (sorted ≡ₚ grp) as Hperm by apply Array_sort_Permutation.
    unfold outerInv. simpl. rewrite claimedIds_snoc. simpl. repeat split.
    + apply NoDup_app. split; [exact Hnd|]. split.
      * intros x Hx Hx'. apply Hvis in Hx.
        apply list_elem_of_In, in_map_iff in Hx'. destruct Hx' as (m & Hm & Hmin).
        apply (Wfresh m); [|rewrite Hm; exact Hx].
        rewrite <- Hperm. apply list_elem_of_In. exact Hmin.
      * assert (map id sorted ≡ₚ map id grp) as Hids
          by (apply Permutation_map, Hperm).
        rewrite Hids. exact Wnd.
    + intros x Hx. apply elem_of_app in Hx. destruct Hx as [Hx|Hx].
      * apply Wsub, Hvis, Hx.
      * apply list_elem_of_In, in_map_iff in Hx. destruct Hx as (m & Hm & Hmin).
        rewrite <- Hm. apply Win. rewrite <- Hperm. apply list_elem_of_In. exact Hmin.
    + apply Forall_app. split; [exact Hrank|].
      constructor; [|constructor].
      apply (sorted_group_ranked current grp _ Hbig).
    + apply Forall_app. split; [exact Hpool|].
      constructor; [|constructor]. simpl.
      intros m Hm. apply Wpool. rewrite <- Hperm. exact Hm.
  - unfold outerInv. simpl. repeat split; try assumption.
    intros x Hx. apply Wsub, Hvis, Hx.
Qed.

Lemma detectDuplicates_inv (B : Browser) (items0 : list MediaItem)
    (groups : list DuplicateGroup) :
  detectDuplicates B items0 = Fulfilled groups ->
  exists pool visited,
    preprocess B (Array_sort (fun a b => inject_Z (timestamp a - timestamp b)) items0) []
      = Normal pool
    /\ outerInv pool (groups, visited).
Proof.
  unfold detectDuplicates. cbv zeta.
  destruct (preprocess B _ []) as [pool|e] eqn:Hpre; [|discriminate].
  run_completion.
  pose proof (fold_left_invariant (outerInv pool) (groupFrom pool)
                (seq 0 (length pool)) ([], ∅)) as Hinv.
  destruct (fold_left (groupFrom pool) _ _) as [gs visited].
  intros Heq. injection Heq as <-.
  exists pool, visited. split; [reflexivity|].
  apply Hinv.
  - unfold outerInv, claimedIds. simpl. repeat split.
    + apply NoDup_nil_2.
    + intros x Hx. inversion Hx.
    + constructor.
    + constructor.
  - intros s x _. apply groupFrom_inv.
Qed.

(** The hash grid is 9 x 8, so reading it back cannot raise. *)
Lemma computeDHash_normal (B : Browser) (ctx : CanvasRenderingContext2D)
    (img : HTMLImageElement) :
  exists h, computeDHash B ctx img = Normal h.
Proof.
  unfold computeDHash. cbv zeta.
  destruct (getImageData _ 9 8) as [data|e] eqn:E.
  - cbn [mbind Completion_bind mret Completion_ret]. eexists. reflexivity.
  - unfold getImageData in E. cbn [Nat.eqb orb] in E. discriminate.
Qed.


Lemma bind_Normal {A B} (a : A) (k : A -> Completion B) : (Normal a ≫= k) = k a.
Proof. reflexivity. Qed.

Lemma preprocess_cons (B : Browser) (item : MediaItem) (l acc : list MediaItem) :
  preprocess B (item :: l) acc
  = match type item with
    | video => preprocess B l acc
    | image =>
        if negb (truthy (hash item)) || negb (bool_decide (is_Some (quality item)))
        then
          img ← await (loadImage B (file item));
          h ← match getContext B with
              | Some ctx => computeDHash B ctx img
              | None => Throw NullContextError
              end;
          q ← await (calculateImageQuality B (file item));
          preprocess B l (acc ++ [setHashQuality item h q])
        else preprocess B l (acc ++ [item])
    end.
Proof. reflexivity. Qed.

(** The first loop completes when every image candidate decodes (or is
    already cached) and a 2D context is available. *)
Lemma preprocess_normal (B : Browser) (l acc : list MediaItem) :
  context2d B = true ->
  Forall (fun m => type m = image -> is_Some (decode B (file m))) l ->
  exists out, preprocess B l acc = Normal out.
Proof.
  intros Hctx. revert acc. induction l as [|item l IH]; intros acc Hl.
  - eexists. reflexivity.
  - inversion Hl as [|? ? Hitem Hrest]; subst.
    rewrite preprocess_cons.
    destruct (type item) eqn:Ht; [|apply IH, Hrest].
    destruct (negb _ || negb _); [|apply IH, Hrest].
    destruct (Hitem eq_refl) as [img Himg].
    unfold loadImage, getContext. rewrite Himg, Hctx.
    destruct (computeDHash_normal B freshContext img) as [h Hh].
    destruct (calculateImageQuality_fulfils B (file item)) as [q Hq].
    cbn [await]. rewrite bind_Normal, Hh, bind_Normal, Hq.
    cbn [await]. rewrite bind_Normal.
    apply IH, Hrest.
Qed.

Lemma detectDuplicates_fulfils (B : Browser) (items0 : list MediaItem) :
  context2d B = true ->
  Forall (fun m => type m = image -> is_Some (decode B (file m))) items0 ->
  exists groups, detectDuplicates B items0 = Fulfilled groups.
Proof.
  intros Hctx Hall. unfold detectDuplicates. cbv zeta.
  destruct (preprocess_normal B
              (Array_sort (fun a b => inject_Z (timestamp a - timestamp b)) items0)
              [] Hctx) as [pool Hpool].
  { rewrite Array_sort_Permutation. exact Hall. }
  rewrite Hpool. run_completion.
  destruct (fold_left _ _ _) as [gs visited]. eauto.
Qed.

Lemma lookup_map {A B} (f : A -> B) (l : list A) (i : nat) :
  map f l !! i = f <$> (l !! i).
Proof.
  revert i. induction l as [|x l IH]; intros [|i]; simpl; try reflexivity.
  apply IH.
Qed.

Lemma NoDup_concat_each {A} (ls : list (list A)) :
  NoDup (concat ls) -> Forall NoDup ls.
Proof.
  induction ls as [|l ls IH]; simpl; intros H; [constructor|].
  apply NoDup_app in H. destruct H as (Hl & _ & Hrest).
  constructor; [exact Hl|apply IH, Hrest].
Qed.

Lemma NoDup_concat_disjoint {A} (ls : list (list A)) (i j : nat) (a b : list A) (x : A) :
  NoDup (concat ls) -> i <> j ->
  ls !! i = Some a -> ls !! j = Some b -> x ∈ a -> x ∉ b.
Proof.
  revert i j. induction ls as [|l ls IH]; intros i j H Hij Ha Hb Hxa Hxb;
    [destruct i; discriminate|].
  simpl in H. apply NoDup_app in H. destruct H as (_ & Hdisj & Hrest).
  destruct i as [|i], j as [|j]; simpl in Ha, Hb.
  - congruence.
  - injection Ha as ->. apply (Hdisj x Hxa).
    apply list_elem_of_In, in_concat. exists b. split.
    + apply list_elem_of_In. eapply list_elem_of_lookup_2, Hb.
    + apply list_elem_of_In, Hxb.
  - injection Hb as ->. apply (Hdisj x Hxb).
    apply list_elem_of_In, in_concat. exists a. split.
    + apply list_elem_of_In. eapply list_elem_of_lookup_2, Ha.
    + apply list_elem_of_In, Hxa.
  - apply (IH i j Hrest); auto.
Qed.



(** C10. The groups that [detectDuplicates] emits are pairwise disjoint:
    listing the member ids of all groups one after the other repeats no id;
    so no id occurs twice inside a group, and no id occurs in two groups. *)
Theorem detectDuplicates_groups_disjoint (B : Browser) (items0 : list MediaItem)
    (groups : list DuplicateGroup) :
  detectDuplicates B items0 = Fulfilled groups ->
  NoDup (claimedIds groups)
  /\ Forall (fun g => NoDup (map id (items g))) groups
  /\ (forall i j g h x,
        i <> j -> groups !! i = Some g -> groups !! j = Some h ->
        x ∈ map id (items g) -> x ∉ map id (items h)).
Proof.
  intros Hrun.
  destruct (detectDuplicates_inv B items0 groups Hrun)
    as (pool & visited & _ & Hnd & _).
  simpl in Hnd. split; [exact Hnd|]. split.
  - apply NoDup_concat_each in Hnd.
    rewrite Forall_forall in Hnd. apply Forall_forall. intros g Hg.
    apply Hnd. apply list_elem_of_In.
    apply (in_map (fun g => map id (items g))), list_elem_of_In, Hg.
  - intros i j g h x Hij Hg Hh.
    apply (NoDup_concat_disjoint _ i j _ _ x Hnd Hij).
    + rewrite lookup_map, Hg. reflexivity.
    + rewrite lookup_map, Hh. reflexivity.
Qed.

Lemma detectDuplicates_groups_disjoint_witness :
  detectDuplicates noBrowser quad = Fulfilled quadGroups
  /\ claimedIds quadGroups = ["a"; "c"; "d"; "b"]%string
  /\ NoDup (claimedIds quadGroups)
  /\ Forall (fun g => NoDup (map id (items g))) quadGroups
  /\ (forall i j g h x,
        i <> j -> quadGroups !! i = Some g -> quadGroups !! j = Some h ->
        x ∈ map id (items g) -> x ∉ map id (items h)).
Proof.
  assert (detectDuplicates noBrowser quad = Fulfilled quadGroups) as Hrun
    by (vm_compute; reflexivity).
  split; [exact Hrun|]. split; [reflexivity|].
  exact (detectDuplicates_groups_disjoint noBrowser quad quadGroups Hrun).
Defined.

(** The inner loop looks at the indices after [i] and before [lookAhead],
    and nowhere else. *)
Lemma scanWindow_members (pool : list MediaItem) (current : MediaItem)
    (i lookAhead : nat) (st : list MediaItem * gset string) (m : MediaItem) :
  m ∈ (scanWindow pool current i lookAhead st).1 ->
  m ∈ st.1 \/ exists j, (i < j < lookAhead)%nat /\ pool !! j = Some m.
Proof.
  revert m. unfold scanWindow.
  apply (fold_left_invariant
           (fun s => forall m, m ∈ s.1 ->
              m ∈ st.1 \/ exists j, (i < j < lookAhead)%nat /\ pool !! j = Some m)).
  - intros m Hm. left. exact Hm.
  - intros [grp vis] j Hj IH m. simpl in IH.
    apply in_seq in Hj.
    destruct (pool !! j) as [candidate|] eqn:Hlook; [|apply IH].
    destruct (bool_decide _); [apply IH|].
    destruct (_ && _); [|apply IH].
    destruct (_ <=? _)%nat; [|apply IH].
    simpl. intros Hm. apply elem_of_app in Hm. destruct Hm as [Hm|Hm]; [apply IH, Hm|].
    apply list_elem_of_singleton in Hm. subst m.
    right. exists j. split; [lia|exact Hlook].
Qed.

(** C5, on the code.  The window of a seed at index [i] ends before index
    [i + 50]: every candidate the seed takes sits at most 49 places after
    it.  Two identical shots 49 places apart are grouped; 50 places apart
    they are never compared, and neither ends up in any group. *)
Theorem detectDuplicates_window_is_49 :
  (forall pool current i st m,
     m ∈ (scanWindow pool current i (Nat.min (length pool) (i + 50)) st).1 ->
     m ∈ st.1 \/ exists j, (i < j <= i + 49)%nat /\ pool !! j = Some m)
  /\ (exists g1 g2, detectDuplicates noBrowser (burst 49) = Fulfilled [g1; g2]
        /\ map id (items g1) = ["p0"; "p49"]%string)
  /\ (exists g, detectDuplicates noBrowser (burst 50) = Fulfilled [g]
        /\ calculateHammingDistance (hashOf (shot 0 zeros64)) (hashOf (shot 50 zeros64))
           = 0%nat
        /\ map id (items g) = map (fun k => ("p" ++ pretty k)%string) (seq 1 49)
        /\ ("p0"%string ∉ map id (items g))
        /\ ("p50"%string ∉ map id (items g))).
Proof.
  split; [|split].
  - intros pool current i st m Hm.
    destruct (scanWindow_members _ _ _ _ _ _ Hm) as [H|(j & Hj & Hlook)];
      [left; exact H|].
    right. exists j. split; [lia|exact Hlook].
  - eexists _, _. split; [vm_compute; reflexivity|]. reflexivity.
  - eexists. split; [vm_compute; reflexivity|].
    split; [reflexivity|]. split; [reflexivity|].
    split; refine (bool_decide_unpack _ _); vm_compute; exact I.
Qed.

(** A record that the first loop has to decode and cannot. *)
Lemma preprocess_throws (B : Browser) (l acc : list MediaItem) :
  Exists (fun item => type item = image
                      /\ (truthy (hash item) = false \/ quality item = None)
                      /\ decode B (file item) = None) l ->
  exists e, preprocess B l acc = Throw e.
Proof.
  revert acc. induction l as [|item l IH]; intros acc Hex; [inversion Hex|].
  cbn [preprocess].
  destruct (type item) eqn:Htype.
  - destruct (negb (truthy (hash item)) || negb (bool_decide (is_Some (quality item))))
      eqn:Hmiss.
    + unfold loadImage.
      destruct (decode B (file item)) as [img|] eqn:Hdec; [|simpl; eauto].
      cbn [await mbind Completion_bind].
      destruct (match getContext B with Some ctx => _ | None => _ end) as [h|e];
        [|simpl; eauto].
      cbn [mbind Completion_bind].
      destruct (await (calculateImageQuality B (file item))) as [q|e]; [|simpl; eauto].
      cbn [mbind Completion_bind].
      apply IH. apply Exists_cons in Hex.
      destruct Hex as [(_ & _ & Hnone)|Hex]; [congruence|exact Hex].
    + apply IH. apply Exists_cons in Hex.
      destruct Hex as [(_ & Hcache & _)|Hex]; [|exact Hex].
      apply orb_false_iff in Hmiss. destruct Hmiss as [Hh Hq].
      apply negb_false_iff in Hh. apply negb_false_iff, bool_decide_eq_true in Hq.
      destruct Hcache as [Hcache|Hcache]; [congruence|].
      rewrite Hcache in Hq. destruct Hq as [? Hq]. discriminate.
  - apply IH. apply Exists_cons in Hex.
    destruct Hex as [(Himg & _)|Hex]; [congruence|exact Hex].
Qed.

(** C7, on the code.  One image record without cached hash or quality whose
    file does not decode, anywhere in the batch, makes [detectDuplicates]
    reject: the load error of the first loop is not caught.  Such a record
    reaches the scan in the App, as [analyzeImage] has classified it Unsure,
    not Discard. *)
Theorem detectDuplicates_rejects_on_undecodable :
  (forall B items0,
     Exists (fun item => type item = image
                         /\ (truthy (hash item) = false \/ quality item = None)
                         /\ decode B (file item) = None) items0 ->
     exists e, detectDuplicates B items0 = Rejected e)
  /\ detectDuplicates pickyBrowser [corruptItem] = Rejected ImageLoadError
  /\ map (fun it => option_map category (analysis it))
       (startProcessing pickyBrowser [screenshotItem; corruptItem])
     = [Some DISCARD; Some UNSURE]
  /\ startDuplicateScan pickyBrowser
       (startProcessing pickyBrowser [screenshotItem; corruptItem])
     = Rejected ImageLoadError.
Proof.
  split; [|split; [|split]].
  - intros B items0 Hex. unfold detectDuplicates. cbv zeta.
    destruct (preprocess_throws B
                (Array_sort (fun a b => inject_Z (timestamp a - timestamp b)) items0) [])
      as [e He].
    { rewrite Array_sort_Permutation. exact Hex. }
    rewrite He. exists e. reflexivity.
  - vm_compute. reflexivity.
  - vm_compute. reflexivity.
  - vm_compute. reflexivity.
Qed.

(** * Further properties of the code *)

(** ** Hamming distance, continued *)

Lemma calculateHammingDistance_cons_nil (c : ascii) (a : string) :
  calculateHammingDistance (String c a) ""
  = S (calculateHammingDistance a "").
Proof.
  unfold calculateHammingDistance. simpl String.length.
  rewrite <- cons_seq, <- fmap_S_seq. simpl fold_left.
  change (S <$> seq 0 (String.length a)) with (map S (seq 0 (String.length a))).
  rewrite fold_left_map. simpl.
  rewrite (fold_left_count_acc (fun i => charNeq (String.get i a) None)).
  reflexivity.
Qed.

(** Against the empty string every position differs. *)
Lemma calculateHammingDistance_nil_r (a : string) :
  calculateHammingDistance a "" = String.length a.
Proof.
  induction a as [|c a IH]; [reflexivity|].
  rewrite calculateHammingDistance_cons_nil, IH. reflexivity.
Qed.

(** X1. The distance never exceeds the length of the first hash, whatever
    the second hash is. *)
Theorem calculateHammingDistance_le_length (a b : string) :
  (calculateHammingDistance a b <= String.length a)%nat.
Proof.
  revert b. induction a as [|c a IH]; intros b; [reflexivity|].
  destruct b as [|c' b].
  - rewrite calculateHammingDistance_nil_r. reflexivity.
  - rewrite calculateHammingDistance_cons. simpl String.length.
    specialize (IH b). destruct (Ascii.eqb c c'); lia.
Qed.

Lemma hamming_triangle (a b c : string) :
  String.length a = String.length b -> String.length b = String.length c ->
  (calculateHammingDistance a c
   <= calculateHammingDistance a b + calculateHammingDistance b c)%nat.
Proof.
  revert b c. induction a as [|x a IH]; intros [|y b] [|z c] Hab Hbc;
    simpl in Hab, Hbc; try discriminate; [reflexivity|].
  rewrite !calculateHammingDistance_cons.
  assert (calculateHammingDistance a c
          <= calculateHammingDistance a b + calculateHammingDistance b c)%nat as H
    by (apply IH; congruence).
  destruct (Ascii.eqb_spec x z) as [Hxz|Hxz];
    destruct (Ascii.eqb_spec x y) as [Hxy|Hxy];
    destruct (Ascii.eqb_spec y z) as [Hyz|Hyz]; try lia; congruence.
Qed.

(** X2. On hashes of one length the distance obeys the triangle
    inequality. *)
Theorem calculateHammingDistance_triangle (a b c : string) :
  String.length a = String.length b -> String.length b = String.length c ->
  (calculateHammingDistance a c
   <= calculateHammingDistance a b + calculateHammingDistance b c)%nat.
Proof. apply hamming_triangle. Qed.

Lemma calculateHammingDistance_triangle_witness :
  (calculateHammingDistance hashA zeros64
   <= calculateHammingDistance hashA hashB + calculateHammingDistance hashB zeros64)%nat.
Proof.
  apply (calculateHammingDistance_triangle hashA hashB zeros64); reflexivity.
Defined.

(** X3. Hashes of different lengths: the loop runs over the first hash, so
    characters that only the first hash has all count as differences, and
    characters that only the second hash has are never looked at. *)
Theorem calculateHammingDistance_unequal_lengths (a b c : string) :
  String.length a = String.length b ->
  calculateHammingDistance (a ++ c) b
  = (calculateHammingDistance a b + String.length c)%nat
  /\ calculateHammingDistance a (b ++ c) = calculateHammingDistance a b.
Proof.
  revert b. induction a as [|x a IH]; intros [|y b] Hlen; simpl in Hlen;
    try discriminate.
  - split; [apply calculateHammingDistance_nil_r|reflexivity].
  - destruct (IH b ltac:(congruence)) as [IH1 IH2].
    rewrite !append_cons, !calculateHammingDistance_cons, IH1, IH2. split; lia.
Qed.

Lemma calculateHammingDistance_unequal_lengths_witness :
  calculateHammingDistance ("0101" ++ "11") "0110" = 4%nat
  /\ calculateHammingDistance "0101" ("0110" ++ "11") = 2%nat.
Proof.
  exact (calculateHammingDistance_unequal_lengths "0101" "0110" "11" eq_refl).
Defined.

(** ** The difference hash, continued *)

Lemma allBits_append (a b : string) : allBits (a ++ b) = allBits a && allBits b.
Proof.
  induction a as [|c a IH]; [reflexivity|].
  rewrite append_cons. simpl. rewrite IH, andb_assoc. reflexivity.
Qed.

Lemma fold_left_append_bit_allBits {X} (bit : X -> bool) (l : list X) (acc : string) :
  allBits acc = true ->
  allBits (fold_left (fun hash x => (hash ++ (if bit x then "1" else "0"))%string) l acc)
  = true.
Proof.
  revert acc. induction l as [|x l IH]; intros acc Hacc; simpl; [exact Hacc|].
  apply IH. rewrite allBits_append, Hacc. destruct (bit x); reflexivity.
Qed.

(** X4. [computeDHash] cannot fail once it has a context, and its result is
    always a string of exactly 64 characters, each ['0'] or ['1']. *)
Theorem computeDHash_64_bits (B : Browser) (ctx : CanvasRenderingContext2D)
    (img : HTMLImageElement) :
  exists h, computeDHash B ctx img = Normal h
    /\ String.length h = 64%nat /\ allBits h = true.
Proof.
  destruct (computeDHash_normal B ctx img) as [h Hh].
  exists h. split; [exact Hh|]. split; [apply (computeDHash_length B ctx img h Hh)|].
  revert Hh. unfold computeDHash. cbv zeta.
  destruct (getImageData _ 9 8) as [data|e]; [|discriminate].
  cbn [mbind Completion_bind mret Completion_ret].
  intros H. apply Normal_inj in H. subst h.
  assert (forall (rows : list nat) (acc : string),
    allBits acc = true ->
    allBits
      (fold_left (fun hash y =>
         fold_left (fun hash x =>
           let iLeft := ((y * 9 + x) * 4)%nat in
           let iRight := ((y * 9 + x + 1) * 4)%nat in
           let leftVal :=
             (byteAt data iLeft ⊕ byteAt data (iLeft+1) ⊕ byteAt data (iLeft+2)) ⊘ 3 in
           let rightVal :=
             (byteAt data iRight ⊕ byteAt data (iRight+1) ⊕ byteAt data (iRight+2)) ⊘ 3 in
           (hash ++ (if Qltb rightVal leftVal then "1" else "0"))%string)
           (seq 0 8) hash) rows acc) = true) as Hrows.
  { intros rows. induction rows as [|y rows IH]; intros acc Hacc; cbn [fold_left];
      [exact Hacc|].
    apply IH. cbv zeta.
    apply (fold_left_append_bit_allBits
             (fun x => Qltb
                ((byteAt data ((y * 9 + x + 1) * 4) ⊕ byteAt data ((y * 9 + x + 1) * 4 + 1)
                  ⊕ byteAt data ((y * 9 + x + 1) * 4 + 2)) ⊘ 3)
                ((byteAt data ((y * 9 + x) * 4) ⊕ byteAt data ((y * 9 + x) * 4 + 1)
                  ⊕ byteAt data ((y * 9 + x) * 4 + 2)) ⊘ 3))).
    exact Hacc. }
  exact (Hrows (seq 0 8) ""%string eq_refl).
Qed.

Lemma fold_left_ext_In {A B} (f g : A -> B -> A) (l : list B) (a : A) :
  (forall a x, In x l -> f a x = g a x) -> fold_left f l a = fold_left g l a.
Proof.
  revert a. induction l as [|x l IH]; intros a H; simpl; [reflexivity|].
  rewrite H by (left; reflexivity). apply IH. intros; apply H; right; assumption.
Qed.

Lemma Qltb_irrefl (x : Q) : Qltb x x = false.
Proof. apply Qltb_ge, Qle_refl. Qed.

(** The bytes [computeDHash] reads for the comparison at column [x], row
    [y]: the pixel there and its right neighbour, as drawn. *)
Lemma hashCanvas_bytes (B : Browser) (ctx : CanvasRenderingContext2D)
    (img : HTMLImageElement) (data : list Z) (x y : nat) :
  getImageData (hashCanvas B ctx img) 9 8 = Normal data ->
  (x < 8)%nat -> (y < 8)%nat ->
  let px x c := inject_Z (clamp8 (resample B img 9 8 x y c)) in
  byteAt data ((y * 9 + x) * 4) = px x 0%nat
  /\ byteAt data ((y * 9 + x) * 4 + 1) = px x 1%nat
  /\ byteAt data ((y * 9 + x) * 4 + 2) = px x 2%nat
  /\ byteAt data ((y * 9 + x + 1) * 4) = px (x + 1)%nat 0%nat
  /\ byteAt data ((y * 9 + x + 1) * 4 + 1) = px (x + 1)%nat 1%nat
  /\ byteAt data ((y * 9 + x + 1) * 4 + 2) = px (x + 1)%nat 2%nat.
Proof.
  intros Hdata Hx Hy px.
  assert (forall x c, (x < 9)%nat -> (c < 4)%nat ->
            byteAt data ((y * 9 + x) * 4 + c) = px x c) as Hpx.
  { intros x' c Hx' Hc. unfold byteAt, px.
    rewrite (getImageData_nth _ _ _ _ x' y c Hdata Hx' ltac:(lia) Hc).
    unfold hashCanvas, drawImage, setCanvasSize.
    cbn [canvas_width canvas_height bitmap].
    assert (y < 8)%nat as Hy' by lia.
    apply Nat.ltb_lt in Hx', Hy'. rewrite Hx', Hy'. reflexivity. }
  repeat split.
  - rewrite <- (Hpx x 0%nat) by lia. f_equal. lia.
  - apply Hpx; lia.
  - apply Hpx; lia.
  - rewrite <- (Hpx (x + 1)%nat 0%nat) by lia. f_equal. lia.
  - rewrite <- (Hpx (x + 1)%nat 1%nat) by lia. f_equal. lia.
  - rewrite <- (Hpx (x + 1)%nat 2%nat) by lia. f_equal. lia.
Qed.

(** X5. A picture whose 9 x 8 rendering does not change along its rows
    (one flat colour, horizontal bands, a vertical gradient) hashes to 64
    zeros: a bit is set only where a pixel is brighter than its right
    neighbour. *)
Theorem computeDHash_no_horizontal_change (B : Browser)
    (ctx : CanvasRenderingContext2D) (img : HTMLImageElement) :
  (forall x x' y c, resample B img 9 8 x y c = resample B img 9 8 x' y c) ->
  computeDHash B ctx img = Normal zeros64.
Proof.
  intros Hrow. unfold computeDHash. cbv zeta.
  change (drawImage B (setCanvasSize ctx 9 8) img 9 8) with (hashCanvas B ctx img).
  destruct (getImageData (hashCanvas B ctx img) 9 8) as [data|e] eqn:Hdata.
  2:{ unfold getImageData in Hdata. discriminate. }
  cbn [mbind Completion_bind mret Completion_ret]. f_equal.
  transitivity
    (fold_left (fun hash (y : nat) =>
       fold_left (fun hash (x : nat) => (hash ++ "0")%string) (seq 0 8) hash)
       (seq 0 8) ""%string); [|reflexivity].
  apply fold_left_ext_In. intros hash y Hy. apply in_seq in Hy.
  apply fold_left_ext_In. intros hash' x Hx. apply in_seq in Hx.
  destruct (hashCanvas_bytes B ctx img data x y Hdata ltac:(lia) ltac:(lia))
    as (L0 & L1 & L2 & R0 & R1 & R2).
  rewrite L0, L1, L2, R0, R1, R2.
  rewrite !(Hrow (x + 1)%nat x y). rewrite Qltb_irrefl. reflexivity.
Qed.

Lemma computeDHash_no_horizontal_change_witness :
  computeDHash flatBrowser freshContext photoImage = Normal zeros64.
Proof.
  apply (computeDHash_no_horizontal_change flatBrowser freshContext photoImage).
  intros. reflexivity.
Defined.

(** ** Raw sharpness, continued *)

Lemma calculateSharpness_nonneg (ctx : CanvasRenderingContext2D) (w h : nat) :
  0 <= calculateSharpness ctx w h.
Proof.
  destruct (getImageData ctx w h) as [data|e] eqn:Hdata.
  2:{ rewrite (calculateSharpness_throw _ _ _ _ Hdata). apply Qle_refl. }
  rewrite (calculateSharpness_fold _ _ _ _ Hdata).
  assert (0 <= (fold_left (sharpnessStep data) (steps (length data) 16) (0, 0%nat)).1)
    as Hsum.
  { apply (fold_left_invariant (fun s : Q * nat => 0 <= s.1)); [apply Qle_refl|].
    intros [sum count] i _ Hs. cbn [fst] in Hs. unfold sharpnessStep.
    destruct (i + 4 <? length data)%nat; [|exact Hs].
    cbn [fst]. apply fadd_nonneg; [exact Hs|].
    unfold pairDifference, Math_abs. apply Qabs_nonneg. }
  cbv zeta. destruct (fold_left _ _ _) as [sum count]. cbn [fst snd] in *.
  destruct (0 <? count)%nat eqn:Hpos; [|apply Qle_refl].
  apply Nat.ltb_lt in Hpos. unfold fdiv. apply round64_nonneg.
  apply Qle_shift_div_l; [|lra].
  unfold Qlt. simpl. lia.
Qed.

Lemma clamp8_bounds (v : Z) : (0 <= clamp8 v <= 255)%Z.
Proof. unfold clamp8. lia. Qed.

(** X6. Raw sharpness is never negative, and on the analysis canvas it is
    at most 255. *)
Theorem calculateSharpness_range :
  (forall ctx w h, 0 <= calculateSharpness ctx w h)
  /\ (forall B img, rawSharpness B img <= 255).
Proof.
  split; [apply calculateSharpness_nonneg|].
  intros B img.
  destruct (getImageData (analysisCanvas B freshContext img) 320 (analysisHeight img))
    as [data|e] eqn:Hdata.
  2:{ unfold rawSharpness. rewrite (calculateSharpness_throw _ _ _ _ Hdata).
      discriminate. }
  destruct (getImageData_in_range _ _ _ _ Hdata) as [_ Hh].
  apply (rawSharpness_between B img 0 255); [lia|lia|exact Hh|].
  intros x y _ _ _. cbv beta zeta.
  apply grey_difference_bounds; apply grey_bounds; apply clamp8_bounds.
Qed.

(** Only horizontal neighbours are compared: without change along the rows
    the raw sharpness is 0. *)
Lemma rawSharpness_no_horizontal_change (B : Browser) (img : HTMLImageElement) :
  (forall x x' y c,
     resample B img 320 (analysisHeight img) x y c
     = resample B img 320 (analysisHeight img) x' y c) ->
  rawSharpness B img == 0.
Proof.
  intros Hrow.
  destruct (getImageData (analysisCanvas B freshContext img) 320 (analysisHeight img))
    as [data|e] eqn:Hdata.
  2:{ unfold rawSharpness. rewrite (calculateSharpness_throw _ _ _ _ Hdata).
      reflexivity. }
  destruct (getImageData_in_range _ _ _ _ Hdata) as [_ Hh].
  assert (inject_Z 0 <= rawSharpness B img <= inject_Z 0) as H.
  { apply rawSharpness_between; [lia|lia|exact Hh|].
    intros x y _ _ _. cbv beta zeta.
    rewrite !(Hrow (x + 1)%nat x y).
    rewrite grey_difference_same by reflexivity. split; apply Qle_refl. }
  change (inject_Z 0) with 0 in H. destruct H as [H1 H2].
  apply Qle_antisym; assumption.
Qed.

Lemma ladder_blurry_discard (lowerName : string) (sizeBytes : Z) (ratio sharp : Q) :
  Qltb sharp 2.5 = true -> (ladder lowerName sizeBytes ratio sharp).1.1 = DISCARD.
Proof.
  intros Hs. unfold ladder. rewrite Hs.
  destruct (_ || _); [reflexivity|].
  destruct (_ <? _)%Z; [reflexivity|].
  destruct (_ || _); reflexivity.
Qed.

(** X7. A picture without horizontal detail (one flat colour, horizontal
    bands, a vertical gradient) is always discarded: its raw sharpness is 0,
    so if no earlier rule has discarded it, the blur rule does. *)
Theorem analyzeImage_no_horizontal_detail_discarded (B : Browser) (f : File)
    (img : HTMLImageElement) :
  decode B f = Some img -> context2d B = true ->
  (forall x x' y c,
     resample B img 320 (analysisHeight img) x y c
     = resample B img 320 (analysisHeight img) x' y c) ->
  rawSharpness B img == 0
  /\ exists r, analyzeImage B f = Fulfilled r /\ category r = DISCARD.
Proof.
  intros Hdec Hctx Hrow.
  pose proof (rawSharpness_no_horizontal_change B img Hrow) as Hs.
  split; [exact Hs|].
  destruct (analyzeImage_decoded B f img Hdec Hctx) as (r & Hr & Hv).
  exists r. split; [exact Hr|].
  change (category r) with (verdict r).1.1. rewrite Hv.
  apply ladder_blurry_discard, Qltb_lt. rewrite Hs. reflexivity.
Qed.

Lemma analyzeImage_no_horizontal_detail_discarded_witness :
  rawSharpness flatBrowser photoImage == 0
  /\ exists r, analyzeImage flatBrowser photoFile = Fulfilled r /\ category r = DISCARD.
Proof.
  apply (analyzeImage_no_horizontal_detail_discarded flatBrowser photoFile photoImage);
    reflexivity.
Defined.

(** ** Exposure, continued *)

Lemma Qltb_wd (x x' y y' : Q) : x == x' -> y == y' -> Qltb x y = Qltb x' y'.
Proof.
  intros Hx Hy. unfold Qltb. f_equal.
  destruct (Qle_bool y x) eqn:E; symmetry.
  - apply Qle_bool_iff. apply Qle_bool_iff in E. rewrite <- Hx, <- Hy. exact E.
  - destruct (Qle_bool y' x') eqn:E'; [|reflexivity].
    apply Qle_bool_iff in E'. rewrite <- Hx, <- Hy in E'.
    apply Qle_bool_iff in E'. congruence.
Qed.

Lemma Math_max_wd (x x' y y' : Q) :
  x == x' -> y == y' -> Math_max x y == Math_max x' y'.
Proof.
  intros Hx Hy. unfold Math_max. rewrite (Qltb_wd x x' y y' Hx Hy).
  destruct (Qltb x' y'); assumption.
Qed.

(** Black pixels add nothing to the luma sum, and an average of 0 is as
    far from 128 as the score allows. *)
Lemma calculateExposureScore_all_black (ctx : CanvasRenderingContext2D) (w h : nat)
    (data : list Z) :
  getImageData ctx w h = Normal data ->
  (forall i, In i (steps (length data) 4) ->
     byteAt data i = 0 /\ byteAt data (i+1) = 0 /\ byteAt data (i+2) = 0) ->
  calculateExposureScore ctx w h = 0.
Proof.
  intros Hdata Hblack. unfold calculateExposureScore. rewrite Hdata. cbv zeta.
  set (F := fun totalLuma i => _).
  assert (fold_left F (steps (length data) 4) 0 = 0) as ->.
  { apply (fold_left_invariant (fun acc : Q => acc = 0)); [reflexivity|].
    intros acc i Hi ->. unfold F.
    destruct (Hblack i Hi) as (-> & -> & ->). vm_compute. reflexivity. }
  unfold fdiv at 2.
  rewrite (round64_wd (0 / (inject_Z (Z.of_nat w) ⊗ inject_Z (Z.of_nat h))) 0)
    by (unfold Qdiv; ring).
  vm_compute. reflexivity.
Qed.

(** On the analysis canvas every sampled pixel is a pixel as drawn. *)
Lemma analysisCanvas_pixel (B : Browser) (img : HTMLImageElement) (data : list Z) (i : nat) :
  getImageData (analysisCanvas B freshContext img) 320 (analysisHeight img) = Normal data ->
  In i (steps (length data) 4) ->
  exists x y,
    (x < 320)%nat /\ (y < analysisHeight img)%nat
    /\ forall c, (c < 3)%nat ->
         nth (i + c) data 0%Z
         = clamp8 (resample B img 320 (analysisHeight img) x y c).
Proof.
  intros Hdata Hi.
  pose proof (getImageData_length _ _ _ _ Hdata) as Hlen.
  destruct (steps_spec _ 4 i ltac:(lia) Hi) as [Hlt [k ->]].
  pose proof (Nat.div_mod_eq k 320) as Hk.
  pose proof (Nat.mod_upper_bound k 320 ltac:(lia)) as Hmod.
  exists (k mod 320)%nat, (k / 320)%nat.
  assert (k / 320 < analysisHeight img)%nat as Hy
    by (apply Nat.Div0.div_lt_upper_bound; lia).
  split; [exact Hmod|]. split; [exact Hy|].
  intros c Hc.
  replace (k * 4 + c)%nat with ((k / 320 * 320 + k mod 320) * 4 + c)%nat by lia.
  rewrite (getImageData_nth _ _ _ _ _ _ c Hdata Hmod Hy ltac:(lia)).
  unfold analysisCanvas, drawImage, setCanvasSize.
  cbn [canvas_width canvas_height bitmap].
  apply Nat.ltb_lt in Hmod, Hy. rewrite Hmod, Hy. reflexivity.
Qed.

(** X8. A black frame: when the picture is rendered entirely black on an
    analysis canvas with at least one row, sharpness and exposure are both
    exactly 0, the total is the resolution share alone, and the tags are
    "Blurry", "Poor Exposure" and the megapixel tag. *)
Theorem calculateImageQuality_black_frame (B : Browser) (f : File)
    (img : HTMLImageElement) :
  decode B f = Some img -> context2d B = true ->
  (1 <= Z.of_nat (analysisHeight img) <= 2147483647)%Z ->
  (forall x y c, (c < 3)%nat ->
     resample B img 320 (analysisHeight img) x y c = 0%Z) ->
  exists q, calculateImageQuality B f = Fulfilled q
    /\ sharpness q == 0
    /\ exposure q == 0
    /\ total q == resolution q ⊗ double 0.2
    /\ details q
       = ["Blurry"; "Poor Exposure"; toFixed1 (megapixels img) ++ "MP"]%string.
Proof.
  intros Hdec Hctx Hh Hblack.
  destruct (calculateImageQuality_decoded B f img Hdec Hctx)
    as (q & Hq & Hs & He & _ & Ht & Hd).
  assert (rawSharpness B img == 0) as Hraw.
  { assert (inject_Z 0 <= rawSharpness B img <= inject_Z 0) as H.
    { apply rawSharpness_between; [lia|lia|exact Hh|].
      intros x y _ _ _. cbv beta zeta.
      rewrite !Hblack by lia.
      rewrite grey_difference_same by reflexivity. split; apply Qle_refl. }
    change (inject_Z 0) with 0 in H. destruct H as [H1 H2].
    apply Qle_antisym; assumption. }
  assert (rawExposure B img = 0) as Hexp.
  { unfold rawExposure.
    destruct (getImageData_normal (analysisCanvas B freshContext img) 320
                (analysisHeight img) ltac:(lia) Hh) as [data Hdata].
    apply (calculateExposureScore_all_black _ _ _ data Hdata).
    intros i Hi.
    destruct (analysisCanvas_pixel B img data i Hdata Hi) as (x & y & _ & _ & Hpx).
    unfold byteAt.
    rewrite <- (Nat.add_0_r i) at 1.
    rewrite (Hpx 0%nat ltac:(lia)), (Hpx 1%nat ltac:(lia)), (Hpx 2%nat ltac:(lia)).
    rewrite !Hblack by lia. repeat split; reflexivity. }
  assert (sharpness q = 0) as Hs0.
  { rewrite Hs. unfold fsub at 1.
    rewrite (round64_wd (rawSharpness B img - 2) (0 - 2)) by (rewrite Hraw; reflexivity).
    vm_compute. reflexivity. }
  rewrite Hexp in He.
  exists q. split; [exact Hq|].
  rewrite Ht, Hd, Hs0, He.
  split; [reflexivity|]. split; [reflexivity|]. split.
  - replace (0 ⊗ double 0.6 ⊕ 0 ⊗ double 0.2) with 0 by (vm_compute; reflexivity).
    unfold fmul. rewrite fadd_0_l. reflexivity.
  - replace (Qltb (double 0.7) 0) with false by (vm_compute; reflexivity).
    replace (Qltb 0 (double 0.3)) with true by (vm_compute; reflexivity).
    replace (Qltb (double 0.8) 0) with false by (vm_compute; reflexivity).
    replace (Qltb 0 (double 0.4)) with true by (vm_compute; reflexivity).
    reflexivity.
Qed.

Lemma calculateImageQuality_black_frame_witness :
  exists q, calculateImageQuality nightBrowser photoFile = Fulfilled q
    /\ sharpness q == 0
    /\ exposure q == 0
    /\ total q == resolution q ⊗ double 0.2
    /\ details q = ["Blurry"; "Poor Exposure"; "0.3MP"]%string.
Proof.
  apply (calculateImageQuality_black_frame nightBrowser photoFile photoImage).
  - reflexivity.
  - reflexivity.
  - rewrite analysisHeight_photo. lia.
  - intros x y c Hc. unfold nightBrowser, resample.
    destruct c as [|[|[|c]]]; [reflexivity..|lia].
Defined.

(** ** Classification, continued *)

(** Every way [analyzeImage] can go, with the condition that leads there. *)
Lemma analyzeImage_cases (B : Browser) (f : File) :
  (screenshotName f = true /\ analyzeImage B f = Fulfilled resultScreenshot)
  \/ (screenshotName f = false /\ (file_size f < 150 * 1024)%Z
      /\ analyzeImage B f = Fulfilled resultSmall)
  \/ (screenshotName f = false /\ (150 * 1024 <= file_size f)%Z
      /\ (decode B f = None \/ context2d B = false)
      /\ analyzeImage B f = Fulfilled analysisFailed)
  \/ (exists img,
        screenshotName f = false /\ (150 * 1024 <= file_size f)%Z
        /\ decode B f = Some img /\ context2d B = true
        /\ ((Qltb (aspectRatio img) (double 0.48)
               || Qltb (double 2.2) (aspectRatio img) = true
             /\ analyzeImage B f = Fulfilled resultAspect)
            \/ (Qltb (aspectRatio img) (double 0.48)
                  || Qltb (double 2.2) (aspectRatio img) = false
                /\ Qltb (rawSharpness B img) 2.5 = true
                /\ analyzeImage B f = Fulfilled resultBlurry)
            \/ (Qltb (aspectRatio img) (double 0.48)
                  || Qltb (double 2.2) (aspectRatio img) = false
                /\ Qltb (rawSharpness B img) 2.5 = false
                /\ analyzeImage B f = Fulfilled resultKeep))).
Proof.
  unfold screenshotName, analyzeImage, loadImage, getContext. cbv zeta.
  rewrite sizeKB_below_150.
  destruct (includes _ "screenshot" || includes _ "screen_recording");
    [left; split; reflexivity|].
  right.
  destruct (file_size f <? 150 * 1024)%Z eqn:Hsize.
  { apply Z.ltb_lt in Hsize. left. auto. }
  apply Z.ltb_ge in Hsize. right.
  destruct (decode B f) as [img|] eqn:Hdec.
  2:{ left. auto. }
  destruct (context2d B) eqn:Hctx.
  2:{ left. auto 6. }
  right. exists img. run_completion.
  unfold rawSharpness, aspectRatio, analysisCanvas, analysisHeight.
  set (sharp := calculateSharpness _ _ _).
  set (ratio := dim (width img) ⊘ dim (height img)).
  do 4 (split; [solve [auto]|]).
  destruct (Qltb ratio (double 0.48) || Qltb (double 2.2) ratio);
    [left; auto|].
  right.
  destruct (Qltb sharp 2.5); [left|right]; auto.
Qed.

(** X9. Whatever the file and the browser, [analyzeImage] fulfils with a
    result whose category is never Pending, whose confidence is one of 0,
    65, 75, 80, 85, 98 (within 0..100), and which carries exactly one tag;
    Keep always comes with confidence 65, and confidence 0 means Unsure. *)
Theorem analyzeImage_result_shape (B : Browser) (f : File) :
  exists r, analyzeImage B f = Fulfilled r
    /\ category r <> PENDING
    /\ (0 <= confidence r <= 100)%Z
    /\ In (confidence r) [0; 65; 75; 80; 85; 98]%Z
    /\ length (tags r) = 1%nat
    /\ (category r = KEEP -> confidence r = 65%Z)
    /\ (category r = UNSURE <-> confidence r = 0%Z).
Proof.
  destruct (analyzeImage_cases B f)
    as [[_ H]|[(_ & _ & H)|[(_ & _ & _ & H)|(img & _ & _ & _ & _ &
         [[_ H]|[(_ & _ & H)|(_ & _ & H)]])]]];
    rewrite H; eexists; (split; [reflexivity|]); simpl;
    repeat split; try discriminate; try lia; try tauto; try (intros; congruence).
Qed.

(** X10. [analyzeImage] answers Unsure only when the visual stage was
    reached (no screenshot name, at least 150 KB) and the image did not load
    or no 2D context was available. *)
Theorem analyzeImage_unsure_only_on_decode_failure (B : Browser) (f : File)
    (r : AnalysisResult) :
  analyzeImage B f = Fulfilled r -> category r = UNSURE ->
  r = analysisFailed
  /\ screenshotName f = false /\ (150 * 1024 <= file_size f)%Z
  /\ (decode B f = None \/ context2d B = false).
Proof.
  intros Hr Hcat.
  destruct (analyzeImage_cases B f)
    as [[_ H]|[(_ & _ & H)|[(Hn & Hs & Hd & H)|(img & _ & _ & _ & _ &
         [[_ H]|[(_ & _ & H)|(_ & _ & H)]])]]];
    rewrite H in Hr; injection Hr as <-; try discriminate.
  repeat split; assumption.
Qed.

Lemma analyzeImage_unsure_only_on_decode_failure_witness :
  analysisFailed = analysisFailed
  /\ screenshotName corruptFile = false /\ (150 * 1024 <= file_size corruptFile)%Z
  /\ (decode pickyBrowser corruptFile = None \/ context2d pickyBrowser = false).
Proof.
  apply (analyzeImage_unsure_only_on_decode_failure pickyBrowser corruptFile analysisFailed);
    reflexivity.
Defined.

(** ** Quality tags *)

Lemma append_tail_inj (s s' t t' : string) :
  String.length s = String.length s' -> (s ++ t)%string = (s' ++ t')%string -> t = t'.
Proof.
  revert s'. induction s as [|c s IH]; intros [|c' s'] Hlen H; simpl in Hlen;
    try discriminate; [exact H|].
  rewrite !append_cons in H. injection H as _ H. apply (IH s'); congruence.
Qed.

(** The megapixel tag ends in "MP", so it is none of the four other tags. *)
Lemma megapixel_tag_distinct (s : string) :
  (s ++ "MP")%string <> "Very Sharp"%string
  /\ (s ++ "MP")%string <> "Blurry"%string
  /\ (s ++ "MP")%string <> "Good Exposure"%string
  /\ (s ++ "MP")%string <> "Poor Exposure"%string.
Proof.
  assert (forall pre suf : string,
            String.length suf = 2%nat -> suf <> "MP"%string ->
            (s ++ "MP")%string <> (pre ++ suf)%string) as Hne.
  { intros pre suf Hsuf Hdiff H.
    apply Hdiff. symmetry. apply (append_tail_inj s pre); [|exact H].
    apply (f_equal String.length) in H. rewrite !length_append, Hsuf in H.
    simpl in H. lia. }
  repeat split.
  - apply (Hne "Very Sha" "rp")%string; [reflexivity|discriminate].
  - apply (Hne "Blur" "ry")%string; [reflexivity|discriminate].
  - apply (Hne "Good Exposu" "re")%string; [reflexivity|discriminate].
  - apply (Hne "Poor Exposu" "re")%string; [reflexivity|discriminate].
Qed.

Lemma thresholds_ordered :
  double 0.3 < double 0.7 /\ double 0.4 < double 0.8.
Proof. split; vm_compute; reflexivity. Qed.

(** X11. The tags of a decoded image follow its scores, against the
    thresholds as the code has them (the doubles of 0.7, 0.3, 0.8, 0.4):
    "Very Sharp" exactly when the sharpness score is above 0.7, "Blurry"
    exactly when it is below 0.3, "Good Exposure" exactly when exposure is
    above 0.8, "Poor Exposure" exactly when it is below 0.4; the megapixel
    tag, [toFixed(1)] of the binary64 megapixel count, always comes last, so
    there are one to three tags. *)
Theorem calculateImageQuality_tags_follow_scores (B : Browser) (f : File)
    (img : HTMLImageElement) :
  decode B f = Some img -> context2d B = true ->
  exists q, calculateImageQuality B f = Fulfilled q
    /\ (In "Very Sharp"%string (details q) <-> double 0.7 < sharpness q)
    /\ (In "Blurry"%string (details q) <-> sharpness q < double 0.3)
    /\ (In "Good Exposure"%string (details q) <-> double 0.8 < exposure q)
    /\ (In "Poor Exposure"%string (details q) <-> exposure q < double 0.4)
    /\ List.last (details q) ""%string = (toFixed1 (megapixels img) ++ "MP")%string
    /\ (1 <= length (details q) <= 3)%nat.
Proof.
  intros Hdec Hctx.
  destruct (calculateImageQuality_decoded B f img Hdec Hctx)
    as (q & Hq & _ & _ & _ & _ & Hd).
  exists q. split; [exact Hq|]. rewrite Hd.
  destruct (megapixel_tag_distinct (toFixed1 (megapixels img))) as (N1 & N2 & N3 & N4).
  destruct thresholds_ordered as [T1 T2].
  generalize dependent (double 0.7). generalize dependent (double 0.3).
  generalize dependent (double 0.8). generalize dependent (double 0.4).
  intros t04 t08 T2 t03 t07 T1.
  destruct (Qltb t07 (sharpness q)) eqn:E1;
    [apply Qltb_lt in E1|apply Qltb_ge in E1; destruct (Qltb (sharpness q) t03) eqn:E2;
      [apply Qltb_lt in E2|apply Qltb_ge in E2]];
    (destruct (Qltb t08 (exposure q)) eqn:E3;
      [apply Qltb_lt in E3|apply Qltb_ge in E3; destruct (Qltb (exposure q) t04) eqn:E4;
        [apply Qltb_lt in E4|apply Qltb_ge in E4]]);
    simpl;
    (repeat split; try reflexivity; try lia; try (intros _; lra);
     try (intros _; auto; fail);
     intros H; repeat (destruct H as [H|H]; try discriminate; try congruence);
     try contradiction; try lra; exfalso;
     solve [ apply N1; congruence | apply N2; congruence
           | apply N3; congruence | apply N4; congruence | lra ]).
Qed.

Lemma calculateImageQuality_tags_follow_scores_witness :
  (exists q, calculateImageQuality stripBrowser stripFile = Fulfilled q
     /\ (In "Very Sharp"%string (details q) <-> double 0.7 < sharpness q)
     /\ (In "Blurry"%string (details q) <-> sharpness q < double 0.3)
     /\ (In "Good Exposure"%string (details q) <-> double 0.8 < exposure q)
     /\ (In "Poor Exposure"%string (details q) <-> exposure q < double 0.4)
     /\ List.last (details q) ""%string = "0.0MP"%string
     /\ (1 <= length (details q) <= 3)%nat)
  /\ (exists q, calculateImageQuality posterBrowser photoFile = Fulfilled q
        /\ (In "Very Sharp"%string (details q) <-> double 0.7 < sharpness q)
        /\ (In "Blurry"%string (details q) <-> sharpness q < double 0.3)
        /\ (In "Good Exposure"%string (details q) <-> double 0.8 < exposure q)
        /\ (In "Poor Exposure"%string (details q) <-> exposure q < double 0.4)
        /\ List.last (details q) ""%string = "2.5MP"%string
        /\ (1 <= length (details q) <= 3)%nat).
Proof.
  split.
  - exact (calculateImageQuality_tags_follow_scores stripBrowser stripFile stripImage
             eq_refl eq_refl).
  - exact (calculateImageQuality_tags_follow_scores posterBrowser photoFile posterImage
             eq_refl eq_refl).
Defined.

Lemma Math_min_ub_l (x y : Q) : Math_min x y <= x.
Proof.
  unfold Math_min. destruct (Qltb y x) eqn:E.
  - apply Qltb_lt in E. apply Qlt_le_weak, E.
  - apply Qle_refl.
Qed.

(** X12. Classification and scoring agree on blur: when [analyzeImage]
    discards a file as blurry, [calculateImageQuality] gives the same file a
    sharpness score of at most 1/12 and tags it "Blurry". *)
Theorem analyzeImage_blurry_agrees_with_quality (B : Browser) (f : File)
    (r : AnalysisResult) :
  analyzeImage B f = Fulfilled r -> reason r = "Image appears blurry"%string ->
  exists q, calculateImageQuality B f = Fulfilled q
    /\ sharpness q <= 1 # 12
    /\ In "Blurry"%string (details q).
Proof.
  intros Hr Hreason.
  destruct (analyzeImage_cases B f)
    as [[_ H]|[(_ & _ & H)|[(_ & _ & _ & H)|(img & _ & _ & Hdec & Hctx &
         [[_ H]|[(_ & Hblur & H)|(_ & _ & H)]])]]];
    rewrite H in Hr; injection Hr as <-; try discriminate.
  apply Qltb_lt in Hblur.
  destruct (calculateImageQuality_decoded B f img Hdec Hctx)
    as (q & Hq & Hs & _ & _ & _ & Hd).
  assert (sharpness q <= 1 # 12) as Hle.
  { rewrite Hs. eapply Qle_trans; [apply Math_min_ub_l|].
    apply Math_max_ub; [|discriminate].
    apply Qle_trans with (0.5 ⊘ 6); [|vm_compute; discriminate].
    unfold fdiv. apply round64_le.
    apply Qmult_le_compat_r; [|discriminate].
    unfold fsub. apply Qle_trans with (round64 0.5); [|vm_compute; discriminate].
    apply round64_le. lra. }
  exists q. split; [exact Hq|]. split; [exact Hle|].
  rewrite Hd.
  assert (1 # 12 < double 0.3) as T3 by (vm_compute; reflexivity).
  assert (1 # 12 < double 0.7) as T7 by (vm_compute; reflexivity).
  assert (Qltb (double 0.7) (sharpness q) = false) as -> by (apply Qltb_ge; lra).
  assert (Qltb (sharpness q) (double 0.3) = true) as -> by (apply Qltb_lt; lra).
  left. reflexivity.
Qed.

Lemma analyzeImage_flat_photo :
  analyzeImage flatBrowser photoFile = Fulfilled resultBlurry.
Proof.
  destruct (analyzeImage_cases flatBrowser photoFile)
    as [[Hn _]|[(_ & Hs & _)|[(_ & _ & Hd & _)|(img & _ & _ & Hdec & _ &
         [[Ha _]|[(_ & _ & H)|(_ & Hb & _)]])]]].
  - vm_compute in Hn. discriminate.
  - vm_compute in Hs. discriminate.
  - destruct Hd; discriminate.
  - injection Hdec as <-. vm_compute in Ha. discriminate.
  - exact H.
  - injection Hdec as <-. apply Qltb_ge in Hb.
    rewrite rawSharpness_flat in Hb. vm_compute in Hb. contradiction Hb. reflexivity.
Qed.

Lemma analyzeImage_blurry_agrees_with_quality_witness :
  exists q, calculateImageQuality flatBrowser photoFile = Fulfilled q
    /\ sharpness q <= 1 # 12
    /\ In "Blurry"%string (details q).
Proof.
  apply (analyzeImage_blurry_agrees_with_quality flatBrowser photoFile resultBlurry
           analyzeImage_flat_photo).
  reflexivity.
Defined.

(** ** Duplicate clustering, continued *)

(** What the first loop keeps of its input: whatever it computes, a record
    leaves the loop with every field but [hash] and [quality] unchanged,
    and the images leave it in the order they came. *)
Lemma preprocess_projection {A} (p : MediaItem -> A) (B : Browser)
    (l acc out : list MediaItem) :
  (forall item h q, p (setHashQuality item h q) = p item) ->
  preprocess B l acc = Normal out ->
  map p out = map p acc ++ map p (List.filter isImage l).
Proof.
  intros Hp. revert acc. induction l as [|item l IH]; intros acc Hrun;
    cbn [preprocess] in Hrun.
  - injection Hrun as <-. simpl. rewrite app_nil_r. reflexivity.
  - unfold isImage at 1. cbn [List.filter]. fold isImage.
    destruct (type item) eqn:Htype.
    + destruct (negb _ || negb _).
      * destruct (await (loadImage B (file item))) as [img|e]; [|discriminate].
        cbn [mbind Completion_bind] in Hrun.
        destruct (match getContext B with Some ctx => _ | None => _ end) as [h|e];
          [|discriminate].
        cbn [mbind Completion_bind] in Hrun.
        destruct (await (calculateImageQuality B (file item))) as [q|e]; [|discriminate].
        cbn [mbind Completion_bind] in Hrun.
        rewrite (IH _ Hrun), map_app. simpl. rewrite Hp, <- app_assoc. reflexivity.
      * rewrite (IH _ Hrun), map_app. simpl. rewrite <- app_assoc. reflexivity.
    + apply (IH _ Hrun).
Qed.

(** A record of the candidate list is a record of the input, up to the
    cached hash and quality. *)
Lemma preprocess_origin (B : Browser) (l out : list MediaItem) (m : MediaItem) :
  preprocess B l [] = Normal out -> m ∈ out ->
  exists item, item ∈ l /\ type item = image
    /\ id m = id item /\ type m = type item /\ timestamp m = timestamp item
    /\ analysis m = analysis item /\ file m = file item.
Proof.
  intros Hrun Hm.
  set (p := fun it : MediaItem => (id it, type it, timestamp it, analysis it, file it)).
  pose proof (preprocess_projection p B l [] out (fun _ _ _ => eq_refl) Hrun) as Hproj.
  simpl in Hproj.
  assert (In (p m) (map p out)) as Hin.
  { apply (in_map p). apply list_elem_of_In, Hm. }
  rewrite Hproj in Hin. apply in_map_iff in Hin.
  destruct Hin as (item & Heq & Hitem).
  apply filter_In in Hitem. destruct Hitem as [Hitem Himg].
  exists item. unfold p in Heq. injection Heq as E1 E2 E3 E4 E5.
  split; [apply list_elem_of_In, Hitem|].
  unfold isImage in Himg. destruct (type item); [|discriminate].
  repeat split; congruence.
Qed.

Lemma fold_left_growth {S X} (size : S -> nat) (f : S -> X -> S) (l : list X) (s : S) :
  (forall s x, (size (f s x) <= Datatypes.S (size s))%nat) ->
  (size (fold_left f l s) <= size s + length l)%nat.
Proof.
  intros Hstep. revert s. induction l as [|x l IH]; intros s; simpl; [lia|].
  specialize (IH (f s x)). specialize (Hstep s x). lia.
Qed.

(** The inner loop adds at most one member per index it visits. *)
Lemma scanWindow_length_ub (pool : list MediaItem) (current : MediaItem)
    (i lookAhead : nat) (st : list MediaItem * gset string) :
  (length (scanWindow pool current i lookAhead st).1
   <= length st.1 + (lookAhead - (i + 1)))%nat.
Proof.
  unfold scanWindow.
  match goal with |- context [fold_left ?f ?l st] =>
    pose proof (fold_left_growth
                  (fun s : list MediaItem * gset string => length s.1) f l st) as H
  end.
  rewrite length_seq in H. apply H. clear H.
  intros [grp vis] j. cbn [fst].
  destruct (pool !! j) as [candidate|]; [|cbn [fst]; lia].
  destruct (bool_decide _); [cbn [fst]; lia|].
  destruct (_ && _); [|cbn [fst]; lia].
  destruct (_ <=? _)%nat; cbn [fst]; [rewrite length_app; simpl|]; lia.
Qed.

(** It never drops a member. *)
Lemma scanWindow_keeps (pool : list MediaItem) (current : MediaItem)
    (i lookAhead : nat) (st : list MediaItem * gset string) (m : MediaItem) :
  m ∈ st.1 -> m ∈ (scanWindow pool current i lookAhead st).1.
Proof.
  intros Hm. unfold scanWindow.
  apply (fold_left_invariant (fun s : list MediaItem * gset string => m ∈ s.1));
    [exact Hm|].
  intros [grp vis] j _ H. simpl in *.
  destruct (pool !! j) as [candidate|]; [|exact H].
  destruct (bool_decide _); [exact H|].
  destruct (_ && _); [|exact H].
  destruct (_ <=? _)%nat; [|exact H].
  simpl. apply elem_of_app. left. exact H.
Qed.

(** Whoever it adds is within 5 bits of the seed. *)
Lemma scanWindow_near (pool : list MediaItem) (current : MediaItem)
    (i lookAhead : nat) (st : list MediaItem * gset string) :
  (forall m, m ∈ st.1 ->
     (calculateHammingDistance (hashOf current) (hashOf m) <= 5)%nat) ->
  forall m, m ∈ (scanWindow pool current i lookAhead st).1 ->
    (calculateHammingDistance (hashOf current) (hashOf m) <= 5)%nat.
Proof.
  intros Hst. unfold scanWindow.
  apply (fold_left_invariant
           (fun s : list MediaItem * gset string => forall m, m ∈ s.1 ->
              (calculateHammingDistance (hashOf current) (hashOf m) <= 5)%nat));
    [exact Hst|].
  intros [grp vis] j _ H. simpl in H.
  destruct (pool !! j) as [candidate|]; [|exact H].
  destruct (bool_decide _); [exact H|].
  destruct (_ && _); [|exact H].
  destruct (_ <=? _)%nat eqn:Hd; [|exact H].
  apply Nat.leb_le in Hd. simpl. intros m Hm.
  apply elem_of_app in Hm. destruct Hm as [Hm|Hm]; [apply H, Hm|].
  apply list_elem_of_singleton in Hm. subst m. exact Hd.
Qed.

Lemma groupFrom_seeded (pool : list MediaItem) (st : list DuplicateGroup * gset string)
    (i : nat) :
  Forall (seeded pool) st.1 -> Forall (seeded pool) (groupFrom pool st i).1.
Proof.
  destruct st as [groups visited]. simpl. intros Hgroups. unfold groupFrom.
  destruct (pool !! i) as [current|] eqn:Hi; [|exact Hgroups].
  destruct (bool_decide _); [exact Hgroups|]. cbv zeta.
  pose proof (scanWindow_length_ub pool current i (Nat.min (length pool) (i + 50))
                ([current], visited ∪ {[ id current ]})) as Hlen.
  pose proof (scanWindow_keeps pool current i (Nat.min (length pool) (i + 50))
                ([current], visited ∪ {[ id current ]}) current) as Hkeep.
  pose proof (scanWindow_near pool current i (Nat.min (length pool) (i + 50))
                ([current], visited ∪ {[ id current ]})) as Hnear.
  pose proof (fun m => scanWindow_members pool current i (Nat.min (length pool) (i + 50))
                ([current], visited ∪ {[ id current ]}) m) as Hmem.
  destruct (scanWindow pool current i _ _) as [grp vis2].
  simpl in Hlen, Hkeep, Hnear, Hmem.
  destruct (1 <? length grp)%nat; [|exact Hgroups].
  simpl. apply Forall_app. split; [exact Hgroups|].
  constructor; [|constructor].
  set (sorted := Array_sort (fun a b => totalOf b - totalOf a) grp).
  assert (sorted ≡ₚ grp) as Hperm by apply Array_sort_Permutation.
  exists i, current. cbn [group_id items].
  split; [exact Hi|]. split; [reflexivity|].
  split; [rewrite Hperm; apply Hkeep, list_elem_of_singleton; reflexivity|].
  split; [rewrite Hperm; lia|].
  intros m Hm. rewrite Hperm in Hm. split.
  - apply Hnear; [|exact Hm].
    intros m' Hm'. apply list_elem_of_singleton in Hm'. subst m'.
    rewrite calculateHammingDistance_refl. lia.
  - destruct (Hmem m Hm) as [H|(j & Hj & Hlook)].
    + left. apply list_elem_of_singleton in H. exact H.
    + right. exists j. split; [lia|exact Hlook].
Qed.

Lemma detectDuplicates_seeded (B : Browser) (items0 : list MediaItem)
    (groups : list DuplicateGroup) :
  detectDuplicates B items0 = Fulfilled groups ->
  exists pool,
    preprocess B (Array_sort byTimestamp items0) [] = Normal pool
    /\ Forall (seeded pool) groups.
Proof.
  unfold detectDuplicates. cbv zeta.
  change (fun a b => inject_Z (timestamp a - timestamp b)) with byTimestamp.
  destruct (preprocess B _ []) as [pool|e] eqn:Hpre; [|discriminate].
  run_completion.
  pose proof (fold_left_invariant
                (fun s : list DuplicateGroup * gset string => Forall (seeded pool) s.1)
                (groupFrom pool) (seq 0 (length pool)) ([], ∅)) as Hinv.
  destruct (fold_left (groupFrom pool) _ _) as [gs visited].
  intros Heq. injection Heq as <-.
  exists pool. split; [reflexivity|].
  apply Hinv; [constructor|].
  intros s x _. apply groupFrom_seeded.
Qed.

(** *** Time order *)

Lemma insertBy_ext {A} (cmp cmp' : A -> A -> Q) (x : A) (l : list A) :
  (forall a b, Qltb 0 (cmp a b) = Qltb 0 (cmp' a b)) ->
  insertBy cmp x l = insertBy cmp' x l.
Proof.
  intros H. induction l as [|y l IH]; simpl; [reflexivity|].
  rewrite H, IH. reflexivity.
Qed.

Lemma Array_sort_ext {A} (cmp cmp' : A -> A -> Q) (l : list A) :
  (forall a b, Qltb 0 (cmp a b) = Qltb 0 (cmp' a b)) ->
  Array_sort cmp l = Array_sort cmp' l.
Proof.
  intros H. unfold Array_sort. induction l as [|x l IH]; simpl; [reflexivity|].
  rewrite IH. apply insertBy_ext, H.
Qed.

(** The timestamp sort puts earlier records first. *)
Lemma Array_sort_byTimestamp_sorted (l : list MediaItem) :
  StronglySorted Z.le (map timestamp (Array_sort byTimestamp l)).
Proof.
  set (key := fun a : MediaItem => inject_Z (- timestamp a)).
  rewrite (Array_sort_ext byTimestamp (byKeyDesc key)).
  2:{ intros a b. apply Qltb_wd; [reflexivity|].
      unfold byTimestamp, byKeyDesc, key, Z.sub.
      rewrite inject_Z_plus, !inject_Z_opp. ring. }
  pose proof (Array_sort_desc_sorted key l) as Hs.
  induction Hs as [|a rest Hrest IH Hall]; simpl; constructor; [exact IH|].
  apply List.Forall_forall. intros t Ht.
  apply in_map_iff in Ht. destruct Ht as (b & <- & Hb).
  rewrite List.Forall_forall in Hall. specialize (Hall b Hb).
  unfold notBelow, key in Hall. rewrite <- Zle_Qle in Hall. lia.
Qed.

Lemma StronglySorted_map_filter {A} (f : A -> Z) (p : A -> bool) (l : list A) :
  StronglySorted Z.le (map f l) -> StronglySorted Z.le (map f (List.filter p l)).
Proof.
  induction l as [|x l IH]; simpl; intros Hs; [constructor|].
  inversion Hs as [|? ? Hrest Hall]; subst.
  destruct (p x); [|apply IH, Hrest].
  simpl. constructor; [apply IH, Hrest|].
  apply List.Forall_forall. intros t Ht.
  apply in_map_iff in Ht. destruct Ht as (b & <- & Hb).
  apply filter_In in Hb. destruct Hb as [Hb _].
  rewrite List.Forall_forall in Hall. apply Hall. apply in_map. exact Hb.
Qed.

Lemma StronglySorted_lookup_le (l : list Z) (i j : nat) (a b : Z) :
  StronglySorted Z.le l -> (i < j)%nat -> l !! i = Some a -> l !! j = Some b ->
  (a <= b)%Z.
Proof.
  intros Hs. revert i j. induction Hs as [|x l Hrest IH Hall]; intros i j Hij Ha Hb;
    [destruct i; discriminate|].
  destruct j as [|j]; [lia|]. simpl in Hb.
  destruct i as [|i]; simpl in Ha.
  - injection Ha as <-. rewrite List.Forall_forall in Hall.
    apply Hall. apply list_elem_of_In. eapply list_elem_of_lookup_2, Hb.
  - apply (IH i j); [lia|exact Ha|exact Hb].
Qed.

(** The candidate list is in time order. *)
Lemma preprocess_sorted (B : Browser) (items0 pool : list MediaItem) :
  preprocess B (Array_sort byTimestamp items0) [] = Normal pool ->
  StronglySorted Z.le (map timestamp pool).
Proof.
  intros Hpre.
  rewrite (preprocess_projection timestamp B _ [] pool (fun _ _ _ => eq_refl) Hpre).
  simpl. apply StronglySorted_map_filter, Array_sort_byTimestamp_sorted.
Qed.

(** X13. Every emitted group is built around a seed: the group is named
    "group-" followed by the seed's id, the seed is one of its members, and
    every member's hash is within 5 bits of the seed's hash; so two members
    whose hashes have the seed's length are within 10 bits of each other. *)
Theorem detectDuplicates_members_near_seed (B : Browser) (items0 : list MediaItem)
    (groups : list DuplicateGroup) :
  detectDuplicates B items0 = Fulfilled groups ->
  Forall (fun g =>
    exists seed,
      seed ∈ items g
      /\ group_id g = ("group-" ++ id seed)%string
      /\ (forall m, m ∈ items g ->
            (calculateHammingDistance (hashOf seed) (hashOf m) <= 5)%nat)
      /\ (forall m1 m2, m1 ∈ items g -> m2 ∈ items g ->
            String.length (hashOf m1) = String.length (hashOf seed) ->
            String.length (hashOf m2) = String.length (hashOf seed) ->
            (calculateHammingDistance (hashOf m1) (hashOf m2) <= 10)%nat))
    groups.
Proof.
  intros Hrun.
  destruct (detectDuplicates_seeded B items0 groups Hrun) as (pool & _ & Hseeded).
  eapply List.Forall_impl; [|exact Hseeded].
  intros g (i & seed & _ & Hid & Hseed & _ & Hm).
  exists seed. split; [exact Hseed|]. split; [exact Hid|]. split.
  - intros m Hin. apply (Hm m Hin).
  - intros m1 m2 H1 H2 L1 L2.
    pose proof (proj1 (Hm m1 H1)) as D1. pose proof (proj1 (Hm m2 H2)) as D2.
    pose proof (hamming_triangle (hashOf m1) (hashOf seed) (hashOf m2)
                  L1 (eq_sym L2)) as T.
    rewrite (calculateHammingDistance_sym (hashOf m1) (hashOf seed) L1) in T. lia.
Qed.

Lemma detectDuplicates_members_near_seed_witness :
  exists seed,
    seed ∈ items trioGroup
    /\ group_id trioGroup = ("group-" ++ id seed)%string
    /\ (forall m, m ∈ items trioGroup ->
          (calculateHammingDistance (hashOf seed) (hashOf m) <= 5)%nat)
    /\ (forall m1 m2, m1 ∈ items trioGroup -> m2 ∈ items trioGroup ->
          String.length (hashOf m1) = String.length (hashOf seed) ->
          String.length (hashOf m2) = String.length (hashOf seed) ->
          (calculateHammingDistance (hashOf m1) (hashOf m2) <= 10)%nat).
Proof.
  assert (detectDuplicates noBrowser trio = Fulfilled [trioGroup]) as Hrun
    by (vm_compute; reflexivity).
  pose proof (detectDuplicates_members_near_seed noBrowser trio [trioGroup] Hrun) as H.
  apply Forall_cons in H. exact (proj1 H).
Defined.

(** X14. A group never has more than 50 members, and its seed, the member
    it is named after, is its earliest: no member has a smaller timestamp. *)
Theorem detectDuplicates_group_size_and_seed_time (B : Browser)
    (items0 : list MediaItem) (groups : list DuplicateGroup) :
  detectDuplicates B items0 = Fulfilled groups ->
  Forall (fun g =>
    (length (items g) <= 50)%nat
    /\ exists seed,
         seed ∈ items g
         /\ group_id g = ("group-" ++ id seed)%string
         /\ forall m, m ∈ items g -> (timestamp seed <= timestamp m)%Z)
    groups.
Proof.
  intros Hrun.
  destruct (detectDuplicates_seeded B items0 groups Hrun) as (pool & Hpre & Hseeded).
  pose proof (preprocess_sorted B items0 pool Hpre) as Hsorted.
  eapply List.Forall_impl; [|exact Hseeded].
  intros g (i & seed & Hi & Hid & Hseed & Hlen & Hm).
  split; [exact Hlen|]. exists seed. split; [exact Hseed|]. split; [exact Hid|].
  intros m Hin. destruct (proj2 (Hm m Hin)) as [->|(j & Hj & Hlook)]; [lia|].
  apply (StronglySorted_lookup_le (map timestamp pool) i j); [exact Hsorted|lia| |].
  - rewrite lookup_map, Hi. reflexivity.
  - rewrite lookup_map, Hlook. reflexivity.
Qed.

Lemma detectDuplicates_group_size_and_seed_time_witness :
  (length (items trioGroup) <= 50)%nat
  /\ exists seed,
       seed ∈ items trioGroup
       /\ group_id trioGroup = ("group-" ++ id seed)%string
       /\ forall m, m ∈ items trioGroup -> (timestamp seed <= timestamp m)%Z.
Proof.
  assert (detectDuplicates noBrowser trio = Fulfilled [trioGroup]) as Hrun
    by (vm_compute; reflexivity).
  pose proof (detectDuplicates_group_size_and_seed_time noBrowser trio [trioGroup] Hrun)
    as H.
  apply Forall_cons in H. exact (proj1 H).
Defined.

(** *** Who gets into a group *)

(** X15. Only image records that the caller passed on get into a group:
    after [startDuplicateScan] every member of every group is an image, and
    it is a record of the App's list (same id, file and analysis) that is
    not classified Discard.  Videos and discarded records are never
    grouped. *)
Theorem startDuplicateScan_members (B : Browser) (items0 : list MediaItem)
    (groups : list DuplicateGroup) :
  startDuplicateScan B items0 = Fulfilled groups ->
  Forall (fun g =>
    Forall (fun m =>
      type m = image
      /\ exists item, item ∈ items0
           /\ id m = id item /\ file m = file item /\ analysis m = analysis item
           /\ type item = image /\ isDiscard item = false)
      (items g))
    groups.
Proof.
  unfold startDuplicateScan. cbv zeta. intros Hrun.
  destruct (detectDuplicates_inv B _ groups Hrun)
    as (pool & visited & Hpre & _ & _ & _ & Hpool).
  simpl in Hpool.
  eapply List.Forall_impl; [|exact Hpool].
  intros g Hg. apply Forall_forall. intros m Hm.
  destruct (preprocess_origin B _ pool m Hpre (Hg m Hm))
    as (item & Hitem & Htype & Hid & Htm & _ & Han & Hfile).
  split; [congruence|].
  exists item.
  rewrite Array_sort_Permutation in Hitem.
  apply list_elem_of_In, filter_In in Hitem. destruct Hitem as [Hitem Hkeep].
  apply negb_true_iff in Hkeep.
  split; [apply list_elem_of_In, Hitem|]. auto 6.
Qed.

Lemma startDuplicateScan_members_witness :
  Forall (fun g =>
    Forall (fun m =>
      type m = image
      /\ exists item, item ∈ trio
           /\ id m = id item /\ file m = file item /\ analysis m = analysis item
           /\ type item = image /\ isDiscard item = false)
      (items g))
    [trioGroup].
Proof.
  apply (startDuplicateScan_members noBrowser trio [trioGroup]).
  vm_compute. reflexivity.
Defined.

Lemma claimedIds_length_ge (groups : list DuplicateGroup) :
  Forall ranked groups -> (2 * length groups <= length (claimedIds groups))%nat.
Proof.
  unfold claimedIds. induction 1 as [|g groups Hg _ IH]; simpl; [lia|].
  destruct Hg as (best & second & rest & Hitems & _).
  rewrite length_app, length_map, Hitems. simpl. lia.
Qed.

Lemma preprocess_length (B : Browser) (l pool : list MediaItem) :
  preprocess B l [] = Normal pool -> length pool = length (List.filter isImage l).
Proof.
  intros Hpre.
  pose proof (preprocess_projection (fun _ => tt) B l [] pool
                (fun _ _ _ => eq_refl) Hpre) as H.
  simpl in H. apply (f_equal (@length unit)) in H.
  rewrite !length_map in H. exact H.
Qed.

Lemma filter_Permutation_length {A} (p : A -> bool) (l l' : list A) :
  l ≡ₚ l' -> length (List.filter p l) = length (List.filter p l').
Proof.
  induction 1 as [|x l l' _ IH|x y l|l l' l'' _ IH1 _ IH2]; simpl.
  - reflexivity.
  - destruct (p x); simpl; congruence.
  - destruct (p x), (p y); reflexivity.
  - congruence.
Qed.

(** X16. Groups take at least two records each and share none, so a batch
    with [n] image records yields at most [n / 2] groups, and the groups
    together hold at most [n] records. *)
Theorem detectDuplicates_group_count (B : Browser) (items0 : list MediaItem)
    (groups : list DuplicateGroup) :
  detectDuplicates B items0 = Fulfilled groups ->
  (2 * length groups <= length (claimedIds groups))%nat
  /\ (length (claimedIds groups) <= length (List.filter isImage items0))%nat
  /\ (length (List.filter isImage items0) <= length items0)%nat.
Proof.
  intros Hrun.
  destruct (detectDuplicates_inv B items0 groups Hrun)
    as (pool & visited & Hpre & Hnd & _ & Hrank & Hpool).
  simpl in Hnd, Hrank, Hpool.
  split; [apply claimedIds_length_ge, Hrank|]. split.
  - rewrite <- (filter_Permutation_length isImage _ _
                  (Array_sort_Permutation
                     (fun a b => inject_Z (timestamp a - timestamp b)) items0)).
    rewrite <- (preprocess_length B _ pool Hpre).
    rewrite <- (length_map id pool).
    apply NoDup_incl_length; [apply NoDup_ListNoDup, Hnd|].
    intros x Hx. unfold claimedIds in Hx.
    apply in_concat in Hx. destruct Hx as (ids & Hids & Hx).
    apply in_map_iff in Hids. destruct Hids as (g & <- & Hg).
    apply in_map_iff in Hx. destruct Hx as (m & <- & Hm).
    apply in_map. rewrite List.Forall_forall in Hpool.
    apply list_elem_of_In. apply (Hpool g Hg). apply list_elem_of_In, Hm.
  - apply List.filter_length_le.
Qed.

Lemma detectDuplicates_group_count_witness :
  (2 * length quadGroups <= length (claimedIds quadGroups))%nat
  /\ (length (claimedIds quadGroups) <= length (List.filter isImage quad))%nat
  /\ (length (List.filter isImage quad) <= length quad)%nat.
Proof.
  apply (detectDuplicates_group_count noBrowser quad quadGroups).
  vm_compute. reflexivity.
Defined.

(** *** Batches that need no decoding *)

Lemma preprocess_cached (B : Browser) (l acc : list MediaItem) :
  Forall (fun it => type it = image -> isCached it = true) l ->
  preprocess B l acc = Normal (acc ++ List.filter isImage l).
Proof.
  revert acc. induction l as [|item l IH]; intros acc Hl; cbn [preprocess List.filter].
  - rewrite app_nil_r. reflexivity.
  - apply Forall_cons in Hl. destruct Hl as [Hitem Hl].
    unfold isImage at 1. destruct (type item) eqn:Htype.
    + specialize (Hitem eq_refl). unfold isCached in Hitem.
      apply andb_true_iff in Hitem. destruct Hitem as [Hh Hq].
      rewrite Hh, Hq. cbn [negb orb].
      rewrite (IH _ Hl), <- app_assoc. reflexivity.
    + apply IH, Hl.
Qed.

(** X17. A batch without image records (an empty one, or videos only)
    gives no groups, under every browser: nothing is decoded. *)
Theorem detectDuplicates_videos_only (B : Browser) (items0 : list MediaItem) :
  Forall (fun it => type it = video) items0 ->
  detectDuplicates B items0 = Fulfilled [].
Proof.
  intros Hall. unfold detectDuplicates. cbv zeta.
  set (sorted := Array_sort _ items0).
  assert (Forall (fun it => type it = video) sorted) as Hsorted
    by (unfold sorted; rewrite Array_sort_Permutation; exact Hall).
  rewrite (preprocess_cached B sorted []).
  2:{ eapply List.Forall_impl; [|exact Hsorted]. intros it Hv Hi. congruence. }
  replace (List.filter isImage sorted) with (@nil MediaItem); [reflexivity|].
  symmetry. clear -Hsorted. induction Hsorted as [|it l Hv _ IH]; [reflexivity|].
  simpl. unfold isImage at 1. rewrite Hv. exact IH.
Qed.

Lemma detectDuplicates_videos_only_witness :
  detectDuplicates noBrowser [screenVideo; holidayVideo] = Fulfilled [].
Proof.
  apply (detectDuplicates_videos_only noBrowser [screenVideo; holidayVideo]).
  repeat constructor.
Defined.

(** X18. When every image record of the batch already carries a non-empty
    hash and a quality score, the scan never touches the decoder: it
    fulfils, with the same groups under every browser, also one that can
    decode nothing. *)
Theorem detectDuplicates_cached_needs_no_browser (B B' : Browser)
    (items0 : list MediaItem) :
  Forall (fun it => type it = image -> isCached it = true) items0 ->
  detectDuplicates B items0 = detectDuplicates B' items0
  /\ exists groups, detectDuplicates B items0 = Fulfilled groups.
Proof.
  intros Hall. unfold detectDuplicates. cbv zeta.
  set (sorted := Array_sort _ items0).
  assert (Forall (fun it => type it = image -> isCached it = true) sorted) as Hsorted
    by (unfold sorted; rewrite Array_sort_Permutation; exact Hall).
  rewrite !(preprocess_cached _ sorted [] Hsorted).
  split; [reflexivity|]. run_completion.
  destruct (fold_left _ _ _) as [gs visited]. eauto.
Qed.

Lemma detectDuplicates_cached_needs_no_browser_witness :
  detectDuplicates noBrowser quad = detectDuplicates pickyBrowser quad
  /\ exists groups, detectDuplicates noBrowser quad = Fulfilled groups.
Proof.
  apply (detectDuplicates_cached_needs_no_browser noBrowser pickyBrowser quad).
  repeat constructor.
Defined.

(** ** The review state of the App *)

(** *** Selection *)

(** X19. [toggleSelection] flips the selection of the one id it is given
    and of no other; toggling the same id twice gives back the state. *)
Theorem toggleSelection_flips_one (i : string) (s : AppState) :
  (i ∈ app_selectedIds (toggleSelection i s) <-> i ∉ app_selectedIds s)
  /\ (forall j, j <> i ->
        j ∈ app_selectedIds (toggleSelection i s) <-> j ∈ app_selectedIds s)
  /\ toggleSelection i (toggleSelection i s) = s.
Proof.
  destruct s as [m l sel f t gs].
  unfold toggleSelection, setSelectedIds. cbn [app_selectedIds app_mode app_items
    app_activeFilter app_trashBin app_duplicateGroups].
  destruct (bool_decide (i ∈ sel)) eqn:E.
  - apply bool_decide_eq_true in E.
    split; [set_solver|]. split; [set_solver|].
    rewrite bool_decide_eq_false_2 by set_solver.
    f_equal. apply set_eq. intros j. destruct (decide (j = i)); set_solver.
  - apply bool_decide_eq_false in E.
    split; [set_solver|]. split; [set_solver|].
    rewrite bool_decide_eq_true_2 by set_solver.
    f_equal. apply set_eq. set_solver.
Qed.

Lemma fold_left_delete (l : list string) (sel : gset string) :
  fold_left (fun acc i => acc ∖ {[ i ]}) l sel = sel ∖ list_to_set l.
Proof.
  revert sel. induction l as [|x l IH]; intros sel; simpl.
  - apply set_eq. set_solver.
  - rewrite IH. apply set_eq. set_solver.
Qed.

Lemma fold_left_add (l : list string) (sel : gset string) :
  fold_left (fun acc i => acc ∪ {[ i ]}) l sel = sel ∪ list_to_set l.
Proof.
  revert sel. induction l as [|x l IH]; intros sel; simpl.
  - apply set_eq. set_solver.
  - rewrite IH. apply set_eq. set_solver.
Qed.

Lemma forallb_selected (sel : gset string) (l : list string) :
  forallb (fun i => bool_decide (i ∈ sel)) l = true <-> forall j, j ∈ l -> j ∈ sel.
Proof.
  rewrite forallb_forall. split.
  - intros H j Hj. apply list_elem_of_In in Hj.
    exact (bool_decide_eq_true_1 _ (H j Hj)).
  - intros H j Hj. apply bool_decide_eq_true_2, H, list_elem_of_In, Hj.
Qed.

(** X20. [selectAllInView] acts on the ids in view only.  If some visible
    id is not selected, all of them are selected afterwards; if all are
    selected already (also when the view is empty), all of them are
    deselected.  Ids outside the view keep their state. *)
Theorem selectAllInView_effect (s : AppState) :
  let visible := map id (filteredItems s) in
  let sel := app_selectedIds s in
  let sel' := app_selectedIds (selectAllInView s) in
  (forall j, j ∉ visible -> (j ∈ sel' <-> j ∈ sel))
  /\ ((exists j, j ∈ visible /\ j ∉ sel) -> forall j, j ∈ visible -> j ∈ sel')
  /\ ((forall j, j ∈ visible -> j ∈ sel) -> forall j, j ∈ visible -> j ∉ sel')
  /\ (visible = [] -> selectAllInView s = s).
Proof.
  intros visible sel sel'. subst sel'.
  unfold selectAllInView. fold visible. fold sel.
  unfold setSelectedIds. cbn [app_selectedIds].
  rewrite fold_left_delete, fold_left_add.
  destruct (forallb _ visible) eqn:E.
  - pose proof (proj1 (forallb_selected sel visible) E) as Eall. clear E.
    rename Eall into E.
    split; [intros j Hj; set_solver|].
    split; [intros (j & Hj & Hn); destruct (Hn (E j Hj))|].
    split; [intros _ j Hj; set_solver|].
    intros Hv. rewrite Hv. destruct s; cbn. f_equal. apply set_eq. set_solver.
  - assert (~ forall j, j ∈ visible -> j ∈ sel) as Hnot.
    { intros H. apply (proj2 (forallb_selected sel visible)) in H. congruence. }
    split; [intros j Hj; set_solver|].
    split; [intros _ j Hj; set_solver|].
    split; [intros H; destruct (Hnot H)|].
    intros Hv. destruct Hnot. rewrite Hv. intros j Hj. inversion Hj.
Qed.

(** *** The trash *)

Lemma elem_of_filter_bool {A} (p : A -> bool) (l : list A) (x : A) :
  x ∈ List.filter p l <-> x ∈ l /\ p x = true.
Proof. rewrite !list_elem_of_In. apply filter_In. Qed.

Lemma filter_split_Permutation {A} (p : A -> bool) (l : list A) :
  List.filter (fun x => negb (p x)) l ++ List.filter p l ≡ₚ l.
Proof.
  induction l as [|x l IH]; [reflexivity|].
  cbn [List.filter]. destruct (p x); cbn [negb].
  - rewrite <- Permutation_middle. constructor. exact IH.
  - simpl. constructor. exact IH.
Qed.

Lemma filter_sublist {A} (p : A -> bool) (l : list A) :
  sublist (List.filter p l) l.
Proof.
  induction l as [|x l IH]; [constructor|].
  cbn [List.filter]. destruct (p x); constructor; exact IH.
Qed.

Lemma elem_of_map_id (l : list MediaItem) (i : string) :
  i ∈ map id l <-> exists x, x ∈ l /\ id x = i.
Proof.
  rewrite list_elem_of_In, in_map_iff. split.
  - intros (x & Hx & Hin). exists x. split; [apply list_elem_of_In, Hin|exact Hx].
  - intros (x & Hin & Hx). exists x. split; [exact Hx|apply list_elem_of_In, Hin].
Qed.

Lemma elem_of_trashed (sel : gset string) (l : list MediaItem) (i : string) :
  i ∈ (list_to_set (map id (List.filter (fun x => bool_decide (id x ∈ sel)) l))
         : gset string)
  <-> i ∈ sel /\ i ∈ map id l.
Proof.
  rewrite elem_of_list_to_set, !elem_of_map_id. split.
  - intros (x & Hx & <-). apply elem_of_filter_bool in Hx. destruct Hx as [Hx Hs].
    apply bool_decide_eq_true_1 in Hs. eauto.
  - intros (Hs & x & Hx & <-). exists x. split; [|reflexivity].
    apply elem_of_filter_bool. split; [exact Hx|].
    apply bool_decide_eq_true_2, Hs.
Qed.

Lemma moveToTrash_permutation (s : AppState) :
  app_items (moveToTrash s) ++ app_trashBin (moveToTrash s)
  ≡ₚ app_items s ++ app_trashBin s.
Proof.
  unfold moveToTrash. cbn [app_items app_trashBin].
  rewrite (Permutation_app_comm (app_trashBin s)), app_assoc.
  apply Permutation_app_tail.
  apply (filter_split_Permutation (fun i => bool_decide (id i ∈ app_selectedIds s))).
Qed.

(** X21. [moveToTrash] loses nothing: the list and the trash bin together
    hold the same records before and after.  The records that stay are those
    whose id is not selected, in their old order; the selected ones are
    appended to the trash bin, in their old order; the selection is cleared. *)
Theorem moveToTrash_conserves_items (s : AppState) :
  let s' := moveToTrash s in
  app_items s' ++ app_trashBin s' ≡ₚ app_items s ++ app_trashBin s
  /\ sublist (app_items s') (app_items s)
  /\ (forall x, x ∈ app_items s' <-> x ∈ app_items s /\ id x ∉ app_selectedIds s)
  /\ (exists moved,
        app_trashBin s' = app_trashBin s ++ moved
        /\ sublist moved (app_items s)
        /\ forall x, x ∈ moved <-> x ∈ app_items s /\ id x ∈ app_selectedIds s)
  /\ app_selectedIds s' = ∅.
Proof.
  intros s'. split; [apply moveToTrash_permutation|].
  subst s'. unfold moveToTrash. cbn [app_items app_trashBin app_selectedIds].
  split; [apply filter_sublist|]. split; [|split; [|reflexivity]].
  - intros x. rewrite elem_of_filter_bool, negb_true_iff, bool_decide_eq_false.
    reflexivity.
  - eexists. split; [reflexivity|]. split; [apply filter_sublist|].
    intros x. rewrite elem_of_filter_bool, bool_decide_eq_true. reflexivity.
Qed.

Lemma moveToTrash_groups_eq (s : AppState) :
  app_duplicateGroups (moveToTrash s)
  = List.filter (fun g => (1 <? length (items g))%nat)
      (map (fun g =>
              setGroupItems g
                (List.filter
                   (fun i => negb (bool_decide
                      (id i ∈ (list_to_set (map id
                         (List.filter (fun x => bool_decide (id x ∈ app_selectedIds s))
                            (app_items s))) : gset string))))
                   (items g)))
         (app_duplicateGroups s)).
Proof.
  unfold moveToTrash. cbn [app_duplicateGroups].
  destruct (app_duplicateGroups s); reflexivity.
Qed.

Lemma moveToTrash_group_origin (s : AppState) (g' : DuplicateGroup) :
  g' ∈ app_duplicateGroups (moveToTrash s) ->
  (2 <= length (items g'))%nat
  /\ exists g, g ∈ app_duplicateGroups s
       /\ group_id g' = group_id g /\ bestItemId g' = bestItemId g
       /\ scoreGap g' = scoreGap g
       /\ sublist (items g') (items g)
       /\ forall m, m ∈ items g' <->
            m ∈ items g /\ ~ (id m ∈ app_selectedIds s /\ id m ∈ map id (app_items s)).
Proof.
  rewrite moveToTrash_groups_eq, elem_of_filter_bool.
  intros [Hin Hlen]. apply Nat.ltb_lt in Hlen. split; [lia|].
  apply list_elem_of_In, in_map_iff in Hin. destruct Hin as (g & <- & Hg).
  exists g. cbn [setGroupItems group_id bestItemId scoreGap items].
  split; [apply list_elem_of_In, Hg|]. repeat (split; [reflexivity|]).
  split; [apply filter_sublist|].
  intros m. rewrite elem_of_filter_bool, negb_true_iff, bool_decide_eq_false.
  rewrite elem_of_trashed. reflexivity.
Qed.

(** X22. What [moveToTrash] does to the duplicate groups: a group that
    survives is an old group (same id, same [bestItemId], same [scoreGap])
    with the members of trashed records taken out, and it still has at least
    two members; the best member and the gap are not recomputed.  If every
    group member named a record of the list before, the same holds
    afterwards. *)
Theorem moveToTrash_groups (s : AppState) :
  Forall (fun g' =>
      (2 <= length (items g'))%nat
      /\ exists g, g ∈ app_duplicateGroups s
           /\ group_id g' = group_id g /\ bestItemId g' = bestItemId g
           /\ scoreGap g' = scoreGap g
           /\ sublist (items g') (items g)
           /\ forall m, m ∈ items g' <->
                m ∈ items g
                /\ ~ (id m ∈ app_selectedIds s /\ id m ∈ map id (app_items s)))
    (app_duplicateGroups (moveToTrash s))
  /\ (groupsWithin (app_items s) (app_duplicateGroups s) ->
      groupsWithin (app_items (moveToTrash s)) (app_duplicateGroups (moveToTrash s))).
Proof.
  split.
  - apply Forall_forall. intros g' Hg'. apply moveToTrash_group_origin, Hg'.
  - intros Hwithin g' m Hg' Hm.
    destruct (moveToTrash_group_origin s g' Hg') as (_ & g & Hg & _ & _ & _ & _ & Hmem).
    apply Hmem in Hm. destruct Hm as [Hm Hnot].
    pose proof (Hwithin g m Hg Hm) as Hid.
    apply elem_of_map_id in Hid. destruct Hid as (x & Hx & Hxid).
    apply elem_of_map_id. exists x. split; [|exact Hxid].
    unfold moveToTrash. cbn [app_items].
    apply elem_of_filter_bool. split; [exact Hx|].
    rewrite negb_true_iff, bool_decide_eq_false. intros Hsel.
    apply Hnot. rewrite <- Hxid. split; [exact Hsel|].
    apply elem_of_map_id. eauto.
Qed.

Lemma filter_all {A} (p : A -> bool) (l : list A) :
  (forall x, x ∈ l -> p x = true) -> List.filter p l = l.
Proof.
  induction l as [|x l IH]; intros H; [reflexivity|].
  cbn [List.filter]. rewrite (H x) by constructor.
  f_equal. apply IH. intros y Hy. apply H. constructor. exact Hy.
Qed.

(** X23. Trashing a group's best shot by hand and then resolving the
    group keeps nothing of it.  When [moveToTrash] removes the record that a
    group names as its best and the group survives (two or more members are
    left), the group still names the trashed record; [resolveDuplicateGroup]
    on it then finds no member to keep and moves every remaining member to
    the trash. *)
Theorem resolveDuplicateGroup_after_trashing_best (s : AppState) (g' : DuplicateGroup) :
  g' ∈ app_duplicateGroups (moveToTrash s) ->
  bestItemId g' ∈ app_selectedIds s ->
  bestItemId g' ∈ map id (app_items s) ->
  let s'' := resolveDuplicateGroup g' (moveToTrash s) in
  (2 <= length (items g'))%nat
  /\ (forall m, m ∈ items g' -> id m <> bestItemId g')
  /\ app_trashBin s'' = app_trashBin (moveToTrash s) ++ items g'
  /\ forall m, m ∈ items g' -> id m ∉ map id (app_items s'').
Proof.
  intros Hg' Hsel Hin s''.
  destruct (moveToTrash_group_origin s g' Hg') as (Hlen & g & _ & _ & _ & _ & _ & Hmem).
  assert (forall m, m ∈ items g' -> id m <> bestItemId g') as Hnone.
  { intros m Hm Heq. apply Hmem in Hm. destruct Hm as [_ Hnot].
    apply Hnot. rewrite Heq. split; assumption. }
  assert (List.filter (fun i => negb (String.eqb (id i) (bestItemId g'))) (items g')
          = items g') as Hall.
  { apply filter_all. intros m Hm. apply negb_true_iff, String.eqb_neq, Hnone, Hm. }
  split; [exact Hlen|]. split; [exact Hnone|].
  subst s''. unfold resolveDuplicateGroup. rewrite Hall.
  cbn [app_trashBin app_items]. split; [reflexivity|].
  intros m Hm Hid. apply elem_of_map_id in Hid. destruct Hid as (x & Hx & Hxid).
  apply elem_of_filter_bool in Hx. destruct Hx as [_ Hx].
  apply negb_true_iff, bool_decide_eq_false in Hx. apply Hx.
  apply elem_of_list_to_set, elem_of_map_id. exists m. split; [exact Hm|].
  symmetry. exact Hxid.
Qed.

Lemma resolveDuplicateGroup_after_trashing_best_witness :
  let g' := setGroupItems trioGroup [cached "c" 3 zeros64 0.7; cached "a" 1 zeros64 0.5] in
  let s'' := resolveDuplicateGroup g' (moveToTrash trioState) in
  (2 <= length (items g'))%nat
  /\ (forall m, m ∈ items g' -> id m <> bestItemId g')
  /\ app_trashBin s'' = app_trashBin (moveToTrash trioState) ++ items g'
  /\ forall m, m ∈ items g' -> id m ∉ map id (app_items s'').
Proof.
  apply (resolveDuplicateGroup_after_trashing_best trioState
           (setGroupItems trioGroup
              [cached "c" 3 zeros64 0.7; cached "a" 1 zeros64 0.5])).
  - vm_compute. constructor.
  - change ("b"%string ∈ ({[ "b"%string ]} : gset string)).
    apply elem_of_singleton_2. reflexivity.
  - vm_compute. constructor 2. constructor.
Defined.

(** X24. What [resolveDuplicateGroup] does: a record stays in the list
    unless its id is that of a group member other than [bestItemId], so a
    record carrying [bestItemId] is never removed; the group's members
    other than the best go to the end of the trash bin; every group with the
    resolved group's id disappears and the others stay; the selection is
    not touched. *)
Theorem resolveDuplicateGroup_effect (g : DuplicateGroup) (s : AppState) :
  let s' := resolveDuplicateGroup g s in
  (forall x, x ∈ app_items s' <->
     x ∈ app_items s /\ (id x = bestItemId g \/ id x ∉ map id (items g)))
  /\ sublist (app_items s') (app_items s)
  /\ (exists moved,
        app_trashBin s' = app_trashBin s ++ moved
        /\ sublist moved (items g)
        /\ forall m, m ∈ moved <-> m ∈ items g /\ id m <> bestItemId g)
  /\ (forall h, h ∈ app_duplicateGroups s' <->
        h ∈ app_duplicateGroups s /\ group_id h <> group_id g)
  /\ app_selectedIds s' = app_selectedIds s.
Proof.
  intros s'. subst s'. unfold resolveDuplicateGroup.
  cbn [app_items app_trashBin app_duplicateGroups app_selectedIds].
  assert (forall m, m ∈ List.filter
            (fun i => negb (String.eqb (id i) (bestItemId g))) (items g)
          <-> m ∈ items g /\ id m <> bestItemId g) as Hmoved.
  { intros m. rewrite elem_of_filter_bool, negb_true_iff, String.eqb_neq. reflexivity. }
  split; [|split; [apply filter_sublist|split; [|split; [|reflexivity]]]].
  - intros x. rewrite elem_of_filter_bool, negb_true_iff, bool_decide_eq_false.
    rewrite elem_of_list_to_set, !elem_of_map_id.
    split; intros [Hx Hk]; (split; [exact Hx|]).
    + destruct (decide (id x = bestItemId g)) as [Hb|Hb]; [left; exact Hb|right].
      intros (m & Hm & Hid). apply Hk. exists m. split; [|exact Hid].
      apply Hmoved. split; [exact Hm|congruence].
    + intros (m & Hm & Hid). apply Hmoved in Hm. destruct Hm as [Hm Hnb].
      destruct Hk as [Hb|Hk]; [congruence|]. apply Hk. eauto.
  - eexists. split; [reflexivity|]. split; [apply filter_sublist|exact Hmoved].
  - intros h. rewrite elem_of_filter_bool, negb_true_iff, String.eqb_neq. reflexivity.
Qed.

Lemma startDuplicateScan_group_shape (B : Browser) (items0 : list MediaItem)
    (groups : list DuplicateGroup) (g : DuplicateGroup) :
  startDuplicateScan B items0 = Fulfilled groups -> g ∈ groups ->
  ranked g
  /\ NoDup (map id (items g))
  /\ forall m, m ∈ items g -> id m ∈ map id items0.
Proof.
  unfold startDuplicateScan. cbv zeta. intros Hrun Hg.
  destruct (detectDuplicates_inv B _ groups Hrun)
    as (pool & visited & Hpre & Hnd & _ & Hrank & Hpool).
  simpl in Hnd, Hrank, Hpool.
  rewrite Forall_forall in Hrank, Hpool.
  split; [apply Hrank, Hg|]. split.
  - apply NoDup_concat_each in Hnd. rewrite Forall_forall in Hnd.
    apply Hnd. apply list_elem_of_In.
    apply (in_map (fun g => map id (items g))). apply list_elem_of_In, Hg.
  - intros m Hm.
    destruct (preprocess_origin B _ pool m Hpre (Hpool g Hg m Hm))
      as (item & Hitem & _ & Hid & _).
    rewrite Array_sort_Permutation in Hitem.
    apply elem_of_filter_bool in Hitem. destruct Hitem as [Hitem _].
    apply elem_of_map_id. exists item. split; [exact Hitem|]. symmetry. exact Hid.
Qed.

Lemma NoDup_map_filter (p : MediaItem -> bool) (l : list MediaItem) :
  NoDup (map id l) -> NoDup (map id (List.filter p l)).
Proof.
  induction l as [|x l IH]; simpl; intros H; [constructor|].
  apply NoDup_cons in H. destruct H as [Hx Hl].
  destruct (p x); [|apply IH, Hl].
  simpl. apply NoDup_cons. split; [|apply IH, Hl].
  intros Hin. apply Hx. apply elem_of_map_id in Hin.
  destruct Hin as (y & Hy & Hid). apply elem_of_filter_bool in Hy.
  apply elem_of_map_id. exists y. tauto.
Qed.

Lemma filter_ids_Permutation (l : list MediaItem) (r : list string) :
  NoDup (map id l) -> NoDup r -> (forall i, i ∈ r -> i ∈ map id l) ->
  map id (List.filter
            (fun x => negb (bool_decide (id x ∈ (list_to_set r : gset string)))) l)
    ++ r
  ≡ₚ map id l.
Proof.
  intros Hl Hr Hsub. apply NoDup_Permutation.
  - apply NoDup_app. split; [apply NoDup_map_filter, Hl|]. split; [|exact Hr].
    intros i Hi Hir. apply elem_of_map_id in Hi. destruct Hi as (x & Hx & <-).
    apply elem_of_filter_bool in Hx. destruct Hx as [_ Hx].
    apply negb_true_iff, bool_decide_eq_false in Hx.
    apply Hx, elem_of_list_to_set, Hir.
  - exact Hl.
  - intros i. rewrite elem_of_app. split.
    + intros [Hi|Hi]; [|apply Hsub, Hi].
      apply elem_of_map_id in Hi. destruct Hi as (x & Hx & <-).
      apply elem_of_filter_bool in Hx. apply elem_of_map_id. exists x. tauto.
    + intros Hi. destruct (decide (i ∈ r)) as [Hir|Hir]; [right; exact Hir|left].
      apply elem_of_map_id in Hi. destruct Hi as (x & Hx & <-).
      apply elem_of_map_id. exists x. split; [|reflexivity].
      apply elem_of_filter_bool. split; [exact Hx|].
      apply negb_true_iff, bool_decide_eq_false.
      rewrite elem_of_list_to_set. exact Hir.
Qed.

(** X25. Resolving a group that the scan of the current list produced,
    the ids of the list being distinct: the group is its best member
    followed by at least one other; exactly these others are appended to the
    trash bin, and their records leave the list; the record of the best
    member stays.  By id, what leaves the list is what enters the trash. *)
Theorem resolveDuplicateGroup_detected (B : Browser) (s : AppState)
    (groups : list DuplicateGroup) (g : DuplicateGroup) :
  NoDup (map id (app_items s)) ->
  startDuplicateScan B (app_items s) = Fulfilled groups ->
  g ∈ groups ->
  let s' := resolveDuplicateGroup g s in
  exists best rest,
    items g = best :: rest /\ rest <> [] /\ bestItemId g = id best
    /\ app_trashBin s' = app_trashBin s ++ rest
    /\ map id (app_items s') ++ map id rest ≡ₚ map id (app_items s)
    /\ id best ∈ map id (app_items s')
    /\ (forall m, m ∈ rest -> id m ∉ map id (app_items s')).
Proof.
  intros Hids Hrun Hg s'.
  destruct (startDuplicateScan_group_shape B _ groups g Hrun Hg)
    as (Hrank & Hnd & Hwithin).
  destruct Hrank as (best & second & rest & Hitems & Hbest & _).
  exists best, (second :: rest).
  split; [exact Hitems|]. split; [discriminate|]. split; [exact Hbest|].
  remember (second :: rest) as others eqn:Hothers. clear Hothers.
  rewrite Hitems in Hnd, Hwithin. cbn [map] in Hnd.
  apply NoDup_cons in Hnd. destruct Hnd as [Hfirst Hrest].
  assert (List.filter (fun i => negb (String.eqb (id i) (bestItemId g))) (items g)
          = others) as Htrash.
  { rewrite Hitems, Hbest. cbn [List.filter]. rewrite String.eqb_refl. cbn [negb].
    apply filter_all. intros m Hm. apply negb_true_iff, String.eqb_neq.
    intros Heq. apply Hfirst. apply elem_of_map_id. eauto. }
  subst s'. unfold resolveDuplicateGroup. rewrite Htrash.
  cbn [app_trashBin app_items]. split; [reflexivity|].
  assert (forall m, m ∈ others ->
            id m ∉ map id (List.filter
              (fun i => negb (bool_decide
                 (id i ∈ (list_to_set (map id others) : gset string))))
              (app_items s))) as Hgone.
  { intros m Hm Hin. apply elem_of_map_id in Hin. destruct Hin as (x & Hx & Hid).
    apply elem_of_filter_bool in Hx. destruct Hx as [_ Hx].
    apply negb_true_iff, bool_decide_eq_false in Hx. apply Hx.
    apply elem_of_list_to_set, elem_of_map_id. exists m. split; [exact Hm|].
    symmetry. exact Hid. }
  split; [|split; [|exact Hgone]].
  - apply filter_ids_Permutation; [exact Hids|exact Hrest|].
    intros i Hi. apply elem_of_map_id in Hi. destruct Hi as (m & Hm & <-).
    apply Hwithin. constructor 2. exact Hm.
  - pose proof (Hwithin best ltac:(constructor)) as Hin.
    apply elem_of_map_id in Hin. destruct Hin as (x & Hx & Hid).
    apply elem_of_map_id. exists x. split; [|exact Hid].
    apply elem_of_filter_bool. split; [exact Hx|].
    apply negb_true_iff, bool_decide_eq_false.
    rewrite elem_of_list_to_set, Hid. exact Hfirst.
Qed.

Lemma resolveDuplicateGroup_detected_witness :
  let s' := resolveDuplicateGroup trioGroup trioState in
  exists best rest,
    items trioGroup = best :: rest /\ rest <> [] /\ bestItemId trioGroup = id best
    /\ app_trashBin s' = app_trashBin trioState ++ rest
    /\ map id (app_items s') ++ map id rest ≡ₚ map id (app_items trioState)
    /\ id best ∈ map id (app_items s')
    /\ (forall m, m ∈ rest -> id m ∉ map id (app_items s')).
Proof.
  apply (resolveDuplicateGroup_detected noBrowser trioState [trioGroup] trioGroup).
  - apply (bool_decide_unpack _). vm_compute. exact I.
  - vm_compute. reflexivity.
  - constructor.
Defined.

(** X26. Restoring after [moveToTrash] brings every record back: the list
    then holds the records of the old list and of the old trash bin, the
    trash bin is empty and the App is in review mode.  The selection stays
    cleared and the groups stay as [moveToTrash] left them. *)
Theorem restoreAll_after_moveToTrash (s : AppState) :
  let s' := restoreAll (moveToTrash s) in
  app_items s' ≡ₚ app_items s ++ app_trashBin s
  /\ app_trashBin s' = []
  /\ app_mode s' = REVIEW
  /\ app_selectedIds s' = ∅
  /\ app_duplicateGroups s' = app_duplicateGroups (moveToTrash s).
Proof.
  intros s'. split; [|repeat split].
  subst s'. unfold restoreAll. cbn [app_items].
  apply moveToTrash_permutation.
Qed.

(** *** Changing a category by hand *)

Lemma recategorise_twice (i : string) (c c' : ClassificationCategory) (x : MediaItem) :
  recategorise i c' (recategorise i c x) = recategorise i c' x.
Proof.
  unfold recategorise. destruct (analysis x) as [a|] eqn:Ha; [|rewrite Ha; reflexivity].
  destruct (String.eqb (id x) i) eqn:E.
  - cbn [analysis id setStatus]. rewrite E. reflexivity.
  - rewrite Ha, E. reflexivity.
Qed.

Lemma recategorise_comm (i j : string) (c c' : ClassificationCategory) (x : MediaItem) :
  i <> j ->
  recategorise i c (recategorise j c' x) = recategorise j c' (recategorise i c x).
Proof.
  intros Hij. unfold recategorise.
  destruct (analysis x) as [a|] eqn:Ha; [|rewrite !Ha; reflexivity].
  destruct (String.eqb (id x) j) eqn:Ej, (String.eqb (id x) i) eqn:Ei;
    cbn [analysis id setStatus]; rewrite ?Ha, ?Ei, ?Ej; try reflexivity.
  apply String.eqb_eq in Ej, Ei. congruence.
Qed.

Lemma recategorise_keeps (i : string) (c : ClassificationCategory) (x : MediaItem) :
  id (recategorise i c x) = id x
  /\ size (recategorise i c x) = size x
  /\ status (recategorise i c x) = status x
  /\ file (recategorise i c x) = file x
  /\ hash (recategorise i c x) = hash x
  /\ quality (recategorise i c x) = quality x
  /\ (analysis x = None -> recategorise i c x = x)
  /\ (id x <> i -> recategorise i c x = x)
  /\ (forall a, id x = i -> analysis x = Some a ->
        analysis (recategorise i c x) = Some (setCategory a c)).
Proof.
  unfold recategorise. destruct (analysis x) as [a|] eqn:Ha.
  - destruct (String.eqb (id x) i) eqn:E.
    + apply String.eqb_eq in E. cbn [id size status file hash quality analysis setStatus].
      repeat split; intros; congruence.
    + apply String.eqb_neq in E. repeat split; intros; congruence.
  - repeat split; intros; congruence.
Qed.

(** X27. [changeCategory] rewrites the category of the analysed records
    carrying the given id and nothing else: ids, sizes, statuses, files and
    the other fields of the analysis stay, records without an analysis get
    none.  A second change of the same id overrides the first, and changes
    of different ids can be made in either order. *)
Theorem changeCategory_effect (i j : string) (c c' : ClassificationCategory)
    (s : AppState) :
  Forall2 (fun old new =>
      id new = id old /\ size new = size old /\ status new = status old
      /\ file new = file old /\ hash new = hash old /\ quality new = quality old
      /\ (analysis old = None -> new = old)
      /\ (id old <> i -> new = old)
      /\ (forall a, id old = i -> analysis old = Some a ->
            analysis new = Some (setCategory a c)))
    (app_items s) (app_items (changeCategory i c s))
  /\ changeCategory i c' (changeCategory i c s) = changeCategory i c' s
  /\ (i <> j ->
      changeCategory i c (changeCategory j c' s)
      = changeCategory j c' (changeCategory i c s)).
Proof.
  unfold changeCategory, setItems.
  cbn [app_items app_mode app_selectedIds app_activeFilter app_trashBin
       app_duplicateGroups].
  split; [|split].
  - induction (app_items s) as [|x l IH]; simpl; constructor;
      [apply recategorise_keeps|exact IH].
  - f_equal. rewrite map_map. apply map_ext. intros x. apply recategorise_twice.
  - intros Hij. f_equal. rewrite !map_map. apply map_ext. intros x.
    apply recategorise_comm, Hij.
Qed.

(** *** The dashboard counters *)

Lemma stats_fold (l : list MediaItem) (acc : Stats) :
  fold_left statsStep l acc
  = {| statKeep := statKeep acc + length (List.filter (categoryIs KEEP) l);
       statDiscard := statDiscard acc + length (List.filter (categoryIs DISCARD) l);
       statUnsure := statUnsure acc + length (List.filter (categoryIs UNSURE) l);
       statPendingNaN := statPendingNaN acc || existsb (categoryIs PENDING) l;
       totalSize := totalSize acc + sumSizes l;
       keepSize := keepSize acc + sumSizes (List.filter (categoryIs KEEP) l);
       discardSize := discardSize acc + sumSizes (List.filter (categoryIs DISCARD) l)
    |}%Z.
Proof.
  revert acc. induction l as [|x l IH]; intros acc.
  - destruct acc. cbn. rewrite !Nat.add_0_r, !Z.add_0_r, orb_false_r. reflexivity.
  - cbn [fold_left]. rewrite IH. unfold statsStep.
    cbn [statKeep statDiscard statUnsure statPendingNaN totalSize keepSize
         discardSize List.filter existsb sumSizes foldr].
    fold (sumSizes l).
    destruct (categoryIs KEEP x), (categoryIs DISCARD x), (categoryIs UNSURE x),
      (categoryIs PENDING x);
      cbn [length sumSizes foldr orb]; fold (sumSizes (List.filter (categoryIs KEEP) l));
      fold (sumSizes (List.filter (categoryIs DISCARD) l));
      f_equal; try lia; try reflexivity;
      destruct (statPendingNaN acc); reflexivity.
Qed.

Lemma categoryIs_exclusive (c c' : ClassificationCategory) (x : MediaItem) :
  categoryIs c x = true -> categoryIs c' x = true -> c = c'.
Proof.
  unfold categoryIs. destruct (analysis x) as [a|]; [|discriminate].
  destruct (category a), c, c'; simpl; congruence.
Qed.

Lemma filters_length (l : list MediaItem) :
  (length (List.filter (categoryIs KEEP) l)
   + length (List.filter (categoryIs DISCARD) l)
   + length (List.filter (categoryIs UNSURE) l) <= length l)%nat.
Proof.
  induction l as [|x l IH]; simpl; [lia|].
  destruct (categoryIs KEEP x) eqn:K, (categoryIs DISCARD x) eqn:D,
    (categoryIs UNSURE x) eqn:U; simpl; try lia;
    try (pose proof (categoryIs_exclusive _ _ x K D); discriminate);
    try (pose proof (categoryIs_exclusive _ _ x K U); discriminate);
    try (pose proof (categoryIs_exclusive _ _ x D U); discriminate).
Qed.

Lemma filters_sizes (l : list MediaItem) :
  Forall (fun x => (0 <= size x)%Z) l ->
  (0 <= sumSizes (List.filter (categoryIs KEEP) l)
   /\ 0 <= sumSizes (List.filter (categoryIs DISCARD) l)
   /\ sumSizes (List.filter (categoryIs KEEP) l)
      + sumSizes (List.filter (categoryIs DISCARD) l) <= sumSizes l)%Z.
Proof.
  induction 1 as [|x l Hx _ IH]; simpl; [lia|].
  destruct (categoryIs KEEP x) eqn:K, (categoryIs DISCARD x) eqn:D; simpl;
    try lia.
  pose proof (categoryIs_exclusive _ _ x K D). discriminate.
Qed.

(** X28. The dashboard counters agree with the filters of the review
    view: each count is the number of records the filter of that category
    shows, [keepSize] and [discardSize] are the bytes of those records and
    [totalSize] the bytes of all records.  So the three counts together
    never exceed the number of records, and with sizes that are not negative
    the bytes to keep and to clean together never exceed the total. *)
Theorem stats_agree_with_filters (s : AppState) :
  let shown := fun f => filteredItems (setActiveFilter s f) in
  statKeep (stats s) = length (shown (Only KEEP))
  /\ statDiscard (stats s) = length (shown (Only DISCARD))
  /\ statUnsure (stats s) = length (shown (Only UNSURE))
  /\ totalSize (stats s) = sumSizes (shown ALL)
  /\ keepSize (stats s) = sumSizes (shown (Only KEEP))
  /\ discardSize (stats s) = sumSizes (shown (Only DISCARD))
  /\ (statKeep (stats s) + statDiscard (stats s) + statUnsure (stats s)
      <= length (app_items s))%nat
  /\ (Forall (fun x => (0 <= size x)%Z) (app_items s) ->
      (0 <= keepSize (stats s) /\ 0 <= discardSize (stats s)
       /\ keepSize (stats s) + discardSize (stats s) <= totalSize (stats s))%Z).
Proof.
  intros shown. subst shown. unfold stats, filteredItems, setActiveFilter.
  cbn [app_activeFilter app_items]. rewrite stats_fold.
  cbn [statKeep statDiscard statUnsure totalSize keepSize discardSize zeroStats].
  rewrite !Nat.add_0_l, !Z.add_0_l.
  repeat (split; [reflexivity|]).
  split; [apply filters_length|apply filters_sizes].
Qed.

(** *** The batch, continued *)

Lemma analyzeItem_not_pending (B : Browser) (item : MediaItem) :
  exists a, analyzeItem B item = Normal a /\ category a <> PENDING.
Proof.
  unfold analyzeItem. destruct (type item).
  - destruct (analyzeImage_cases B (file item))
      as [[_ H]|[(_ & _ & H)|[(_ & _ & _ & H)|(img & _ & _ & _ & _ &
           [[_ H]|[(_ & _ & H)|(_ & _ & H)]])]]];
      rewrite H; eexists; (split; [reflexivity|discriminate]).
  - eexists. split; [reflexivity|].
    cbn [category]. destruct (includes _ _); discriminate.
Qed.

Lemma analysed_fields (B : Browser) (item : MediaItem) :
  id (analysed B item) = id item
  /\ size (analysed B item) = size item
  /\ status (analysed B item) = done
  /\ exists a, analyzeItem B item = Normal a
       /\ analysis (analysed B item) = Some a /\ category a <> PENDING.
Proof.
  unfold analysed. destruct (analyzeItem_not_pending B item) as (a & -> & Ha).
  cbn [id size status analysis setStatus].
  repeat (split; [reflexivity|]). exists a. auto.
Qed.

Lemma processItem_fresh (B : Browser) (before after : list MediaItem)
    (item : MediaItem) :
  (forall y, y ∈ before -> id y <> id item) ->
  (forall y, y ∈ after -> id y <> id item) ->
  processItem B (before ++ item :: after) item
  = before ++ analysed B item :: after.
Proof.
  intros Hb Ha. unfold processItem, analysed.
  destruct (analyzeItem_normal B item) as [a ->].
  unfold updateById. rewrite map_map, map_app. cbn [map].
  assert (forall l : list MediaItem, (forall y, y ∈ l -> id y <> id item) ->
            map (fun x =>
                   if String.eqb
                        (id (if String.eqb (id x) (id item)
                             then setStatus x analyzing (analysis x) else x))
                        (id item)
                   then setStatus
                          (if String.eqb (id x) (id item)
                           then setStatus x analyzing (analysis x) else x)
                          done (Some a)
                   else if String.eqb (id x) (id item)
                        then setStatus x analyzing (analysis x) else x) l
            = l) as Hsame.
  { intros l Hl. rewrite <- (map_id l) at 2. apply map_ext_in. intros y Hy.
    apply list_elem_of_In, Hl, String.eqb_neq in Hy. rewrite Hy, Hy. reflexivity. }
  rewrite (Hsame before Hb), (Hsame after Ha).
  rewrite String.eqb_refl. cbn [id setStatus]. rewrite String.eqb_refl.
  reflexivity.
Qed.

Lemma fold_processItem_distinct (B : Browser) (todo finished : list MediaItem) :
  NoDup (map id (finished ++ todo)) ->
  fold_left (processItem B) todo (map (analysed B) finished ++ todo)
  = map (analysed B) (finished ++ todo).
Proof.
  revert finished. induction todo as [|x todo IH]; intros finished Hnd.
  - rewrite !app_nil_r. reflexivity.
  - cbn [fold_left]. rewrite processItem_fresh.
    + replace (map (analysed B) finished ++ analysed B x :: todo)
        with (map (analysed B) (finished ++ [x]) ++ todo)
        by (rewrite map_app, <- app_assoc; reflexivity).
      rewrite IH by (rewrite <- app_assoc; exact Hnd).
      rewrite <- app_assoc. reflexivity.
    + intros y Hy Heq. apply list_elem_of_In, in_map_iff in Hy.
      destruct Hy as (z & <- & Hz).
      destruct (analysed_fields B z) as (Hid & _). rewrite Hid in Heq.
      rewrite map_app in Hnd. apply NoDup_app in Hnd.
      destruct Hnd as (_ & Hdisj & _).
      apply (Hdisj (id z)).
      * apply elem_of_map_id. exists z. split; [apply list_elem_of_In, Hz|reflexivity].
      * rewrite Heq. constructor.
    + intros y Hy Heq. rewrite map_app in Hnd. apply NoDup_app in Hnd.
      destruct Hnd as (_ & _ & Hnd). cbn [map] in Hnd.
      apply NoDup_cons in Hnd. destruct Hnd as [Hx _].
      apply Hx. rewrite <- Heq. apply elem_of_map_id. eauto.
Qed.

(** X29. When the ids of the batch are distinct, [startProcessing] leaves
    each record in its place, done, with the analysis of its own file (or,
    for a video, of its own name); no record is left in the error state and
    none carries the category Pending. *)
Theorem startProcessing_distinct_ids (B : Browser) (files : list MediaItem) :
  NoDup (map id files) ->
  startProcessing B files = map (analysed B) files
  /\ Forall2 (fun old new =>
       id new = id old /\ size new = size old /\ status new = done
       /\ exists a, analyzeItem B old = Normal a
            /\ analysis new = Some a /\ category a <> PENDING)
       files (startProcessing B files).
Proof.
  intros Hnd.
  assert (startProcessing B files = map (analysed B) files) as Heq.
  { unfold startProcessing.
    exact (fold_processItem_distinct B files [] Hnd). }
  split; [exact Heq|]. rewrite Heq. clear.
  induction files as [|x l IH]; simpl; constructor; [apply analysed_fields|exact IH].
Qed.

Lemma startProcessing_distinct_ids_witness :
  startProcessing pickyBrowser [screenshotItem; corruptItem; screenVideo]
  = map (analysed pickyBrowser) [screenshotItem; corruptItem; screenVideo]
  /\ Forall2 (fun old new =>
       id new = id old /\ size new = size old /\ status new = done
       /\ exists a, analyzeItem pickyBrowser old = Normal a
            /\ analysis new = Some a /\ category a <> PENDING)
       [screenshotItem; corruptItem; screenVideo]
       (startProcessing pickyBrowser [screenshotItem; corruptItem; screenVideo]).
Proof.
  apply (startProcessing_distinct_ids pickyBrowser
           [screenshotItem; corruptItem; screenVideo]).
  apply (bool_decide_unpack _). vm_compute. exact I.
Defined.

Lemma processItem_entries_analysis (B : Browser) (prev : list MediaItem)
    (item e' : MediaItem) :
  In e' (processItem B prev item) ->
  exists e, In e prev /\ id e' = id e
    /\ (id e = id item
        /\ (exists a, analysis e' = Some a /\ category a <> PENDING)
        \/ id e <> id item /\ e' = e).
Proof.
  unfold processItem.
  destruct (analyzeItem_not_pending B item) as (a & -> & Ha).
  unfold updateById. rewrite map_map. intros Hin.
  apply in_map_iff in Hin. destruct Hin as (e & <- & Hin).
  exists e. split; [exact Hin|].
  destruct (String.eqb (id e) (id item)) eqn:E.
  - cbn [id setStatus]. rewrite E. cbn [id analysis setStatus].
    apply String.eqb_eq in E.
    split; [reflexivity|]. left. split; [exact E|]. eauto.
  - rewrite E. apply String.eqb_neq in E. split; [reflexivity|].
    right. split; [exact E|reflexivity].
Qed.

Lemma fold_processItem_analysed (B : Browser) (l st : list MediaItem) :
  (forall e, In e st ->
     (exists a, analysis e = Some a /\ category a <> PENDING)
     \/ In (id e) (map id l)) ->
  Forall (fun e => exists a, analysis e = Some a /\ category a <> PENDING)
    (fold_left (processItem B) l st).
Proof.
  revert st. induction l as [|x l IH]; intros st H; simpl.
  - apply List.Forall_forall. intros e He.
    destruct (H e He) as [Hd|[]]. exact Hd.
  - apply IH. intros e' He'.
    destruct (processItem_entries_analysis B st x e' He') as (e & Hin & Hid & Hcase).
    destruct Hcase as [[_ Hd]|[Hne ->]]; [left; exact Hd|].
    destruct (H e Hin) as [Hd|Hl]; [left; exact Hd|].
    right. simpl in Hl. destruct Hl as [Hl|Hl]; [congruence|exact Hl].
Qed.

Lemma processItem_sizes (B : Browser) (prev : list MediaItem) (item : MediaItem) :
  map size (processItem B prev item) = map size prev.
Proof.
  unfold processItem. destruct (analyzeItem B item); unfold updateById;
    rewrite !map_map; apply map_ext; intros x;
    destruct (String.eqb (id x) (id item)) eqn:E;
    cbn [id setStatus]; rewrite ?E; reflexivity.
Qed.

Lemma fold_processItem_sizes (B : Browser) (l st : list MediaItem) :
  map size (fold_left (processItem B) l st) = map size st.
Proof.
  revert st. induction l as [|x l IH]; intros st; simpl; [reflexivity|].
  rewrite IH. apply processItem_sizes.
Qed.

Lemma sumSizes_map (l : list MediaItem) :
  sumSizes l = foldr Z.add 0%Z (map size l).
Proof. induction l as [|x l IH]; simpl; [reflexivity|]. rewrite <- IH. reflexivity. Qed.

Lemma filters_cover (l : list MediaItem) :
  Forall (fun e => exists a, analysis e = Some a /\ category a <> PENDING) l ->
  (length (List.filter (categoryIs KEEP) l)
   + length (List.filter (categoryIs DISCARD) l)
   + length (List.filter (categoryIs UNSURE) l) = length l)%nat
  /\ existsb (categoryIs PENDING) l = false.
Proof.
  induction 1 as [|x l (a & Ha & Hc) _ [IHn IHp]]; [split; reflexivity|].
  assert (forall c, categoryIs c x = category_eqb (category a) c) as Hx
    by (intros c; unfold categoryIs; rewrite Ha; reflexivity).
  cbn [List.filter existsb]. rewrite !Hx.
  destruct (category a); try congruence; cbn [category_eqb length orb];
    (split; [lia|exact IHp]).
Qed.

(** X30. After [startProcessing], whatever the ids and whatever the
    browser can decode, the dashboard counts every record of the batch
    exactly once: the counts of Keep, Discard and Unsure add up to the size
    of the batch, no record falls under Pending (which would store NaN), and
    [totalSize] is the sum of the sizes of the batch. *)
Theorem stats_after_startProcessing (B : Browser) (s : AppState)
    (files : list MediaItem) :
  let st := stats (setItems s (startProcessing B files)) in
  (statKeep st + statDiscard st + statUnsure st = length files)%nat
  /\ statPendingNaN st = false
  /\ totalSize st = sumSizes files.
Proof.
  intros st. subst st. unfold stats, setItems. cbn [app_items].
  rewrite stats_fold.
  cbn [statKeep statDiscard statUnsure statPendingNaN totalSize zeroStats].
  rewrite !Nat.add_0_l, Z.add_0_l, orb_false_l.
  assert (Forall (fun e => exists a, analysis e = Some a /\ category a <> PENDING)
            (startProcessing B files)) as Hall.
  { unfold startProcessing. apply fold_processItem_analysed.
    intros e He. right. exact (in_map id files e He). }
  destruct (filters_cover _ Hall) as [Hn Hp].
  split; [|split; [exact Hp|]].
  - rewrite Hn. unfold startProcessing.
    pose proof (fold_processItem_sizes B files files) as Hs.
    apply (f_equal (@length Z)) in Hs. rewrite !length_map in Hs. exact Hs.
  - rewrite !sumSizes_map. unfold startProcessing.
    rewrite fold_processItem_sizes. reflexivity.
Qed.
